(** * Melody-Contour-Classification: [experiment_utils.py]

    A shallow embedding of the experiment helpers ([create_splits],
    [get_data_files], [compute_all_overlaps], [olap_stats],
    [label_all_contours], [contour_probs], [get_best_threshold]) and the
    properties of the specification checked against it, followed for
    each function by further properties read off the code.

    Conventions of the embedding.
    - Python exceptions: a computation returns [result A], either [Ok a]
      or [Raise e]; [x ← m; k] is sequencing, the first exception wins.
    - NumPy / pandas floats: [np_float], the rationals extended with
      [+inf], [-inf] and [NaN]; the special values follow IEEE 754 and
      every zero is [+0.0].  The operations of [np] are exact; those of
      [f64] round each result to binary64, as the program does.  The
      exact ones carry the properties that no rounding can change; the
      choice of [np.argmax] among nearly equal F values depends on the
      rounding and is stated on [get_best_threshold64].
    - A Python [dict] keyed by track id is a [gmap string _]; a pandas
      [DataFrame] is a columnar table, a row count and named columns.
    - Code that writes to the standard output or updates an object in
      place runs in [pyM S], exceptions over a state [S].

    The file has the embedding first (libraries, then the functions of
    [experiment_utils.py] in source order), then the predicates the
    properties are stated with and the concrete inputs they are run on,
    then the proofs. *)

From Stdlib Require Import ZArith QArith Qreduction Qround Qpower.
From Stdlib Require Import Lia Lqa List.
From Stdlib Require Import Strings.String Strings.Ascii DecimalString.
From stdpp Require Import base option list strings gmap fin_maps sorting.

Local Open Scope Z_scope.

(* ===================================================================== *)
(** * Python exceptions                                                *)
(* ===================================================================== *)

Inductive exn : Type :=
  | ValueError
  | IndexError
  | KeyError
  | IOError
  | OtherError (msg : string).

Inductive result (A : Type) : Type :=
  | Ok (a : A)
  | Raise (e : exn).

Arguments Ok {A} a.
Arguments Raise {A} e.

#[global] Instance result_ret : MRet result := fun A a => Ok a.

#[global] Instance result_bind : MBind result := fun A B f m =>
  match m with
  | Ok a => f a
  | Raise e => Raise e
  end.

#[global] Instance result_fmap : FMap result := fun A B f m =>
  match m with
  | Ok a => Ok (f a)
  | Raise e => Raise e
  end.

(** [l[i]] for a Python list or a 1-d array: negative indices count from
    the end, anything out of range is an [IndexError]. *)
Definition getitem {A} (l : list A) (i : Z) : result A :=
  let n := Z.of_nat (length l) in
  let j := if i <? 0 then n + i else i in
  if (0 <=? j) && (j <? n)
  then match l !! Z.to_nat j with Some x => Ok x | None => Raise IndexError end
  else Raise IndexError.

(** [[f(x) for x in l]] where [f] may raise. *)
Fixpoint traverse {A B} (f : A → result B) (l : list A) : result (list B) :=
  match l with
  | [] => Ok []
  | x :: l' => y ← f x; ys ← traverse f l'; Ok (y :: ys)
  end.

(* ===================================================================== *)
(** * NumPy floats and 1-d arrays                                      *)
(* ===================================================================== *)

Inductive np_float : Type :=
  | Num (q : Q)
  | PInf
  | NInf
  | NaN.

Module np.

Definition of_Z (z : Z) : np_float := Num (inject_Z z).

Definition isnan (x : np_float) : bool :=
  match x with NaN => true | _ => false end.

Definition neg (x : np_float) : np_float :=
  match x with
  | Num q => Num (Qred (- q))
  | PInf => NInf
  | NInf => PInf
  | NaN => NaN
  end.

Definition add (x y : np_float) : np_float :=
  match x, y with
  | NaN, _ | _, NaN => NaN
  | PInf, NInf | NInf, PInf => NaN
  | PInf, _ | _, PInf => PInf
  | NInf, _ | _, NInf => NInf
  | Num a, Num b => Num (Qred (a + b))
  end.

Definition sub (x y : np_float) : np_float := add x (neg y).

(** The sign of a finite number, zero counting as positive. *)
Definition Qnonneg (q : Q) : bool := Qle_bool 0 q.
Definition Qzero (q : Q) : bool := Qeq_bool q 0.

Definition inf_of_sign (nonneg : bool) : np_float :=
  if nonneg then PInf else NInf.

Definition mul (x y : np_float) : np_float :=
  match x, y with
  | NaN, _ | _, NaN => NaN
  | Num a, Num b => Num (Qred (a * b))
  | PInf, PInf | NInf, NInf => PInf
  | PInf, NInf | NInf, PInf => NInf
  | PInf, Num b | Num b, PInf =>
      if Qzero b then NaN else inf_of_sign (Qnonneg b)
  | NInf, Num b | Num b, NInf =>
      if Qzero b then NaN else inf_of_sign (negb (Qnonneg b))
  end.

(** True division of floats: [0/0] is [NaN], [x/0] is an infinity with
    the sign of [x] (NumPy warns and goes on). *)
Definition div (x y : np_float) : np_float :=
  match x, y with
  | NaN, _ | _, NaN => NaN
  | Num a, Num b =>
      if Qzero b
      then (if Qzero a then NaN else inf_of_sign (Qnonneg a))
      else Num (Qred (a / b))
  | Num _, (PInf | NInf) => Num 0
  | (PInf | NInf), (PInf | NInf) => NaN
  | PInf, Num b => inf_of_sign (Qnonneg b)
  | NInf, Num b => inf_of_sign (negb (Qnonneg b))
  end.

(** IEEE comparisons: every comparison with [NaN] is false. *)
Definition le (x y : np_float) : bool :=
  match x, y with
  | NaN, _ | _, NaN => false
  | NInf, _ | _, PInf => true
  | _, NInf | PInf, _ => false
  | Num a, Num b => Qle_bool a b
  end.

Definition lt (x y : np_float) : bool :=
  match x, y with
  | NaN, _ | _, NaN => false
  | Num a, Num b => negb (Qle_bool b a)
  | PInf, _ | _, NInf => false
  | NInf, _ | _, PInf => true
  end.

Definition gt (x y : np_float) : bool := lt y x.

Definition eq (x y : np_float) : bool :=
  match x, y with
  | Num a, Num b => Qeq_bool a b
  | PInf, PInf | NInf, NInf => true
  | _, _ => false
  end.

(** Elementwise binary operation with NumPy's broadcasting for 1-d
    arrays: equal lengths pair up, a length-1 array is stretched, any
    other pair of shapes is a [ValueError]. *)
Definition broadcast (op : np_float → np_float → np_float)
    (a b : list np_float) : result (list np_float) :=
  if (length a =? length b)%nat then Ok (zip_with op a b)
  else match a, b with
       | [x], _ => Ok (map (op x) b)
       | _, [y] => Ok (map (fun x => op x y) a)
       | _, _ => Raise ValueError
       end.

(** [np.argmax] on a 1-d float array: the scan of NumPy's
    [DOUBLE_argmax].  [mp] is the running maximum, [max_ind] its index;
    an element replaces it when [!(x <= mp)], and a [NaN] ends the scan
    ("nan encountered; it's maximal"). *)
Fixpoint argmax_scan (mp : np_float) (max_ind i : nat)
    (ip : list np_float) : nat :=
  match ip with
  | [] => max_ind
  | x :: ip' =>
      if negb (le x mp)
      then (if isnan x then i else argmax_scan x i (S i) ip')
      else argmax_scan mp max_ind (S i) ip'
  end.

Definition argmax (a : list np_float) : result Z :=
  match a with
  | [] => Raise ValueError
  | x :: a' =>
      Ok (Z.of_nat (if isnan x then 0%nat else argmax_scan x 0 1 a'))
  end.

(** [a.cumsum()] on an integer array. *)
Fixpoint cumsum_from (acc : Z) (a : list Z) : list Z :=
  match a with
  | [] => []
  | x :: a' => (acc + x) :: cumsum_from (acc + x) a'
  end.

Definition cumsum (a : list Z) : list Z := cumsum_from 0 a.

End np.

Arguments np.gt : simpl never.
Arguments np.of_Z : simpl never.

(** ** Rounding to float64 *)

(** IEEE 754 binary64: 53 significant bits, round to nearest, ties to
    even, gradual underflow, overflow to an infinity.  A float is kept
    as the rational it denotes. *)
Module f64.

(** The integer nearest to [n / d] ([0 <= n], [0 < d]), a tie going to
    the even one. *)
Definition rne (n d : Z) : Z :=
  let q := n / d in
  let r := n mod d in
  match 2 * r ?= d with
  | Lt => q
  | Gt => q + 1
  | Eq => if Z.even q then q else q + 1
  end.

Definition rneQ (x : Q) : Z := rne (Qnum x) (Z.pos (Qden x)).

(** [floor (log2 q)] for [0 < q]. *)
Definition exponent (q : Q) : Z :=
  let e := Z.log2 (Qnum q) - Z.log2 (Z.pos (Qden q)) in
  if Qle_bool (2 ^ e) q then e else e - 1.

(** The exponent of the unit in the last place of the floats around
    [q]: 53 significant bits, no exponent below that of the subnormal
    numbers. *)
Definition ulp_exponent (q : Q) : Z := Z.max (exponent q) (-1022) - 52.

(** The multiple of the unit in the last place nearest to [q], for
    [0 <= q]. *)
Definition nearest_pos (q : Q) : Q :=
  if Qeq_bool q 0 then 0
  else let s := ulp_exponent q in
       Qred (inject_Z (rneQ (q * 2 ^ (- s))) * 2 ^ s).

Definition nearest (q : Q) : Q :=
  if Qle_bool 0 q then nearest_pos q else Qred (- nearest_pos (- q)).

(** Rounding to binary64: to nearest, ties to even, overflow to an
    infinity. *)
Definition round (q : Q) : np_float :=
  let v := nearest q in
  if Qle_bool (2 ^ 1024) v then PInf
  else if Qle_bool v (- 2 ^ 1024) then NInf
  else Num v.

Definition rnd (x : np_float) : np_float :=
  match x with
  | Num q => round q
  | _ => x
  end.

Definition add (x y : np_float) : np_float := rnd (np.add x y).
Definition sub (x y : np_float) : np_float := rnd (np.sub x y).
Definition mul (x y : np_float) : np_float := rnd (np.mul x y).
Definition div (x y : np_float) : np_float := rnd (np.div x y).

End f64.

(* ===================================================================== *)
(** * scikit-learn: [metrics.roc_curve]                                *)
(* ===================================================================== *)

(** [get_best_threshold] takes its ROC curve from scikit-learn, which is
    not part of the repository.  The theorems about [get_best_threshold]
    are stated for an arbitrary [roc_curve]; the module below is the
    routine of the scikit-learn release the (Python 2) code was written
    against, [roc_curve] over [_binary_clf_curve], and serves as the
    concrete instance.  It agrees with step 1 of the specification's
    threshold selector: one candidate threshold per distinct score, in
    decreasing order, with the cumulative false and true positive counts
    at each, the label [pos_label] counting as positive. *)
Module metrics.

(** Stable ascending sort on the score ([kind="mergesort"]). *)
Fixpoint insert_by_score (x : Q * bool) (l : list (Q * bool))
    : list (Q * bool) :=
  match l with
  | [] => [x]
  | y :: l' =>
      if Qle_bool (fst x) (fst y) then x :: y :: l'
      else y :: insert_by_score x l'
  end.

Definition sort_by_score (l : list (Q * bool)) : list (Q * bool) :=
  foldr insert_by_score [] l.

(** [np.where(np.diff(y_score))[0]], counting positions from [i]. *)
Fixpoint distinct_value_indices (i : Z) (y_score : list Q) : list Z :=
  match y_score with
  | x :: ((y :: _) as rest) =>
      if Qeq_bool (y - x) 0
      then distinct_value_indices (i + 1) rest
      else i :: distinct_value_indices (i + 1) rest
  | _ => []
  end.

Definition bool_to_Z (b : bool) : Z := if b then 1 else 0.

Definition binary_clf_curve (y_true : list Z) (y_score : list Q)
    (pos_label : Z) : result (list Z * list Z * list Q) :=
  (* check_consistent_length *)
  if negb (length y_true =? length y_score)%nat then Raise ValueError else
  (* make y_true a boolean vector *)
  let y_true := map (fun y => y =? pos_label) y_true in
  (* sort scores and corresponding truth values, decreasing score *)
  let sorted := rev (sort_by_score (zip y_score y_true)) in
  let y_score := sorted.*1 in
  let y_true := sorted.*2 in
  let threshold_idxs :=
    distinct_value_indices 0 y_score ++ [Z.of_nat (length y_true) - 1] in
  (* accumulate the true positives with decreasing threshold *)
  tps ← traverse (getitem (np.cumsum (map bool_to_Z y_true))) threshold_idxs;
  let fps := zip_with (fun i t => 1 + i - t) threshold_idxs tps in
  thresholds ← traverse (getitem y_score) threshold_idxs;
  Ok (fps, tps, thresholds).

(** [fps / fps[-1]], or an array of [NaN] (behind a warning, not an
    exception) when the last count is not positive. *)
Definition rate (counts : list Z) : result (list np_float) :=
  last ← getitem counts (-1);
  if last <=? 0
  then Ok (replicate (length counts) NaN)
  else Ok (map (fun c => np.div (np.of_Z c) (np.of_Z last)) counts).

Definition roc_curve (y_true : list Z) (y_score : list Q) (pos_label : Z)
    : result (list np_float * list np_float * list np_float) :=
  '(fps, tps, thresholds) ← binary_clf_curve y_true y_score pos_label;
  (* add an extra threshold position if necessary *)
  extra ← (if (length tps =? 0)%nat then Ok true
           else f0 ← getitem fps 0; Ok (negb (f0 =? 0)));
  '(fps, tps, thresholds) ←
    (if extra : bool
     then t0 ← getitem thresholds 0;
          Ok (0 :: fps, 0 :: tps, Qred (t0 + 1) :: thresholds)
     else Ok (fps, tps, thresholds));
  fpr ← rate fps;
  tpr ← rate tps;
  Ok (fpr, tpr, map Num thresholds).

End metrics.

(** scikit-learn's [roc_curve] in float64: the scores are floats, the
    rates are quotients of two counts and the first threshold may be a
    score plus one, each rounded once. *)
Definition roc_curve64 (y_true : list Z) (y_score : list Q) (pos_label : Z)
    : result (list np_float * list np_float * list np_float) :=
  '(fpr, tpr, thresholds) ←
     metrics.roc_curve y_true (map f64.nearest y_score) pos_label;
  Ok (map f64.rnd fpr, map f64.rnd tpr, map f64.rnd thresholds).

(* ===================================================================== *)
(** * pandas: [DataFrame] and [Series]                                 *)
(* ===================================================================== *)

(** A [Series] is a column of floats (integers are embedded exactly); a
    [DataFrame] is [df_len] rows under named columns.  Rows are
    identified by their position. *)
Record DataFrame : Type := mkDataFrame {
  df_len : nat;
  df_cols : gmap string (list np_float)
}.

(** The invariant pandas maintains: every column has one cell per row. *)
Definition df_wf (df : DataFrame) : Prop :=
  ∀ c col, df_cols df !! c = Some col → length col = df_len df.

Module pd.

(** [df[c]]: a missing column is a [KeyError]. *)
Definition getitem (df : DataFrame) (c : string) : result (list np_float) :=
  match df_cols df !! c with
  | Some col => Ok col
  | None => Raise KeyError
  end.

(** [df[c] = v] for a scalar [v]: every row gets [v]. *)
Definition setitem_scalar (df : DataFrame) (c : string) (v : np_float)
    : DataFrame :=
  mkDataFrame (df_len df) (<[c := replicate (df_len df) v]> (df_cols df)).

(** [df[c] = l] for a Python list [l]: the length must be the number of
    rows ([ValueError] otherwise), except that a frame without rows takes
    its index from [l], the other columns being filled with [NaN]. *)
Definition setitem_list (df : DataFrame) (c : string) (l : list np_float)
    : result DataFrame :=
  if (length l =? df_len df)%nat
  then Ok (mkDataFrame (df_len df) (<[c := l]> (df_cols df)))
  else if (df_len df =? 0)%nat
  then Ok (mkDataFrame (length l)
             (<[c := l]> ((fun _ => replicate (length l) NaN) <$> df_cols df)))
  else Raise ValueError.

(** [df[c] = s] for a [Series] [s]: [s] is aligned on the rows of [df],
    rows that [s] lacks get [NaN] and rows only [s] has are dropped. *)
Definition setitem_series (df : DataFrame) (c : string) (s : list np_float)
    : DataFrame :=
  mkDataFrame (df_len df)
    (<[c := take (df_len df) (s ++ replicate (df_len df) NaN)]> (df_cols df)).

(** The summary [Series.describe()] returns.  [NaN] cells are skipped.
    [d_var] is the square of the reported [std] (the sample variance,
    [ddof = 1]): the square root leaves the rationals. *)
Record description : Type := mkDescription {
  d_count : nat;
  d_mean : np_float;
  d_var : np_float;
  d_min : np_float;
  d_q25 : np_float;
  d_q50 : np_float;
  d_q75 : np_float;
  d_max : np_float
}.

Definition of_nat (n : nat) : np_float := np.of_Z (Z.of_nat n).

Definition sum (s : list np_float) : np_float :=
  foldl np.add (np.of_Z 0) s.

Definition mean (s : list np_float) : np_float :=
  np.div (sum s) (of_nat (length s)).

Definition var (s : list np_float) : np_float :=
  if (length s <=? 1)%nat then NaN
  else
    let m := mean s in
    np.div (sum (map (fun x => np.mul (np.sub x m) (np.sub x m)) s))
           (of_nat (length s - 1)).

Fixpoint insert_sorted (x : np_float) (l : list np_float) : list np_float :=
  match l with
  | [] => [x]
  | y :: l' => if np.le x y then x :: y :: l' else y :: insert_sorted x l'
  end.

Definition sort_values (s : list np_float) : list np_float :=
  foldr insert_sorted [] s.

(** Quantile [p] by linear interpolation between the two nearest order
    statistics of the sorted values. *)
Definition quantile (sorted : list np_float) (p : Q) : np_float :=
  match sorted with
  | [] => NaN
  | _ =>
      let pos := (p * inject_Z (Z.of_nat (length sorted - 1)))%Q in
      let lo := Z.to_nat (Qfloor pos) in
      let frac := Qred (pos - inject_Z (Qfloor pos))%Q in
      match sorted !! lo, sorted !! S lo with
      | Some a, Some b =>
          if Qeq_bool frac 0 then a
          else np.add a (np.mul (np.sub b a) (Num frac))
      | Some a, None => a
      | None, _ => NaN
      end
  end.

Definition describe (s : list np_float) : description :=
  let s := List.filter (fun x => negb (np.isnan x)) s in
  let sorted := sort_values s in
  mkDescription (length s) (mean s) (var s)
    (default NaN (head sorted))
    (quantile sorted (1 # 4)) (quantile sorted (1 # 2))
    (quantile sorted (3 # 4))
    (default NaN (last sorted)).

End pd.

(* ===================================================================== *)
(** * Stateful code: exceptions over a state                           *)
(* ===================================================================== *)

(** A computation that reads and updates a state [S] (the standard output
    or the heap of objects) and may raise; the state reached when the
    exception is raised is kept. *)
Definition pyM (S A : Type) : Type := S → result A * S.

#[global] Instance pyM_ret {S} : MRet (pyM S) := fun A a s => (Ok a, s).

#[global] Instance pyM_bind {S} : MBind (pyM S) := fun A B f m s =>
  match m s with
  | (Ok a, s') => f a s'
  | (Raise e, s') => (Raise e, s')
  end.

Definition lift {S A} (r : result A) : pyM S A := fun s => (r, s).

(** [for x in l: acc = body(x, acc)]. *)
Fixpoint for_in {S A B} (l : list A) (acc : B) (body : A → B → pyM S B)
    : pyM S B :=
  match l with
  | [] => mret acc
  | x :: l' => acc' ← body x acc; for_in l' acc' body
  end.

(** The same loop for code that only raises. *)
Fixpoint for_in_r {A B} (l : list A) (acc : B) (body : A → B → result B)
    : result B :=
  match l with
  | [] => Ok acc
  | x :: l' => acc' ← body x acc; for_in_r l' acc' body
  end.

(** [d.keys()] and [d.values()] of a dict (in the dict's own order). *)
Definition keys {V} (d : gmap string V) : list string := (map_to_list d).*1.
Definition values {V} (d : gmap string V) : list V := (map_to_list d).*2.

(** [d.items()], in the same order. *)
Definition items {V} (d : gmap string V) : list (string * V) :=
  map_to_list d.

(** [d[k]]: a missing key is a [KeyError]. *)
Definition dict_getitem {V} (d : gmap string V) (k : string) : result V :=
  match d !! k with
  | Some v => Ok v
  | None => Raise KeyError
  end.

(** The heap of [DataFrame] objects: a Python variable holds a reference,
    and [df[c] = ...] updates the object every holder of it sees. *)
Definition loc : Type := positive.

Module heap.

Definition deref (r : loc) : pyM (gmap loc DataFrame) DataFrame :=
  fun h =>
    match h !! r with
    | Some df => (Ok df, h)
    | None => (Raise (OtherError "dangling reference"), h)
    end.

Definition store (r : loc) (df : DataFrame) : pyM (gmap loc DataFrame) unit :=
  fun h => (Ok tt, <[r := df]> h).

Definition setitem_scalar (r : loc) (c : string) (v : np_float)
    : pyM (gmap loc DataFrame) unit :=
  df ← deref r; store r (pd.setitem_scalar df c v).

Definition setitem_list (r : loc) (c : string) (l : list np_float)
    : pyM (gmap loc DataFrame) unit :=
  df ← deref r; df' ← lift (pd.setitem_list df c l); store r df'.

End heap.

(** The heap of [dict] objects, for code that updates the caller's dict:
    [d[k] = v] changes the dict every holder of the reference sees. *)
Module dicts.

Definition deref (r : loc)
    : pyM (gmap loc (gmap string DataFrame)) (gmap string DataFrame) :=
  fun h =>
    match h !! r with
    | Some d => (Ok d, h)
    | None => (Raise (OtherError "dangling reference"), h)
    end.

Definition store (r : loc) (d : gmap string DataFrame)
    : pyM (gmap loc (gmap string DataFrame)) unit :=
  fun h => (Ok tt, <[r := d]> h).

(** [d.keys()]: in Python 2 a list, taken once. *)
Definition keys (r : loc)
    : pyM (gmap loc (gmap string DataFrame)) (list string) :=
  d ← deref r; mret (keys d).

(** [d[k]]. *)
Definition getitem (r : loc) (k : string)
    : pyM (gmap loc (gmap string DataFrame)) DataFrame :=
  d ← deref r; lift (dict_getitem d k).

(** [d[k] = v]. *)
Definition setitem (r : loc) (k : string) (v : DataFrame)
    : pyM (gmap loc (gmap string DataFrame)) unit :=
  d ← deref r; store r (<[k := v]> d).

End dicts.

(* ===================================================================== *)
(** * The collaborators of [experiment_utils]                          *)
(* ===================================================================== *)

(** The functions of [contour_classification.contour_utils] (imported as
    [cc]) that the claims leave abstract: the two loaders, the overlap
    computation and the projection to a feature matrix [X] (with the
    label vector, when the frame has one). *)
Record contour_utils (X : Type) : Type := mk_contour_utils {
  load_contour_data : string → bool → result DataFrame;
  load_annotation : string → result DataFrame;
  compute_overlap : DataFrame → DataFrame → result DataFrame;
  pd_to_sklearn : DataFrame → result (X * option (list np_float))
}.

Arguments load_contour_data {X} _ _ _.
Arguments load_annotation {X} _ _.
Arguments compute_overlap {X} _ _ _.
Arguments pd_to_sklearn {X} _ _.

(** A fitted scikit-learn classifier: [predict_proba] gives one row of
    per-class probabilities for each row of the feature matrix. *)
Record classifier (X : Type) : Type := mk_classifier {
  predict_proba : X → result (list (list np_float))
}.

Arguments predict_proba {X} _ _.

(** Modelled from the spec: [cc.label_contours], absent from the sources.
    Section 4.2: "sets label = 1 if overlap > overlapThreshold else 0
    (... specify it as: strictly-greater-than)". *)
Definition label_contours (contour_data : DataFrame) (olap_thresh : Q)
    : result DataFrame :=
  overlap ← pd.getitem contour_data "overlap";
  Ok (pd.setitem_series contour_data "label"
        (map (fun o => if np.gt o (Num olap_thresh)
                       then np.of_Z 1 else np.of_Z 0) overlap)).

(** Modelled from the spec: [cc.join_contours], absent from the sources.
    Section 4.5: "Concatenates every record's overlap value across all
    tracks in the map". *)
Definition join_contours (contours_list : list (list np_float))
    : list np_float :=
  concat contours_list.

(* ===================================================================== *)
(** * [experiment_utils.py]                                            *)
(* ===================================================================== *)

(** The order of the tuples [(k, v)] of two strings: the first components
    decide unless they are equal.  Strings compare character by
    character, a proper prefix coming first. *)
Definition item_leb (x y : string * string) : bool :=
  if String.eqb x.1 y.1 then String.leb x.2 y.2 else String.ltb x.1 y.1.

Definition item_le (x y : string * string) : Prop := item_leb x y = true.

#[global] Instance item_le_dec : RelDecision item_le.
Proof. intros x y. unfold item_le. apply _. Defined.

(** [sorted(l)] on such tuples. *)
Definition sorted (l : list (string * string)) : list (string * string) :=
  merge_sort item_le l.

(** Lines 15-38.  [json_load path] is [json.load(open(path))] on a file
    holding an object of strings; [ShuffleLabelsOut] is the constructor
    of the splitter class, called with [random_state=1].  [np.asarray]
    leaves a list of strings as it is.  The default of [test_size] is
    0.15. *)
Definition create_splits {Sp}
    (json_load : string → result (gmap string string))
    (ShuffleLabelsOut : list string → Z → Q → result Sp) (test_size : Q)
    : result (list string * Sp) :=
  index ← json_load "medley_artist_index.json";
  let mdb_files : list string := [] in
  let keys : list string := [] in
  '(mdb_files, keys) ←
    for_in_r (sorted (items index)) (mdb_files, keys)
      (fun '(k, v) '(mdb_files, keys) =>
         Ok (mdb_files ++ [k], keys ++ [v]));
  splitter ← ShuffleLabelsOut keys 1 test_size;
  Ok (mdb_files, splitter).

Definition nl : string := String (ascii_of_nat 10) EmptyString.

(** [s * n] on strings; a negative count gives the empty string. *)
Definition str_repeat (s : string) (n : Z) : string :=
  Nat.iter (Z.to_nat n) (String.append s) EmptyString.

(** [str(n)] for an [int]. *)
Definition str_of_int (n : Z) : string := NilZero.string_of_int (Z.to_int n).

Definition len_str (s : string) : Z := Z.of_nat (String.length s).

Definition endswith_slash (s : string) : bool :=
  match String.get (String.length s - 1) s with
  | Some c => Ascii.eqb c "/"
  | None => false
  end.

(** [os.path.join(a, *p)] (posixpath). *)
Definition path_join (a : string) (p : list string) : string :=
  foldl (fun path b =>
           if String.prefix "/" b then b
           else if String.eqb path "" || endswith_slash path
                then String.append path b
                else String.append path (String.append "/" b))
        a p.

(** Lines 41-74. *)
Definition get_data_files {X} (cc : contour_utils X)
    (environ : gmap string string) (track : string) (meltype : Z)
    : result (DataFrame * DataFrame) :=
  let contour_suffix :=
    "MIX_vamp_melodia-contours_melodia-contours_contoursall.csv"%string in
  let contours_path := "melodia_contours"%string in
  let annot_suffix :=
    String.append "MELODY" (String.append (str_of_int meltype) ".csv") in
  let mel_dir := String.append "MELODY" (str_of_int meltype) in
  medleydb_path ← dict_getitem environ "MEDLEYDB_PATH";
  let annot_path :=
    path_join medleydb_path ["Annotations"; "Melody_Annotations"; mel_dir]
  in
  let contour_fname :=
    String.append track (String.append "_" contour_suffix) in
  let contour_fpath := path_join contours_path [contour_fname] in
  let annot_fname := String.append track (String.append "_" annot_suffix) in
  let annot_fpath := path_join annot_path [annot_fname] in
  cdat ← load_contour_data cc contour_fpath true;
  adat ← load_annotation cc annot_fpath;
  Ok (cdat, adat).

Definition print (s : string) : pyM string unit :=
  fun out => (Ok tt, String.append out (String.append s nl)).

Definition stdout_write (s : string) : pyM string unit :=
  fun out => (Ok tt, String.append out s).

(** Lines 77-148.  The state is the text written to the standard output.
    [adat.copy()] is [adat] itself: values are immutable here, so the
    copy taken before [compute_overlap] runs needs no separate object. *)
Definition compute_all_overlaps {X} (cc : contour_utils X)
    (environ : gmap string string)
    (train_tracks valid_tracks test_tracks : list string) (meltype : Z)
    : pyM string
        (gmap string DataFrame * gmap string DataFrame *
         gmap string DataFrame * gmap string DataFrame *
         gmap string DataFrame) :=
  let train_contour_dict : gmap string DataFrame := ∅ in
  let msg := "Generating training features..."%string in
  let train_len := Z.of_nat (length train_tracks) in
  let num_spaces := train_len - len_str msg in
  print (String.append msg (String.append (str_repeat " " num_spaces) "|"));;
  train_contour_dict ←
    for_in train_tracks train_contour_dict (fun track train_contour_dict =>
      '(cdat, adat) ← lift (get_data_files cc environ track meltype);
      olap ← lift (compute_overlap cc cdat adat);
      stdout_write ".";;
      mret (<[track := olap]> train_contour_dict));
  print "";;
  print (str_repeat "-" 30);;
  let valid_contour_dict : gmap string DataFrame := ∅ in
  let valid_annot_dict : gmap string DataFrame := ∅ in
  let msg := "Generating validation features..."%string in
  let valid_len := Z.of_nat (length valid_tracks) in
  let num_spaces := valid_len - len_str msg in
  print (String.append msg (String.append (str_repeat " " num_spaces) "|"));;
  '(valid_contour_dict, valid_annot_dict) ←
    for_in valid_tracks (valid_contour_dict, valid_annot_dict)
      (fun track '(valid_contour_dict, valid_annot_dict) =>
        '(cdat, adat) ← lift (get_data_files cc environ track meltype);
        let valid_annot_dict := <[track := adat]> valid_annot_dict in
        olap ← lift (compute_overlap cc cdat adat);
        stdout_write ".";;
        mret (<[track := olap]> valid_contour_dict, valid_annot_dict));
  print "";;
  print (str_repeat "-" 30);;
  let test_contour_dict : gmap string DataFrame := ∅ in
  let test_annot_dict : gmap string DataFrame := ∅ in
  let msg := "Generating testing features..."%string in
  let test_len := Z.of_nat (length test_tracks) in
  let num_spaces := test_len - len_str msg in
  print (String.append msg (String.append (str_repeat " " num_spaces) "|"));;
  '(test_contour_dict, test_annot_dict) ←
    for_in test_tracks (test_contour_dict, test_annot_dict)
      (fun track '(test_contour_dict, test_annot_dict) =>
        '(cdat, adat) ← lift (get_data_files cc environ track meltype);
        let test_annot_dict := <[track := adat]> test_annot_dict in
        olap ← lift (compute_overlap cc cdat adat);
        stdout_write ".";;
        mret (<[track := olap]> test_contour_dict, test_annot_dict));
  mret (train_contour_dict, valid_contour_dict, valid_annot_dict,
        test_contour_dict, test_annot_dict).

(** Lines 151-177.  The pair is returned as the code returns it: the
    strictly positive subset first, the zero subset second. *)
Definition olap_stats (train_contour_dict : gmap string DataFrame)
    : result (pd.description * pd.description) :=
  (* reduce for speed and memory *)
  red_list ←
    for_in_r (values train_contour_dict) [] (fun cdat red_list =>
      overlap ← pd.getitem cdat "overlap";
      Ok (red_list ++ [overlap]));
  let overlap_dat := join_contours red_list in
  let non_zero_olap :=
    List.filter (fun x => np.gt x (np.of_Z 0)) overlap_dat in
  let zero_olap := List.filter (fun x => np.eq x (np.of_Z 0)) overlap_dat in
  let partial_olap_stats := pd.describe non_zero_olap in
  let zero_olap_stats := pd.describe zero_olap in
  Ok (partial_olap_stats, zero_olap_stats).

(** Lines 151-177 again, over [cc.join_contours], which may raise. *)
Definition olap_stats_with
    (join_contours : list (list np_float) → result (list np_float))
    (train_contour_dict : gmap string DataFrame)
    : result (pd.description * pd.description) :=
  (* reduce for speed and memory *)
  red_list ←
    for_in_r (values train_contour_dict) [] (fun cdat red_list =>
      overlap ← pd.getitem cdat "overlap";
      Ok (red_list ++ [overlap]));
  overlap_dat ← join_contours red_list;
  let non_zero_olap :=
    List.filter (fun x => np.gt x (np.of_Z 0)) overlap_dat in
  let zero_olap := List.filter (fun x => np.eq x (np.of_Z 0)) overlap_dat in
  let partial_olap_stats := pd.describe non_zero_olap in
  let zero_olap_stats := pd.describe zero_olap in
  Ok (partial_olap_stats, zero_olap_stats).

(** One of the three loops of [label_all_contours]:
    [for key in d.keys(): d[key] = cc.label_contours(d[key], olap_thresh)]. *)
Definition label_loop (contour_dict : gmap string DataFrame)
    (olap_thresh : Q) : result (gmap string DataFrame) :=
  for_in_r (keys contour_dict) contour_dict (fun key contour_dict =>
    df ← dict_getitem contour_dict key;
    labelled ← label_contours df olap_thresh;
    Ok (<[key := labelled]> contour_dict)).

(** Lines 180-213. *)
Definition label_all_contours
    (train_contour_dict valid_contour_dict test_contour_dict
       : gmap string DataFrame)
    (olap_thresh : Q)
    : result (gmap string DataFrame * gmap string DataFrame *
              gmap string DataFrame) :=
  train_contour_dict ← label_loop train_contour_dict olap_thresh;
  valid_contour_dict ← label_loop valid_contour_dict olap_thresh;
  test_contour_dict ← label_loop test_contour_dict olap_thresh;
  Ok (train_contour_dict, valid_contour_dict, test_contour_dict).

(** Lines 202-204 (and 206-208, 210-212) on the caller's dict, for any
    [cc.label_contours]. *)
Definition label_loop_in_place
    (label_contours : DataFrame → Q → result DataFrame)
    (contour_dict : loc) (olap_thresh : Q)
    : pyM (gmap loc (gmap string DataFrame)) unit :=
  ks ← dicts.keys contour_dict;
  for_in ks tt (fun key _ =>
    df ← dicts.getitem contour_dict key;
    labelled ← lift (label_contours df olap_thresh);
    dicts.setitem contour_dict key labelled).

(** Lines 180-213 on the caller's dicts, for any [cc.label_contours]:
    the three dicts are updated in place and the references passed in
    are returned. *)
Definition label_all_contours_in_place
    (label_contours : DataFrame → Q → result DataFrame)
    (train_contour_dict valid_contour_dict test_contour_dict : loc)
    (olap_thresh : Q)
    : pyM (gmap loc (gmap string DataFrame)) (loc * loc * loc) :=
  label_loop_in_place label_contours train_contour_dict olap_thresh;;
  label_loop_in_place label_contours valid_contour_dict olap_thresh;;
  label_loop_in_place label_contours test_contour_dict olap_thresh;;
  mret (train_contour_dict, valid_contour_dict, test_contour_dict).

(** Lines 216-236.  [contour_data] is a reference: both assignments to
    ['mel prob'] update the caller's frame, and the reference itself is
    what is returned. *)
Definition contour_probs {X} (cc : contour_utils X) (clf : classifier X)
    (contour_data : loc) : pyM (gmap loc DataFrame) loc :=
  heap.setitem_scalar contour_data "mel prob" (np.of_Z (-1));;
  df ← heap.deref contour_data;
  '(X_, _) ← lift (pd_to_sklearn cc df);
  probs ← lift (predict_proba clf X_);
  mel_probs ← lift (traverse (fun p => getitem p 1) probs);
  heap.setitem_list contour_data "mel prob" mel_probs;;
  mret contour_data.

(** The matplotlib calls of the [plot] branch, kept as a log. *)
Inductive plt_call : Type :=
  | plt_plot (xs ys : list np_float) (fmt : string) (label : option string)
  | plt_xlim (lo hi : np_float)
  | plt_ylim (lo hi : np_float)
  | plt_xlabel (s : string)
  | plt_ylabel (s : string)
  | plt_title (s : string)
  | plt_legend (loc : string)
  | plt_show.

(** The signature of [metrics.roc_curve(y_true, y_score, pos_label)]. *)
Definition roc_curve_fn : Type :=
  list Z → list Q → Z →
  result (list np_float * list np_float * list np_float).

(** Lines 243-246: [P = 1 - fpr], [R = tpr],
    [f_scores = 2*(P*R)/(P+R)], elementwise, in exact arithmetic
    ([f_scores_of64] below rounds every operation). *)
Definition f_scores_of (fpr tpr : list np_float)
    : result (list np_float) :=
  let P := map (np.sub (np.of_Z 1)) fpr in
  let R := tpr in
  PR ← np.broadcast np.mul P R;
  PplusR ← np.broadcast np.add P R;
  np.broadcast np.div (map (np.mul (np.of_Z 2)) PR) PplusR.

(** Lines 239-262, over the ROC routine it calls.  The result is the
    returned pair [(best_threshold, max_fscore)] together with the figure
    drawn (nothing when [plot] is false). *)
Definition get_best_threshold (roc_curve : roc_curve_fn)
    (Y_ref : list Z) (Y_pred_score : list Q) (plot : bool)
    : result (np_float * np_float * list plt_call) :=
  '(fpr, tpr, thresholds) ← roc_curve Y_ref Y_pred_score 1;
  f_scores ← f_scores_of fpr tpr;
  i ← np.argmax f_scores;
  max_fscore ← getitem f_scores i;
  i' ← np.argmax f_scores;
  best_threshold ← getitem thresholds i';
  let figure :=
    if plot then
      [ plt_plot fpr tpr "b" (Some "ROC curve");
        plt_plot [np.of_Z 0; np.of_Z 1] [np.of_Z 0; np.of_Z 1] "k--" None;
        plt_xlim (np.of_Z 0) (np.of_Z 1);
        plt_ylim (np.of_Z 0) (np.of_Z 1);
        plt_xlabel "False Positive Rate";
        plt_ylabel "True Positive Rate";
        plt_title "Melodiness Receiver operating characteristic";
        plt_legend "lower right";
        plt_show ]
    else [] in
  Ok (best_threshold, max_fscore, figure).

(** Lines 243-246 in float64: [P = 1 - fpr], [R = tpr],
    [f_scores = 2*(P*R)/(P+R)], every operation rounded. *)
Definition f_scores_of64 (fpr tpr : list np_float)
    : result (list np_float) :=
  let P := map (f64.sub (np.of_Z 1)) fpr in
  let R := tpr in
  PR ← np.broadcast f64.mul P R;
  PplusR ← np.broadcast f64.add P R;
  np.broadcast f64.div (map (f64.mul (np.of_Z 2)) PR) PplusR.

(** Lines 239-262 in float64. *)
Definition get_best_threshold64 (roc_curve : roc_curve_fn)
    (Y_ref : list Z) (Y_pred_score : list Q) (plot : bool)
    : result (np_float * np_float * list plt_call) :=
  '(fpr, tpr, thresholds) ← roc_curve Y_ref Y_pred_score 1;
  f_scores ← f_scores_of64 fpr tpr;
  i ← np.argmax f_scores;
  max_fscore ← getitem f_scores i;
  i' ← np.argmax f_scores;
  best_threshold ← getitem thresholds i';
  let figure :=
    if plot then
      [ plt_plot fpr tpr "b" (Some "ROC curve");
        plt_plot [np.of_Z 0; np.of_Z 1] [np.of_Z 0; np.of_Z 1] "k--" None;
        plt_xlim (np.of_Z 0) (np.of_Z 1);
        plt_ylim (np.of_Z 0) (np.of_Z 1);
        plt_xlabel "False Positive Rate";
        plt_ylabel "True Positive Rate";
        plt_title "Melodiness Receiver operating characteristic";
        plt_legend "lower right";
        plt_show ]
    else [] in
  Ok (best_threshold, max_fscore, figure).

(* ===================================================================== *)
(** * The vocabulary of the properties                                 *)
(* ===================================================================== *)

(** ** [contour_probs] *)

(** A probability: a finite float between 0 and 1. *)
Definition is_probability (x : np_float) : Prop :=
  match x with
  | Num q => (0 <= q)%Q ∧ (q <= 1)%Q
  | _ => False
  end.

(** The frame after line 231, [contour_data['mel prob'] = -1]. *)
Definition mel_prob_reset (df : DataFrame) : DataFrame :=
  pd.setitem_scalar df "mel prob" (np.of_Z (-1)).

(** ** [label_all_contours] *)

(** The body of the labelling loops, for any per-frame function [f]. *)
Definition update_body (f : DataFrame → result DataFrame)
    (key : string) (d : gmap string DataFrame)
    : result (gmap string DataFrame) :=
  df ← dict_getitem d key;
  df' ← f df;
  Ok (<[key := df']> d).

(** The spec's comparison, [overlap > threshold], on the values a cell
    can hold: a [NaN] overlap exceeds nothing. *)
Definition exceeds (o : np_float) (th : Q) : Prop :=
  match o with
  | Num q => (th < q)%Q
  | PInf => True
  | NInf | NaN => False
  end.

(** [df'] is [df] with the label column the spec asks for: same records,
    same overlaps, and in each row the label is 1 exactly when the
    overlap exceeds the threshold, 0 otherwise. *)
Definition labelled (df : DataFrame) (th : Q) (df' : DataFrame) : Prop :=
  df_len df' = df_len df
  ∧ (∀ c, c ≠ "label"%string → df_cols df' !! c = df_cols df !! c)
  ∧ ∃ overlap label,
      df_cols df !! "overlap"%string = Some overlap
      ∧ df_cols df' !! "label"%string = Some label
      ∧ length label = length overlap
      ∧ ∀ i o, overlap !! i = Some o →
          ∃ l, label !! i = Some l
               ∧ (l = Num 1 ∨ l = Num 0)
               ∧ (l = Num 1 ↔ exceeds o th).

Definition labelled_split (d : gmap string DataFrame) (th : Q)
    (d' : gmap string DataFrame) : Prop :=
  ∀ k, match d !! k with
       | Some df => ∃ df', d' !! k = Some df' ∧ labelled df th df'
       | None => d' !! k = None
       end.

(** Every frame of the split is a well-formed frame with an overlap. *)
Definition has_overlaps (d : gmap string DataFrame) : Prop :=
  ∀ k df, d !! k = Some df →
    df_wf df ∧ is_Some (df_cols df !! "overlap"%string).

(** ** [olap_stats] *)

(** The overlap column of a frame, as [cdat['overlap']] reads it. *)
Definition overlap_column (df : DataFrame) : list np_float :=
  default [] (df_cols df !! "overlap"%string).

(** The overlap values of all the tracks of a map, joined. *)
Definition all_overlaps (d : gmap string DataFrame) : list np_float :=
  concat (overlap_column <$> values d).

(** The number of records in a map. *)
Definition record_count (d : gmap string DataFrame) : nat :=
  sum_list_with df_len (values d).

(** An overlap as the data model has it: a number in [0,1]. *)
Definition is_overlap (x : np_float) : Prop :=
  match x with
  | Num q => (0 <= q)%Q ∧ (q <= 1)%Q
  | _ => False
  end.

Definition overlaps_in_range (d : gmap string DataFrame) : Prop :=
  ∀ k df, d !! k = Some df →
    df_wf df
    ∧ ∃ col, df_cols df !! "overlap"%string = Some col
             ∧ Forall is_overlap col.

(** ** [compute_all_overlaps] *)

Section overlaps.

Context {X : Type} (cc : contour_utils X) (environ : gmap string string)
  (meltype : Z).

(** What the body of each loop stores for a track: the overlap-augmented
    contour frame, and (validation and test) the raw annotation. *)
Definition overlap_frame (track : string) : result DataFrame :=
  '(cdat, adat) ← get_data_files cc environ track meltype;
  compute_overlap cc cdat adat.

Definition raw_annotation (track : string) : result DataFrame :=
  snd <$> get_data_files cc environ track meltype.

(** A dict holding one entry per track of the list, keyed by track id:
    the contour frame with its overlaps, resp. the annotation. *)
Definition contour_map_of (tracks : list string)
    (d : gmap string DataFrame) : Prop :=
  dom d = list_to_set tracks
  ∧ ∀ track, track ∈ tracks →
      ∃ olap, d !! track = Some olap ∧ overlap_frame track = Ok olap.

Definition annotation_map_of (tracks : list string)
    (d : gmap string DataFrame) : Prop :=
  dom d = list_to_set tracks
  ∧ ∀ track, track ∈ tracks →
      ∃ adat, d !! track = Some adat ∧ raw_annotation track = Ok adat.

(** Every file of the track loads and its overlap computes. *)
Definition track_ok (track : string) : Prop :=
  ∃ olap, overlap_frame track = Ok olap.

Definition train_body (track : string) (d : gmap string DataFrame)
    : pyM string (gmap string DataFrame) :=
  '(cdat, adat) ← lift (get_data_files cc environ track meltype);
  olap ← lift (compute_overlap cc cdat adat);
  stdout_write ".";;
  mret (<[track := olap]> d).

Definition eval_body (track : string)
    (acc : gmap string DataFrame * gmap string DataFrame)
    : pyM string (gmap string DataFrame * gmap string DataFrame) :=
  let '(contour_dict, annot_dict) := acc in
  '(cdat, adat) ← lift (get_data_files cc environ track meltype);
  let annot_dict := <[track := adat]> annot_dict in
  olap ← lift (compute_overlap cc cdat adat);
  stdout_write ".";;
  mret (<[track := olap]> contour_dict, annot_dict).

End overlaps.

(** The five dicts are what the specification says of them. *)
Definition split_maps {X} (cc : contour_utils X)
    (environ : gmap string string) (meltype : Z)
    (train_tracks valid_tracks test_tracks : list string)
    (train_contour_dict valid_contour_dict valid_annot_dict
       test_contour_dict test_annot_dict : gmap string DataFrame) : Prop :=
  contour_map_of cc environ meltype train_tracks train_contour_dict
  ∧ contour_map_of cc environ meltype valid_tracks valid_contour_dict
  ∧ annotation_map_of cc environ meltype valid_tracks valid_annot_dict
  ∧ contour_map_of cc environ meltype test_tracks test_contour_dict
  ∧ annotation_map_of cc environ meltype test_tracks test_annot_dict
  ∧ (∀ track, track ∈ train_tracks →
       (track ∉ valid_tracks → valid_annot_dict !! track = None)
       ∧ (track ∉ test_tracks → test_annot_dict !! track = None)).

(** ** [np.argmax] and [get_best_threshold] *)

(** [k] is the position of the maximum of the numbers in [a], the first
    one when the maximum occurs several times: the cell is a number, no
    number of [a] is greater, and every number before it is smaller. *)
Definition first_max (a : list np_float) (k : nat) : Prop :=
  ∃ m, a !! k = Some m
       ∧ np.isnan m = false
       ∧ (∀ j x, a !! j = Some x → np.isnan x = false → np.le x m = true)
       ∧ (∀ j x, (j < k)%nat → a !! j = Some x → np.isnan x = false →
                 np.lt x m = true).

(** [k] is the position of the first [NaN] of [a]. *)
Definition first_nan (a : list np_float) (k : nat) : Prop :=
  a !! k = Some NaN
  ∧ ∀ j x, (j < k)%nat → a !! j = Some x → np.isnan x = false.

Definition nan_free (a : list np_float) : Prop :=
  Forall (fun x => np.isnan x = false) a.

(** The F value of one curve point: [P = 1 - fpr], [R = tpr],
    [F = 2*(P*R)/(P+R)]. *)
Definition f_score (fpr tpr : np_float) : np_float :=
  np.div (np.mul (np.of_Z 2) (np.mul (np.sub (np.of_Z 1) fpr) tpr))
         (np.add (np.sub (np.of_Z 1) fpr) tpr).

(** The F array of a curve. *)
Definition f_score_curve (fpr tpr : list np_float) : list np_float :=
  zip_with f_score fpr tpr.

(** The shape a ROC routine gives its three arrays: one false positive
    rate, one true positive rate and one threshold for each of at least
    one curve point. *)
Definition curve_shape (fpr tpr thresholds : list np_float) : Prop :=
  length fpr = length tpr ∧ length thresholds = length fpr ∧ fpr ≠ [].

(** A valid input of the threshold selector: binary reference labels
    with both classes present, one score per label. *)
Definition valid_input (Y_ref : list Z) (Y_pred_score : list Q) : Prop :=
  length Y_ref = length Y_pred_score
  ∧ Forall (fun y => y = 0 ∨ y = 1) Y_ref
  ∧ 0 ∈ Y_ref ∧ 1 ∈ Y_ref.

(** The F value of one curve point in float64. *)
Definition f_score64 (fpr tpr : np_float) : np_float :=
  f64.div
    (f64.mul (np.of_Z 2) (f64.mul (f64.sub (np.of_Z 1) fpr) tpr))
    (f64.add (f64.sub (np.of_Z 1) fpr) tpr).

(** The F array of a curve in float64. *)
Definition f_score_curve64 (fpr tpr : list np_float) : list np_float :=
  zip_with f_score64 fpr tpr.

(** [P + R] is zero at a curve point, as float64 computes it. *)
Definition zero_sum64 (fpr tpr : np_float) : Prop :=
  np.eq (f64.add (f64.sub (np.of_Z 1) fpr) tpr) (np.of_Z 0) = true.

(** The claim of the specification read on a run in float64: the pair
    returned is the threshold and the F value at the first maximum of
    the F array. *)
Definition returns_first_max64 (roc_curve : roc_curve_fn)
    (Y_ref : list Z) (Y_pred_score : list Q) : Prop :=
  ∃ fpr tpr thresholds k t f fig,
    roc_curve Y_ref Y_pred_score 1 = Ok (fpr, tpr, thresholds)
    ∧ get_best_threshold64 roc_curve Y_ref Y_pred_score false
      = Ok (t, f, fig)
    ∧ thresholds !! k = Some t
    ∧ f_score_curve64 fpr tpr !! k = Some f
    ∧ first_max (f_score_curve64 fpr tpr) k.


(** A call ends in an exception. *)
Definition raises {A} (r : result A) : Prop := ∃ e, r = Raise e.

(** The division of the F array is guarded: no cell is a [NaN]. *)
Definition division_guarded (fpr tpr : list np_float) : Prop :=
  ∃ F, f_scores_of fpr tpr = Ok F ∧ nan_free F.

(** ** scikit-learn's curve *)

(** The score-sorted (score, is-positive) pairs and the positions of the
    candidate thresholds, as [_binary_clf_curve] computes them. *)
Definition sorted_pairs (y_true : list Z) (y_score : list Q)
    (pos_label : Z) : list (Q * bool) :=
  rev (metrics.sort_by_score
         (zip y_score (map (fun y => y =? pos_label) y_true))).

Definition threshold_idxs (y_true : list Z) (y_score : list Q)
    (pos_label : Z) : list Z :=
  metrics.distinct_value_indices 0 (sorted_pairs y_true y_score pos_label).*1
  ++ [Z.of_nat (length (sorted_pairs y_true y_score pos_label).*2) - 1].

Definition is_bit (b : Z) : Prop := b = 0 ∨ b = 1.

(** A rate array in curve order: of two cells, the later one is not
    smaller (or the array is the all-[NaN] array of a missing class). *)
Definition rates_increasing (r : list np_float) : Prop :=
  ∀ j j' a b, (j <= j')%nat → r !! j = Some a → r !! j' = Some b →
    np.le a b = true ∨ (a = NaN ∧ b = NaN).

(** ** [get_data_files] *)

(** The two files of a track, as the naming convention has them. *)
Definition contour_file (track : string) : string :=
  String.append "melodia_contours/"
    (String.append track
       "_MIX_vamp_melodia-contours_melodia-contours_contoursall.csv").

Definition annotation_file (base track : string) (meltype : Z) : string :=
  String.append base
    (String.append "/Annotations/Melody_Annotations/MELODY"
       (String.append (str_of_int meltype)
          (String.append "/"
             (String.append track
                (String.append "_MELODY"
                   (String.append (str_of_int meltype) ".csv")))))).

(** ** The text [compute_all_overlaps] prints, and its failures *)

(** One dot per track processed. *)
Definition dots (n : nat) : string := str_repeat "." (Z.of_nat n).

(** The header of a phase over [n] tracks: the message, padded with
    spaces up to column [n], and a bar. *)
Definition header (msg : string) (n : nat) : string :=
  String.append msg
    (String.append (str_repeat " " (Z.of_nat n - len_str msg)) "|").

(** The header, a line of its own, and the dots written under it. *)
Definition progress_line (msg : string) (n : nat) : string :=
  String.append (header msg n) (String.append nl (dots n)).

(** [print ""] and [print "-"*30]: the end of the dotted line, then a rule. *)
Definition separator : string :=
  String.append nl (String.append (str_repeat "-" 30) nl).

Definition progress_text (train_len valid_len test_len : nat) : string :=
  String.append (progress_line "Generating training features..." train_len)
    (String.append separator
       (String.append
          (progress_line "Generating validation features..." valid_len)
          (String.append separator
             (progress_line "Generating testing features..." test_len)))).

(** The exception of the first track of the list that fails to load or
    to have its overlap computed, if any. *)
Fixpoint first_error {X} (cc : contour_utils X)
    (environ : gmap string string) (meltype : Z) (tracks : list string)
    : option exn :=
  match tracks with
  | [] => None
  | track :: tracks' =>
      match overlap_frame cc environ meltype track with
      | Raise e => Some e
      | Ok _ => first_error cc environ meltype tracks'
      end
  end.

(** ** [label_all_contours] on the caller's dicts *)

(** [d'] has the keys of [d], each frame replaced by its labelling. *)
Definition relabelled (f : DataFrame → Q → result DataFrame) (th : Q)
    (d d' : gmap string DataFrame) : Prop :=
  ∀ k, match d !! k with
       | Some df => ∃ df', f df th = Ok df' ∧ d' !! k = Some df'
       | None => d' !! k = None
       end.

(** [d'] has the keys of [d], each frame either as it was or replaced by
    its labelling. *)
Definition partly_relabelled (f : DataFrame → Q → result DataFrame) (th : Q)
    (d d' : gmap string DataFrame) : Prop :=
  ∀ k, match d !! k with
       | Some df => d' !! k = Some df
                    ∨ ∃ df', f df th = Ok df' ∧ d' !! k = Some df'
       | None => d' !! k = None
       end.

(** Some frame of the dict cannot be labelled. *)
Definition label_fails (f : DataFrame → Q → result DataFrame) (th : Q)
    (d : gmap string DataFrame) (e : exn) : Prop :=
  ∃ k df, d !! k = Some df ∧ f df th = Raise e.

Definition label_ok (f : DataFrame → Q → result DataFrame) (th : Q)
    (d : gmap string DataFrame) : Prop :=
  ∀ k df, d !! k = Some df → ∃ df', f df th = Ok df'.

(** The body of the loop on the dict at [r]. *)
Definition in_place_body (f : DataFrame → Q → result DataFrame) (th : Q)
    (r : loc) (key : string) (_ : unit)
    : pyM (gmap loc (gmap string DataFrame)) unit :=
  df ← dicts.getitem r key;
  labelled ← lift (f df th);
  dicts.setitem r key labelled.

(** ** [olap_stats]: what is counted *)

(** A frame of the dict has no ['overlap'] column. *)
Definition lacks_overlap (d : gmap string DataFrame) : Prop :=
  ∃ k df, d !! k = Some df ∧ df_cols df !! "overlap"%string = None.

(** An overlap value that enters one of the two summaries: a number that
    is not negative, or [+inf]. *)
Definition counted (x : np_float) : bool := np.le (np.of_Z 0) x.

(** ** [contour_probs] after line 231 *)

(** Two frames that differ at most in their ['mel prob'] column. *)
Definition same_but_mel_prob (df1 df2 : DataFrame) : Prop :=
  df_len df2 = df_len df1
  ∧ ∀ c, c ≠ "mel prob"%string → df_cols df2 !! c = df_cols df1 !! c.

(** What [contour_probs] does after line 231, on the heap that line
    leaves. *)
Definition contour_probs_rest {X} (cc : contour_utils X)
    (clf : classifier X) (contour_data : loc)
    : pyM (gmap loc DataFrame) loc :=
  df ← heap.deref contour_data;
  '(X_, _) ← lift (pd_to_sklearn cc df);
  probs ← lift (predict_proba clf X_);
  mel_probs ← lift (traverse (fun p => getitem p 1) probs);
  heap.setitem_list contour_data "mel prob" mel_probs;;
  mret contour_data.

(* ===================================================================== *)
(** * Concrete inputs                                                  *)
(* ===================================================================== *)

(** A small frame, an annotation, the collaborators and two classifiers
    to run the model on. *)
Definition ex_frame : DataFrame :=
  mkDataFrame 2 {[ "overlap"%string := [Num (6 # 10); Num 0];
                   "salience"%string := [Num (1 # 3); Num (2 # 3)] ]}.

Definition ex_annotation : DataFrame :=
  mkDataFrame 2 {[ "time"%string := [Num 0; Num (1 # 100)];
                   "f0"%string := [Num 440; Num 441] ]}.

Definition ex_environ : gmap string string :=
  {[ "MEDLEYDB_PATH"%string := "/data/medleydb"%string ]}.

(** Loaders that find a file only where [get_data_files] has to look
    for it (melody type 1). *)
Definition ex_cc : contour_utils (list (list np_float)) :=
  mk_contour_utils _
    (fun path normalize =>
       if String.prefix "melodia_contours/" path && normalize
       then Ok ex_frame else Raise IOError)
    (fun path =>
       if String.prefix
            "/data/medleydb/Annotations/Melody_Annotations/MELODY1/" path
       then Ok ex_annotation else Raise IOError)
    (fun cdat _ => Ok cdat)
    (fun df =>
       match df_cols df !! "salience"%string with
       | Some col => Ok (map (fun x => [x]) col, None)
       | None => Raise KeyError
       end).

Definition ex_clf : classifier (list (list np_float)) :=
  mk_classifier _
    (fun X_ => Ok (map (fun _ => [Num (1 # 4); Num (3 # 4)]) X_)).


(** The scenario of the specification: track [t1] with three contour
    candidates, track [t2] with two. *)
Definition ex_t1 : DataFrame :=
  mkDataFrame 3 {[ "overlap"%string := [Num 0; Num (6 # 10); Num (9 # 10)] ]}.

Definition ex_t2 : DataFrame :=
  mkDataFrame 2 {[ "overlap"%string := [Num 0; Num (2 # 10)] ]}.

Definition ex_train : gmap string DataFrame :=
  {[ "t1"%string := ex_t1; "t2"%string := ex_t2 ]}.

(** The splits of the scenario after one labelling at threshold 1/2. *)
Definition ex_train_labelled : gmap string DataFrame :=
  {[ "t1"%string :=
       mkDataFrame 3
         {[ "overlap"%string := [Num 0; Num (6 # 10); Num (9 # 10)];
            "label"%string := [Num 0; Num 1; Num 1] ]};
     "t2"%string :=
       mkDataFrame 2
         {[ "overlap"%string := [Num 0; Num (2 # 10)];
            "label"%string := [Num 0; Num 0] ]} ]}.

(** Two inputs: the scenario of the specification, and a classifier that
    scores its one negative above its one positive. *)
Definition ex_Y_ref : list Z := [0; 0; 1; 1].
Definition ex_Y_pred_score : list Q := [1 # 10; 4 # 10; 35 # 100; 8 # 10]%Q.

Definition bad_Y_ref : list Z := [0; 1].
Definition bad_Y_pred_score : list Q := [9 # 10; 1 # 10]%Q.

(** Nine contours on which two curve points have the same exact F
    value, 2/3. *)
Definition tie_Y_ref : list Z := [1; 1; 0; 0; 0; 0; 1; 1; 1].
Definition tie_Y_pred_score : list Q :=
  [8 # 10; 3 # 10; 2 # 10; 2 # 10; 5 # 10; 8 # 10; 7 # 10; 4 # 10; 6 # 10]%Q.

(** A training dict with a frame that has no overlap column. *)
Definition ex_train_bad : gmap string DataFrame :=
  {[ "t1"%string := ex_t1; "t2"%string := ex_annotation ]}.

(** An artist index, a splitter constructor that records its arguments. *)
Definition ex_index : gmap string string :=
  {[ "b_song"%string := "artist2"%string; "a_song"%string := "artist1"%string;
     "c_song"%string := "artist1"%string ]}.

Definition ex_ShuffleLabelsOut (keys : list string) (random_state : Z)
    (test_size : Q) : result (list string * Z * Q) :=
  Ok (keys, random_state, test_size).

(** Three dict objects, all frames with overlaps; the same with a frame
    that has none. *)
Definition ex_dicts : gmap loc (gmap string DataFrame) :=
  {[ 1%positive := ex_train; 2%positive := ∅;
     3%positive := {[ "t3"%string := ex_frame ]} ]}.

Definition ex_dicts_bad : gmap loc (gmap string DataFrame) :=
  {[ 1%positive := ex_train; 2%positive := ∅;
     3%positive := {[ "t3"%string := ex_annotation ]} ]}.

(** Overlaps with a [NaN] and a negative value among them. *)
Definition ex_noisy : gmap string DataFrame :=
  {[ "t1"%string :=
       mkDataFrame 4
         {[ "overlap"%string :=
              [NaN; Num (-1 # 2); Num 0; Num (1 # 2)] ]};
     "t2"%string := ex_frame ]}.

(** [ex_frame] with probabilities left by an earlier run. *)
Definition ex_frame_scored : DataFrame :=
  mkDataFrame 2 {[ "mel prob"%string := [Num (9 # 10); Num (1 # 10)];
                   "overlap"%string := [Num (6 # 10); Num 0];
                   "salience"%string := [Num (1 # 3); Num (2 # 3)] ]}.

(** A classifier fitted on one class only: one column of probabilities. *)
Definition ex_clf_one_class : classifier (list (list np_float)) :=
  mk_classifier _ (fun X_ => Ok (map (fun _ => [Num 1]) X_)).

(** A classifier that answers with one row too few. *)
Definition ex_clf_drops_row : classifier (list (list np_float)) :=
  mk_classifier _
    (fun X_ => Ok (map (fun _ => [Num (1 # 4); Num (3 # 4)]) (tail X_))).

(* ===================================================================== *)
(** * Facts about the embedding                                        *)
(* ===================================================================== *)

(** ** Indexing and comprehensions *)

Lemma getitem_lookup {A} (l : list A) (i : nat) (x : A) :
  l !! i = Some x → getitem l (Z.of_nat i) = Ok x.
Proof.
  intros Hl. pose proof (lookup_lt_Some _ _ _ Hl) as Hlt.
  unfold getitem.
  destruct (Z.ltb_spec (Z.of_nat i) 0) as [?|_]; [lia|].
  destruct (Z.leb_spec 0 (Z.of_nat i)) as [_|?]; [|lia].
  destruct (Z.ltb_spec (Z.of_nat i) (Z.of_nat (length l))) as [_|?]; [|lia].
  simpl. rewrite Nat2Z.id, Hl. reflexivity.
Qed.

Lemma getitem_head {A} (x : A) (l : list A) : getitem (x :: l) 0 = Ok x.
Proof. exact (getitem_lookup (x :: l) 0 x eq_refl). Qed.

Lemma getitem_Ok_elem {A} (l : list A) (i : Z) (x : A) :
  getitem l i = Ok x → x ∈ l.
Proof.
  unfold getitem. intros H.
  destruct (_ && _); [|discriminate].
  destruct (l !! _) eqn:E; [|discriminate].
  injection H as <-. eapply list_elem_of_lookup_2, E.
Qed.

Lemma getitem_in_range {A} (l : list A) (i : Z) :
  0 <= i < Z.of_nat (length l) → ∃ x, getitem l i = Ok x.
Proof.
  intros Hi.
  destruct (lookup_lt_is_Some_2 l (Z.to_nat i)) as [x Hx]; [lia|].
  exists x. rewrite <- (Z2Nat.id i) by lia. apply getitem_lookup, Hx.
Qed.

Lemma getitem_last {A} (l : list A) :
  l ≠ [] → ∃ x, getitem l (-1) = Ok x.
Proof.
  intros Hne. assert (Hlen : (0 < length l)%nat).
  { destruct l; [congruence|simpl; lia]. }
  destruct (lookup_lt_is_Some_2 l (length l - 1)) as [x Hx]; [lia|].
  exists x. unfold getitem. cbn [Z.ltb Z.compare].
  destruct (Z.leb_spec 0 (Z.of_nat (length l) + -1)) as [_|?]; [|lia].
  destruct (Z.ltb_spec (Z.of_nat (length l) + -1) (Z.of_nat (length l)))
    as [_|?]; [|lia].
  cbn [andb].
  replace (Z.to_nat (Z.of_nat (length l) + -1)) with (length l - 1)%nat
    by lia.
  rewrite Hx. reflexivity.
Qed.

Lemma traverse_Ok_length {A B} (f : A → result B) (l : list A) (r : list B) :
  traverse f l = Ok r → length r = length l.
Proof.
  revert r. induction l as [|x l IH]; intros r; simpl.
  - intros [= <-]. reflexivity.
  - destruct (f x) as [y|e]; simpl; [|discriminate].
    destruct (traverse f l) as [ys|e]; simpl; [|discriminate].
    intros [= <-]. simpl. f_equal. apply IH. reflexivity.
Qed.

Lemma traverse_Ok_lookup {A B} (f : A → result B) (l : list A) (r : list B) :
  traverse f l = Ok r →
  ∀ i x, l !! i = Some x → ∃ y, r !! i = Some y ∧ f x = Ok y.
Proof.
  revert r. induction l as [|x l IH]; intros r; simpl.
  - intros _ i y Hi. rewrite lookup_nil in Hi. discriminate.
  - destruct (f x) as [y|e] eqn:Ef; simpl; [|discriminate].
    destruct (traverse f l) as [ys|e]; simpl; [|discriminate].
    intros [= <-] [|i] z Hi; simpl in *.
    + injection Hi as <-. eauto.
    + eapply IH; eauto.
Qed.

Lemma traverse_total {A B} (f : A → result B) (l : list A) :
  (∀ x, x ∈ l → ∃ y, f x = Ok y) → ∃ r, traverse f l = Ok r.
Proof.
  induction l as [|x l IH]; intros H; simpl.
  - eauto.
  - destruct (H x) as [y Hy]; [left|]. rewrite Hy. simpl.
    destruct IH as [r Hr].
    + intros z Hz. apply H. right. exact Hz.
    + rewrite Hr. simpl. eauto.
Qed.

(** ** Dicts and loops over their keys *)

Lemma elem_of_keys {V} (d : gmap string V) (k : string) :
  k ∈ keys d ↔ is_Some (d !! k).
Proof.
  unfold keys. rewrite list_elem_of_fmap. split.
  - intros ([k' v] & -> & Hin). apply elem_of_map_to_list in Hin. eauto.
  - intros [v Hv]. exists (k, v). split; [reflexivity|].
    apply elem_of_map_to_list. exact Hv.
Qed.

Lemma NoDup_keys {V} (d : gmap string V) : NoDup (keys d).
Proof. apply NoDup_fst_map_to_list. Qed.

Lemma elem_of_values {V} (d : gmap string V) (v : V) :
  v ∈ values d → ∃ k, d !! k = Some v.
Proof.
  unfold values. rewrite list_elem_of_fmap.
  intros ([k v'] & -> & Hin). apply elem_of_map_to_list in Hin. eauto.
Qed.

Lemma for_in_r_update_spec (f : DataFrame → result DataFrame)
    (ks : list string) :
  NoDup ks →
  ∀ d : gmap string DataFrame,
    (∀ k, k ∈ ks → is_Some (d !! k)) →
    match for_in_r ks d (update_body f) with
    | Ok d' =>
        (∀ k, k ∈ ks →
           ∃ df df', d !! k = Some df ∧ f df = Ok df' ∧ d' !! k = Some df')
        ∧ (∀ k, k ∉ ks → d' !! k = d !! k)
    | Raise e => ∃ k df, k ∈ ks ∧ d !! k = Some df ∧ f df = Raise e
    end.
Proof.
  induction 1 as [|k ks Hk Hnd IH]; intros d Hin; simpl.
  - split; [|reflexivity]. intros k Hk. inversion Hk.
  - destruct (Hin k) as [df Hdf]; [left|].
    assert (Hub : update_body f k d = (df' ← f df; Ok (<[k := df']> d)))
      by (unfold update_body, dict_getitem; rewrite Hdf; reflexivity).
    rewrite Hub. clear Hub.
    destruct (f df) as [df'|e] eqn:Ef; simpl.
    2:{ exists k, df. split; [left|]. auto. }
    specialize (IH (<[k := df']> d)).
    destruct (for_in_r ks (<[k := df']> d) (update_body f)) as [d'|e].
    + destruct IH as [IHin IHout].
      { intros k' Hk'. rewrite lookup_insert_ne by (intros ->; contradiction).
        apply Hin. right. exact Hk'. }
      split.
      * intros k' Hk'. apply elem_of_cons in Hk' as [->|Hk'].
        -- exists df, df'. rewrite (IHout k Hk), lookup_insert_eq. auto.
        -- destruct (IHin k' Hk') as (df1 & df1' & H1 & H2 & H3).
           rewrite lookup_insert_ne in H1 by (intros ->; contradiction).
           eauto.
      * intros k' Hk'. apply not_elem_of_cons in Hk' as [Hne Hk'].
        rewrite (IHout k' Hk'). apply lookup_insert_ne. congruence.
    + destruct IH as (k' & df1 & Hk' & H1 & H2).
      { intros k' Hk'. rewrite lookup_insert_ne by (intros ->; contradiction).
        apply Hin. right. exact Hk'. }
      rewrite lookup_insert_ne in H1 by (intros ->; contradiction).
      exists k', df1. split; [right|]; auto.
Qed.

(** What a loop [for key in d.keys(): d[key] = f(d[key])] computes. *)
Lemma update_loop_spec (f : DataFrame → result DataFrame)
    (d : gmap string DataFrame) :
  match for_in_r (keys d) d (update_body f) with
  | Ok d' =>
      ∀ k, match d !! k with
           | Some df => ∃ df', f df = Ok df' ∧ d' !! k = Some df'
           | None => d' !! k = None
           end
  | Raise e => ∃ k df, d !! k = Some df ∧ f df = Raise e
  end.
Proof.
  pose proof (for_in_r_update_spec f (keys d) (NoDup_keys d) d) as H.
  destruct (for_in_r (keys d) d (update_body f)) as [d'|e].
  - destruct H as [Hin Hout]; [intros k; apply elem_of_keys|].
    intros k. destruct (d !! k) as [df|] eqn:Ek.
    + destruct (Hin k) as (df0 & df' & H0 & Hf & Hd').
      { apply elem_of_keys. eauto. }
      rewrite Ek in H0. injection H0 as <-. eauto.
    + rewrite Hout, Ek; [reflexivity|].
      rewrite elem_of_keys, Ek. intros [? ?]. discriminate.
  - destruct H as (k & df & _ & ? & ?); [intros k; apply elem_of_keys|].
    eauto.
Qed.

Lemma pyM_bind_run {S A B} (m : pyM S A) (f : A → pyM S B)
    (s s' : S) (a : A) :
  m s = (Ok a, s') → (m ≫= f) s = f a s'.
Proof. intros H. unfold mbind, pyM_bind. rewrite H. reflexivity. Qed.

(** ** The order of floats and [np.argmax] *)

Module np_facts.

Lemma le_not_nan (x y : np_float) :
  np.le x y = true → np.isnan x = false ∧ np.isnan y = false.
Proof. destruct x, y; simpl; auto; discriminate. Qed.

Lemma le_refl (x : np_float) : np.isnan x = false → np.le x x = true.
Proof.
  destruct x; simpl; try reflexivity; try discriminate.
  intros _. apply Qle_bool_iff, Qle_refl.
Qed.

Lemma le_trans (x y z : np_float) :
  np.le x y = true → np.le y z = true → np.le x z = true.
Proof.
  destruct x, y, z; simpl; try reflexivity; try discriminate.
  rewrite !Qle_bool_iff. apply Qle_trans.
Qed.

Lemma not_le_lt (x y : np_float) :
  np.isnan x = false → np.isnan y = false →
  np.le x y = false → np.lt y x = true.
Proof.
  destruct x, y; simpl; try reflexivity; try discriminate.
  intros _ _ ->. reflexivity.
Qed.

Lemma lt_le (x y : np_float) : np.lt x y = true → np.le x y = true.
Proof.
  destruct x, y; simpl; try reflexivity; try discriminate.
  rewrite negb_true_iff. intros H. apply Qle_bool_iff.
  apply Qlt_le_weak, Qnot_le_lt. intros Hle.
  apply Qle_bool_iff in Hle. congruence.
Qed.

Lemma le_lt_trans (x y z : np_float) :
  np.le x y = true → np.lt y z = true → np.lt x z = true.
Proof.
  destruct x, y, z; simpl; try reflexivity; try discriminate.
  rewrite Qle_bool_iff, !negb_true_iff. intros H1 H2.
  destruct (Qle_bool q1 q) eqn:E; [|reflexivity].
  apply Qle_bool_iff in E.
  assert (H : Qle_bool q1 q0 = true)
    by (apply Qle_bool_iff; eapply Qle_trans; eassumption).
  congruence.
Qed.

End np_facts.

Lemma nan_free_dec (a : list np_float) : {nan_free a} + {¬ nan_free a}.
Proof.
  apply Forall_dec. intros x. destruct (np.isnan x); [right|left]; congruence.
Qed.

Lemma argmax_scan_spec (ip : list np_float) :
  ∀ (done : list np_float) (mp : np_float) (max_ind : nat),
    nan_free done →
    done !! max_ind = Some mp →
    (∀ x, x ∈ done → np.le x mp = true) →
    (∀ j x, (j < max_ind)%nat → done !! j = Some x → np.lt x mp = true) →
    (nan_free ip →
       first_max (done ++ ip) (np.argmax_scan mp max_ind (length done) ip))
    ∧ (¬ nan_free ip →
       first_nan (done ++ ip) (np.argmax_scan mp max_ind (length done) ip)).
Proof.
  induction ip as [|x ip IH]; intros done mp max_ind Hdone Hmp Hle Hlt.
  - simpl. rewrite app_nil_r. split.
    + intros _. exists mp. split; [exact Hmp|].
      assert (Hin : mp ∈ done) by (eapply list_elem_of_lookup_2, Hmp).
      split; [apply (np_facts.le_not_nan _ _ (Hle mp Hin))|]. split.
      * intros j y Hj _. apply Hle. eapply list_elem_of_lookup_2, Hj.
      * intros j y Hj Hy _. eapply Hlt; eassumption.
    + intros H. exfalso. apply H. constructor.
  - assert (Hmpn : np.isnan mp = false).
    { apply (np_facts.le_not_nan mp mp), Hle.
      eapply list_elem_of_lookup_2, Hmp. }
    assert (Hlen : (max_ind < length done)%nat)
      by (eapply lookup_lt_Some, Hmp).
    cbn [np.argmax_scan].
    destruct (np.le x mp) eqn:Exm; cbn [negb].
    + (* x does not replace the running maximum *)
      destruct (np_facts.le_not_nan _ _ Exm) as [Hxn _].
      specialize (IH (done ++ [x]) mp max_ind).
      rewrite length_app, Nat.add_1_r, <- app_assoc in IH. simpl in IH.
      destruct IH as [IH1 IH2].
      * apply Forall_app. split; [exact Hdone|]. repeat constructor. exact Hxn.
      * rewrite lookup_app_l by exact Hlen. exact Hmp.
      * intros y Hy. apply elem_of_app in Hy as [Hy|Hy]; [auto|].
        apply list_elem_of_singleton in Hy as ->. exact Exm.
      * intros j y Hj Hy. rewrite lookup_app_l in Hy by lia. eauto.
      * split.
        -- intros Hnf. apply IH1. inversion Hnf; assumption.
        -- intros Hnf. apply IH2. intros H. apply Hnf.
           constructor; assumption.
    + destruct (np.isnan x) eqn:Exn.
      * (* a NaN ends the scan *)
        split.
        -- intros Hnf. inversion Hnf; congruence.
        -- intros _. split.
           ++ rewrite lookup_app_r by lia. rewrite Nat.sub_diag. simpl.
              destruct x; try discriminate. reflexivity.
           ++ intros j y Hj Hy. rewrite lookup_app_l in Hy by exact Hj.
              exact (Forall_lookup_1 _ _ _ _ Hdone Hy).
      * (* x is the new running maximum *)
        pose proof (np_facts.not_le_lt x mp Exn Hmpn Exm) as Hgt.
        specialize (IH (done ++ [x]) x (length done)).
        rewrite length_app, Nat.add_1_r, <- app_assoc in IH. simpl in IH.
        destruct IH as [IH1 IH2].
        -- apply Forall_app. split; [exact Hdone|]. repeat constructor.
           exact Exn.
        -- rewrite lookup_app_r by lia. rewrite Nat.sub_diag. reflexivity.
        -- intros y Hy. apply elem_of_app in Hy as [Hy|Hy].
           ++ eapply np_facts.le_trans; [apply Hle, Hy|].
              apply np_facts.lt_le, Hgt.
           ++ apply list_elem_of_singleton in Hy as ->.
              apply np_facts.le_refl, Exn.
        -- intros j y Hj Hy. rewrite lookup_app_l in Hy by exact Hj.
           eapply np_facts.le_lt_trans; [|exact Hgt].
           apply Hle. eapply list_elem_of_lookup_2, Hy.
        -- split.
           ++ intros Hnf. apply IH1. inversion Hnf; assumption.
           ++ intros Hnf. apply IH2. intros H. apply Hnf.
              constructor; assumption.
Qed.

(** [np.argmax] returns the position of the first maximum of an array of
    numbers, and the position of the first [NaN] as soon as the array
    has one. *)
Lemma argmax_spec (a : list np_float) :
  a ≠ [] →
  ∃ k, np.argmax a = Ok (Z.of_nat k)
       ∧ (k < length a)%nat
       ∧ (nan_free a → first_max a k)
       ∧ (¬ nan_free a → first_nan a k).
Proof.
  destruct a as [|x a]; [congruence|]. intros _. unfold np.argmax.
  eexists. split; [reflexivity|].
  destruct (np.isnan x) eqn:Ex.
  - split; [simpl; lia|]. split.
    + intros H. inversion H; congruence.
    + intros _. split.
      * destruct x; try discriminate. reflexivity.
      * intros j y Hj. lia.
  - destruct (argmax_scan_spec a [x] x 0) as [H1 H2].
    + repeat constructor. exact Ex.
    + reflexivity.
    + intros y Hy. apply list_elem_of_singleton in Hy as ->.
      apply np_facts.le_refl, Ex.
    + intros j y Hj. lia.
    + simpl in H1, H2.
      assert (Hk : ∀ k, (first_max (x :: a) k ∨ first_nan (x :: a) k) →
                        (k < length (x :: a))%nat).
      { intros k [(m & Hm & _)|[Hm _]]; eapply lookup_lt_Some, Hm. }
      split; [|split].
      * destruct (nan_free_dec a) as [Hn|Hn]; apply Hk; auto.
      * intros Hnf. apply H1. inversion Hnf; assumption.
      * intros Hnf. apply H2. intros H. apply Hnf.
        constructor; assumption.
Qed.

(** ** The F array *)

Lemma f_score_zip (fpr tpr : list np_float) :
  zip_with np.div
    (map (np.mul (np.of_Z 2))
       (zip_with np.mul (map (np.sub (np.of_Z 1)) fpr) tpr))
    (zip_with np.add (map (np.sub (np.of_Z 1)) fpr) tpr)
  = f_score_curve fpr tpr.
Proof.
  revert tpr. induction fpr as [|a fpr IH]; intros [|b tpr];
    try reflexivity.
  cbn [map zip_with f_score_curve]. f_equal. apply IH.
Qed.

Lemma f_scores_of_curve (fpr tpr : list np_float) :
  length fpr = length tpr →
  f_scores_of fpr tpr = Ok (f_score_curve fpr tpr).
Proof.
  intros Hlen. unfold f_scores_of, np.broadcast.
  rewrite length_map, Hlen, Nat.eqb_refl. cbn [mbind result_bind].
  rewrite length_map, !length_zip_with, length_map, Hlen, Nat.eqb_refl.
  rewrite f_score_zip. reflexivity.
Qed.

Lemma f_score_curve_length (fpr tpr : list np_float) :
  length fpr = length tpr → length (f_score_curve fpr tpr) = length fpr.
Proof.
  intros H. unfold f_score_curve. rewrite length_zip_with. lia.
Qed.

Lemma f_score_curve_lookup (fpr tpr : list np_float) (j : nat)
    (f : np_float) :
  f_score_curve fpr tpr !! j = Some f ↔
  ∃ a b, fpr !! j = Some a ∧ tpr !! j = Some b ∧ f = f_score a b.
Proof.
  unfold f_score_curve. rewrite lookup_zip_with_Some.
  split; intros (a & b & H1 & H2 & H3); exists a, b; auto.
Qed.

(** The division [2*(P*R)/(P+R)] at a point where [P + R = 0], the
    rates being rates ([fpr <= 1], [0 <= tpr]), is [0/0]. *)
Lemma f_score_zero_division (a b : Q) :
  (a <= 1)%Q → (0 <= b)%Q → ((1 - a) + b == 0)%Q →
  f_score (Num a) (Num b) = NaN.
Proof.
  intros Ha Hb Hsum.
  assert (Hb0 : (b == 0)%Q).
  { apply Qle_antisym; [|exact Hb].
    apply Qle_trans with ((1 - a) + b)%Q; [|rewrite Hsum; apply Qle_refl].
    rewrite <- (Qplus_0_l b) at 1. apply Qplus_le_compat; [|apply Qle_refl].
    unfold Qminus. rewrite <- (Qplus_opp_r a).
    apply Qplus_le_compat; [exact Ha|apply Qle_refl]. }
  unfold f_score, np.sub, np.neg, np.add, np.mul, np.div, np.of_Z, np.Qzero.
  replace (Qeq_bool (Qred (Qred (inject_Z 1 + Qred (- a)) + b)) 0) with true.
  2:{ symmetry. apply Qeq_bool_iff.
      rewrite !Qred_correct. exact Hsum. }
  replace (Qeq_bool
             (Qred (inject_Z 2 * Qred (Qred (inject_Z 1 + Qred (- a)) * b)))
             0) with true; [reflexivity|].
  symmetry. apply Qeq_bool_iff. rewrite !Qred_correct, Hb0. ring.
Qed.

(** Away from [P + R = 0] the F value of a point with finite rates is a
    number. *)
Lemma f_score_number (a b : Q) :
  ¬ ((1 - a) + b == 0)%Q → ∃ q, f_score (Num a) (Num b) = Num q.
Proof.
  intros Hsum.
  unfold f_score, np.sub, np.neg, np.add, np.mul, np.div, np.of_Z, np.Qzero.
  replace (Qeq_bool (Qred (Qred (inject_Z 1 + Qred (- a)) + b)) 0)
    with false; [eauto|].
  symmetry. destruct (Qeq_bool _ 0) eqn:E; [|reflexivity].
  apply Qeq_bool_iff in E. rewrite !Qred_correct in E. contradiction.
Qed.

(** A curve of finite rates without a point where [P + R = 0] has an F
    array without [NaN]. *)
Lemma no_zero_division_nan_free (fpr tpr : list np_float) :
  (∀ j x y, fpr !! j = Some x → tpr !! j = Some y →
     ∃ a b, x = Num a ∧ y = Num b ∧ ¬ ((1 - a) + b == 0)%Q) →
  nan_free (f_score_curve fpr tpr).
Proof.
  intros H. apply Forall_lookup_2. intros j f Hf.
  apply f_score_curve_lookup in Hf as (x & y & Hx & Hy & ->).
  destruct (H j x y Hx Hy) as (a & b & -> & -> & Hab).
  destruct (f_score_number a b Hab) as [q ->]. reflexivity.
Qed.

(** What [get_best_threshold] does on a well-shaped curve: it returns
    the threshold and the F value found at [np.argmax] of the F array. *)
Lemma get_best_threshold_run (roc_curve : roc_curve_fn)
    (Y_ref : list Z) (Y_pred_score : list Q) (plot : bool)
    (fpr tpr thresholds : list np_float) :
  roc_curve Y_ref Y_pred_score 1 = Ok (fpr, tpr, thresholds) →
  curve_shape fpr tpr thresholds →
  ∃ k t f fig,
    get_best_threshold roc_curve Y_ref Y_pred_score plot = Ok (t, f, fig)
    ∧ thresholds !! k = Some t
    ∧ f_score_curve fpr tpr !! k = Some f
    ∧ (nan_free (f_score_curve fpr tpr) →
         first_max (f_score_curve fpr tpr) k)
    ∧ (¬ nan_free (f_score_curve fpr tpr) →
         first_nan (f_score_curve fpr tpr) k).
Proof.
  intros Hrc (Hlen & Hthr & Hne).
  pose proof (f_score_curve_length fpr tpr Hlen) as HF.
  destruct (argmax_spec (f_score_curve fpr tpr)) as (k & Hk & Hlt & Hmax & Hnan).
  { intros E. rewrite E in HF. destruct fpr; [congruence|discriminate]. }
  destruct (lookup_lt_is_Some_2 (f_score_curve fpr tpr) k Hlt) as [f Hf].
  destruct (lookup_lt_is_Some_2 thresholds k) as [t Ht]; [lia|].
  exists k, t, f. eexists. split; [|auto].
  unfold get_best_threshold. rewrite Hrc. cbn [mbind result_bind].
  rewrite (f_scores_of_curve fpr tpr Hlen). cbn [mbind result_bind].
  rewrite Hk. cbn [mbind result_bind].
  rewrite (getitem_lookup _ _ _ Hf). cbn [mbind result_bind].
  rewrite (getitem_lookup _ _ _ Ht). cbn [mbind result_bind].
  reflexivity.
Qed.

(** ** scikit-learn's [roc_curve] returns a well-shaped curve *)

Module metrics_facts.

Lemma insert_by_score_length (x : Q * bool) (l : list (Q * bool)) :
  length (metrics.insert_by_score x l) = S (length l).
Proof.
  induction l as [|y l IH]; simpl; [reflexivity|].
  destruct (Qle_bool _ _); simpl; [reflexivity|]. rewrite IH. reflexivity.
Qed.

Lemma sort_by_score_length (l : list (Q * bool)) :
  length (metrics.sort_by_score l) = length l.
Proof.
  induction l as [|x l IH]; simpl; [reflexivity|].
  rewrite insert_by_score_length, IH. reflexivity.
Qed.

Lemma distinct_value_indices_range (y_score : list Q) :
  ∀ i, Forall (fun j => i <= j < i + Z.of_nat (length y_score) - 1)
         (metrics.distinct_value_indices i y_score).
Proof.
  induction y_score as [|x [|y rest] IH]; intros i;
    cbn [metrics.distinct_value_indices]; try constructor.
  specialize (IH (i + 1)).
  assert (Hrest : Forall
            (fun j => i <= j < i + Z.of_nat (length (x :: y :: rest)) - 1)
            (metrics.distinct_value_indices (i + 1) (y :: rest))).
  { eapply Forall_impl; [exact IH|]. cbn [length]. intros j Hj. lia. }
  destruct (Qeq_bool (y - x) 0); [exact Hrest|].
  constructor; [cbn [length]; lia|exact Hrest].
Qed.

Lemma cumsum_from_length (a : list Z) :
  ∀ acc, length (np.cumsum_from acc a) = length a.
Proof.
  induction a as [|x a IH]; intros acc; simpl; [reflexivity|].
  rewrite IH. reflexivity.
Qed.

Lemma traverse_getitem {A} (l : list A) (idxs : list Z) :
  Forall (fun i => 0 <= i < Z.of_nat (length l)) idxs →
  ∃ r, traverse (getitem l) idxs = Ok r ∧ length r = length idxs.
Proof.
  intros H. destruct (traverse_total (getitem l) idxs) as [r Hr].
  - intros i Hi. apply getitem_in_range.
    eapply (proj1 (Forall_forall _ _) H), Hi.
  - exists r. split; [exact Hr|]. eapply traverse_Ok_length, Hr.
Qed.

Lemma binary_clf_curve_shape (y_true : list Z) (y_score : list Q)
    (pos_label : Z) :
  length y_true = length y_score → y_score ≠ [] →
  ∃ fps tps thresholds,
    metrics.binary_clf_curve y_true y_score pos_label
      = Ok (fps, tps, thresholds)
    ∧ length fps = length tps
    ∧ length thresholds = length tps
    ∧ tps ≠ [].
Proof.
  intros Hlen Hne. unfold metrics.binary_clf_curve.
  rewrite Hlen, Nat.eqb_refl. cbn [negb].
  set (sorted := rev (metrics.sort_by_score
                        (zip y_score (map (fun y => y =? pos_label) y_true)))).
  assert (Hn : length sorted = length y_score).
  { unfold sorted. rewrite length_rev, sort_by_score_length.
    rewrite length_zip, length_map. lia. }
  assert (Hpos : (0 < length y_score)%nat).
  { destruct y_score; [congruence|simpl; lia]. }
  set (idxs := metrics.distinct_value_indices 0 sorted.*1
               ++ [Z.of_nat (length sorted.*2) - 1]).
  assert (Hidx : Forall (fun i => 0 <= i < Z.of_nat (length y_score)) idxs).
  { unfold idxs. apply Forall_app. split.
    - eapply Forall_impl;
        [apply (distinct_value_indices_range sorted.*1 0)|].
      intros j. rewrite length_fmap, Hn. cbn beta. lia.
    - repeat constructor; rewrite length_fmap, Hn; lia. }
  destruct (traverse_getitem (np.cumsum (map metrics.bool_to_Z sorted.*2))
              idxs) as (tps & Htps & Ltps).
  { unfold np.cumsum.
    rewrite cumsum_from_length, length_map, length_fmap, Hn. exact Hidx. }
  destruct (traverse_getitem sorted.*1 idxs) as (thr & Hthr & Lthr).
  { rewrite length_fmap, Hn. exact Hidx. }
  rewrite Htps. cbn [mbind result_bind]. rewrite Hthr.
  cbn [mbind result_bind].
  do 3 eexists. split; [reflexivity|].
  rewrite length_zip_with.
  assert (Hi : (0 < length idxs)%nat).
  { unfold idxs. rewrite length_app. simpl. lia. }
  split; [lia|]. split; [lia|].
  intros ->. simpl in Ltps. lia.
Qed.

Lemma rate_shape (counts : list Z) :
  counts ≠ [] → ∃ r, metrics.rate counts = Ok r ∧ length r = length counts.
Proof.
  intros Hne. unfold metrics.rate.
  destruct (getitem_last counts Hne) as [last Hlast]. rewrite Hlast.
  cbn [mbind result_bind].
  destruct (last <=? 0); eexists; (split; [reflexivity|]).
  - apply length_replicate.
  - apply length_map.
Qed.

Lemma rates_shape (fps tps : list Z) (thr : list Q) :
  length fps = length tps → length thr = length tps → tps ≠ [] →
  ∃ fpr tpr,
    (fpr ← metrics.rate fps; tpr ← metrics.rate tps;
     Ok (fpr, tpr, map Num thr)) = Ok (fpr, tpr, map Num thr)
    ∧ curve_shape fpr tpr (map Num thr).
Proof.
  intros L1 L2 Hn.
  destruct (rate_shape fps) as (fpr & Hfpr & Lf).
  { intros ->. destruct tps; [congruence|discriminate]. }
  destruct (rate_shape tps Hn) as (tpr & Htpr & Lt).
  exists fpr, tpr. rewrite Hfpr. cbn [mbind result_bind].
  rewrite Htpr. cbn [mbind result_bind]. split; [reflexivity|].
  unfold curve_shape. rewrite length_map.
  split; [lia|]. split; [lia|].
  intros ->. destruct tps; [congruence|]. simpl in *. lia.
Qed.

(** On non-empty inputs of equal length, whatever the labels are,
    [roc_curve] returns the three arrays of a curve. *)
Lemma roc_curve_shape (y_true : list Z) (y_score : list Q) (pos_label : Z) :
  length y_true = length y_score → y_score ≠ [] →
  ∃ fpr tpr thresholds,
    metrics.roc_curve y_true y_score pos_label = Ok (fpr, tpr, thresholds)
    ∧ curve_shape fpr tpr thresholds.
Proof.
  intros Hlen Hne.
  destruct (binary_clf_curve_shape y_true y_score pos_label Hlen Hne)
    as (fps & tps & thr & Hb & L1 & L2 & Hn).
  destruct tps as [|t tps]; [congruence|].
  destruct fps as [|f fps]; [discriminate|].
  destruct thr as [|t0 thr]; [discriminate|].
  unfold metrics.roc_curve. rewrite Hb.
  cbn [mbind result_bind length Nat.eqb].
  rewrite (getitem_head f fps). cbn [mbind result_bind].
  destruct (negb (f =? 0)).
  - rewrite (getitem_head t0 thr). cbn [mbind result_bind].
    destruct (rates_shape (0 :: f :: fps) (0 :: t :: tps)
                (Qred (t0 + 1) :: t0 :: thr))
      as (fpr & tpr & Hr & Hs);
      [simpl in *; lia|simpl in *; lia|discriminate|].
    exists fpr, tpr. eexists. split; [exact Hr|exact Hs].
  - destruct (rates_shape (f :: fps) (t :: tps) (t0 :: thr) L1 L2 Hn)
      as (fpr & tpr & Hr & Hs).
    exists fpr, tpr. eexists. split; [exact Hr|exact Hs].
Qed.

(** With [pos_label = 1] every label other than 1 counts as negative:
    the curve only sees whether a label is 1. *)
Lemma roc_curve_binarize (y_true : list Z) (y_score : list Q) :
  metrics.roc_curve y_true y_score 1
  = metrics.roc_curve (map (fun y => if y =? 1 then 1 else 0) y_true)
      y_score 1.
Proof.
  unfold metrics.roc_curve, metrics.binary_clf_curve.
  rewrite (List.length_map (fun y => if y =? 1 then 1 else 0) y_true).
  replace (map (fun y => y =? 1)
             (map (fun y => if y =? 1 then 1 else 0) y_true))
    with (map (fun y => y =? 1) y_true); [reflexivity|].
  rewrite (List.map_map (fun y => if y =? 1 then 1 else 0)
             (fun y => y =? 1) y_true).
  apply map_ext. intros y. destruct (y =? 1); reflexivity.
Qed.

End metrics_facts.

(** ** The degenerate curves of scikit-learn's [roc_curve] *)

Module curve_facts.

Lemma binary_clf_curve_inv (y_true : list Z) (y_score : list Q)
    (pos_label : Z) (fps tps : list Z) (thr : list Q) :
  metrics.binary_clf_curve y_true y_score pos_label = Ok (fps, tps, thr) →
  traverse
    (getitem (np.cumsum (map metrics.bool_to_Z
                           (sorted_pairs y_true y_score pos_label).*2)))
    (threshold_idxs y_true y_score pos_label) = Ok tps
  ∧ fps = zip_with (fun i t => 1 + i - t)
            (threshold_idxs y_true y_score pos_label) tps
  ∧ traverse (getitem (sorted_pairs y_true y_score pos_label).*1)
      (threshold_idxs y_true y_score pos_label) = Ok thr.
Proof.
  unfold metrics.binary_clf_curve.
  destruct (negb _); [discriminate|].
  fold (sorted_pairs y_true y_score pos_label).
  fold (threshold_idxs y_true y_score pos_label).
  destruct (traverse (getitem (np.cumsum _)) _)
    as [tps'|e]; cbn [mbind result_bind]; [|discriminate].
  destruct (traverse _ (threshold_idxs y_true y_score pos_label))
    as [thr'|e]; cbn [mbind result_bind]; [|discriminate].
  intros [= <- <- <-]. auto.
Qed.

(** The curve [roc_curve] returns: the counts of [_binary_clf_curve],
    with or without the extra first point, turned into rates. *)
Lemma roc_curve_inv (y_true : list Z) (y_score : list Q) (pos_label : Z)
    (fpr tpr thresholds : list np_float) :
  metrics.roc_curve y_true y_score pos_label = Ok (fpr, tpr, thresholds) →
  ∃ fps tps thr fps' tps' thr',
    metrics.binary_clf_curve y_true y_score pos_label = Ok (fps, tps, thr)
    ∧ ((fps', tps', thr') = (fps, tps, thr)
       ∨ ∃ t0, head thr = Some t0
               ∧ (fps', tps', thr')
                 = (0 :: fps, 0 :: tps, Qred (t0 + 1) :: thr))
    ∧ metrics.rate fps' = Ok fpr
    ∧ metrics.rate tps' = Ok tpr
    ∧ thresholds = map Num thr'.
Proof.
  unfold metrics.roc_curve.
  destruct (metrics.binary_clf_curve y_true y_score pos_label)
    as [[[fps tps] thr]|e]; [|discriminate].
  cbn [mbind result_bind].
  destruct (if (length tps =? 0)%nat then Ok true
            else f0 ← getitem fps 0; Ok (negb (f0 =? 0))) as [[|]|e];
    [| |discriminate]; cbn [mbind result_bind].
  - destruct thr as [|t0 thr]; [discriminate|].
    rewrite getitem_head. cbn [mbind result_bind].
    destruct (metrics.rate (0 :: fps)) as [fpr'|e] eqn:Ef; [|discriminate].
    cbn [mbind result_bind].
    destruct (metrics.rate (0 :: tps)) as [tpr'|e] eqn:Et; [|discriminate].
    cbn [mbind result_bind]. intros [= <- <- <-].
    exists fps, tps, (t0 :: thr), (0 :: fps), (0 :: tps),
      (Qred (t0 + 1) :: t0 :: thr).
    split; [reflexivity|]. split; [right; exists t0; auto|]. auto.
  - destruct (metrics.rate fps) as [fpr'|e] eqn:Ef; [|discriminate].
    cbn [mbind result_bind].
    destruct (metrics.rate tps) as [tpr'|e] eqn:Et; [|discriminate].
    cbn [mbind result_bind]. intros [= <- <- <-].
    exists fps, tps, thr, fps, tps, thr. auto 10.
Qed.

Lemma insert_by_score_Forall (P : Q * bool → Prop) (x : Q * bool)
    (l : list (Q * bool)) :
  P x → Forall P l → Forall P (metrics.insert_by_score x l).
Proof.
  intros Hx. induction 1 as [|y l Hy Hl IH]; simpl.
  - repeat constructor. exact Hx.
  - destruct (Qle_bool _ _); repeat constructor; assumption.
Qed.

Lemma sorted_pairs_Forall (P : Q * bool → Prop) (y_true : list Z)
    (y_score : list Q) (pos_label : Z) :
  Forall P (zip y_score (map (fun y => y =? pos_label) y_true)) →
  Forall P (sorted_pairs y_true y_score pos_label).
Proof.
  intros H. unfold sorted_pairs. apply Forall_rev.
  induction H as [|x l Hx Hl IH]; simpl; [constructor|].
  apply insert_by_score_Forall; assumption.
Qed.

Lemma zip_Forall_snd {A B} (P : B → Prop) (l : list A) (k : list B) :
  Forall P k → Forall (fun p => P p.2) (zip l k).
Proof.
  intros H. revert l. induction H as [|y k Hy Hk IH]; intros [|x l];
    simpl; constructor; auto.
Qed.

Lemma zip_Forall_fst {A B} (P : A → Prop) (l : list A) (k : list B) :
  Forall P l → Forall (fun p => P p.1) (zip l k).
Proof.
  intros H. revert k. induction H as [|x l Hx Hl IH]; intros [|y k];
    simpl; constructor; auto.
Qed.

Lemma traverse_getitem_Forall {A} (P : A → Prop) (l : list A)
    (idxs : list Z) (r : list A) :
  Forall P l → traverse (getitem l) idxs = Ok r → Forall P r.
Proof.
  intros Hl. revert r. induction idxs as [|i idxs IH]; intros r; simpl.
  - intros [= <-]. constructor.
  - destruct (getitem l i) as [x|e] eqn:Ex; [|discriminate].
    cbn [mbind result_bind].
    destruct (traverse (getitem l) idxs) as [xs|e]; [|discriminate].
    cbn [mbind result_bind]. intros [= <-].
    constructor; [|apply IH; reflexivity].
    apply getitem_Ok_elem in Ex.
    exact (proj1 (Forall_forall _ _) Hl x Ex).
Qed.

Lemma cumsum_from_zeros (a : list Z) :
  Forall (fun x => x = 0) a →
  ∀ acc, Forall (fun x => x = acc) (np.cumsum_from acc a).
Proof.
  induction 1 as [|x a -> _ IH]; intros acc; simpl; constructor.
  - lia.
  - rewrite Z.add_0_r. apply IH.
Qed.

Lemma cumsum_from_ones (a : list Z) :
  Forall (fun x => x = 1) a →
  ∀ acc i x, np.cumsum_from acc a !! i = Some x → x = acc + Z.of_nat i + 1.
Proof.
  induction 1 as [|y a -> _ IH]; intros acc i x; simpl.
  - rewrite lookup_nil. discriminate.
  - destruct i as [|i]; simpl.
    + intros [= <-]. lia.
    + intros H. apply IH in H. lia.
Qed.

Lemma getitem_nonneg {A} (l : list A) (i : Z) (x : A) :
  0 <= i → getitem l i = Ok x → l !! Z.to_nat i = Some x.
Proof.
  intros Hi. unfold getitem.
  destruct (Z.ltb_spec i 0) as [?|_]; [lia|].
  destruct (_ && _); [|discriminate].
  destruct (l !! Z.to_nat i); [|discriminate]. congruence.
Qed.

Lemma threshold_idxs_nonneg (y_true : list Z) (y_score : list Q)
    (pos_label : Z) :
  y_score ≠ [] → length y_true = length y_score →
  Forall (fun i => 0 <= i) (threshold_idxs y_true y_score pos_label).
Proof.
  intros Hne Hlen. unfold threshold_idxs. apply Forall_app. split.
  - eapply Forall_impl;
      [apply (metrics_facts.distinct_value_indices_range _ 0)|].
    cbn beta. intros j Hj. lia.
  - repeat constructor. rewrite length_fmap. unfold sorted_pairs.
    rewrite length_rev, metrics_facts.sort_by_score_length.
    rewrite length_zip, length_map, Hlen, Nat.min_id.
    destruct y_score; [congruence|]. cbn [length]. lia.
Qed.

(** A rate over counts that are all zero is all [NaN]. *)
Lemma rate_zeros (counts : list Z) (r : list np_float) :
  Forall (fun c => c = 0) counts → metrics.rate counts = Ok r →
  r = replicate (length counts) NaN.
Proof.
  intros Hz. unfold metrics.rate.
  destruct (getitem counts (-1)) as [last|e] eqn:El; [|discriminate].
  cbn [mbind result_bind]. apply getitem_Ok_elem in El.
  rewrite (proj1 (Forall_forall _ _) Hz last El). cbn. congruence.
Qed.

Lemma f_score_nan_l (b : np_float) : f_score NaN b = NaN.
Proof. destruct b; reflexivity. Qed.

Lemma f_score_nan_r (a : np_float) : f_score a NaN = NaN.
Proof.
  unfold f_score. destruct (np.sub (np.of_Z 1) a); reflexivity.
Qed.

(** No positive label: every true positive count is zero. *)
Lemma no_positive_tps (y_true : list Z) (y_score : list Q)
    (fps tps : list Z) (thr : list Q) :
  Forall (fun y => y ≠ 1) y_true →
  metrics.binary_clf_curve y_true y_score 1 = Ok (fps, tps, thr) →
  Forall (fun t => t = 0) tps.
Proof.
  intros Hy Hb. apply binary_clf_curve_inv in Hb as (Htps & _ & _).
  eapply traverse_getitem_Forall; [|exact Htps].
  apply (cumsum_from_zeros _) with (acc := 0).
  apply Forall_fmap, Forall_fmap.
  apply (sorted_pairs_Forall (fun p => metrics.bool_to_Z p.2 = 0)).
  apply (zip_Forall_snd (fun b => metrics.bool_to_Z b = 0)).
  apply Forall_fmap. eapply Forall_impl; [exact Hy|].
  cbn beta. intros y Hne. simpl.
  destruct (Z.eqb_spec y 1); [contradiction|reflexivity].
Qed.

(** No negative label: every false positive count is zero. *)
Lemma no_negative_fps (y_true : list Z) (y_score : list Q)
    (fps tps : list Z) (thr : list Q) :
  y_score ≠ [] → length y_true = length y_score →
  Forall (fun y => y = 1) y_true →
  metrics.binary_clf_curve y_true y_score 1 = Ok (fps, tps, thr) →
  Forall (fun f => f = 0) fps.
Proof.
  intros Hne Hlen Hy Hb. apply binary_clf_curve_inv in Hb as (Htps & -> & _).
  pose proof (threshold_idxs_nonneg y_true y_score 1 Hne Hlen) as Hnn.
  apply Forall_lookup_2. intros j f Hj.
  apply lookup_zip_with_Some in Hj as (i & t & -> & Hi & Ht).
  destruct (traverse_Ok_lookup _ _ _ Htps j i Hi) as (t' & Ht' & Hg).
  rewrite Ht in Ht'. injection Ht' as <-.
  pose proof (Forall_lookup_1 _ _ _ _ Hnn Hi) as Hi0. cbn beta in Hi0.
  apply getitem_nonneg in Hg; [|exact Hi0].
  apply cumsum_from_ones in Hg; [lia|].
  apply Forall_fmap, Forall_fmap.
  apply (sorted_pairs_Forall (fun p => metrics.bool_to_Z p.2 = 1)).
  apply (zip_Forall_snd (fun b => metrics.bool_to_Z b = 1)).
  apply Forall_fmap. eapply Forall_impl; [exact Hy|].
  cbn beta. intros y ->. reflexivity.
Qed.

(** With a single class in the labels, the curve [roc_curve] returns has
    a rate that is [NaN] throughout, and so is its F array. *)
Lemma single_class_f_scores (y_true : list Z) (y_score : list Q)
    (fpr tpr thresholds : list np_float) :
  y_score ≠ [] → length y_true = length y_score →
  Forall (fun y => y = 1) y_true ∨ Forall (fun y => y ≠ 1) y_true →
  metrics.roc_curve y_true y_score 1 = Ok (fpr, tpr, thresholds) →
  Forall (fun f => f = NaN) (f_score_curve fpr tpr).
Proof.
  intros Hne Hlen Hclass Hrc.
  apply roc_curve_inv in Hrc
    as (fps & tps & thr & fps' & tps' & thr' & Hb & Hext & Hfpr & Htpr & _).
  apply Forall_lookup_2. intros j f Hj.
  apply f_score_curve_lookup in Hj as (a & b & Ha & Hb' & ->).
  destruct Hclass as [Hpos|Hneg].
  - assert (Hz : Forall (fun c => c = 0) fps').
    { pose proof (no_negative_fps _ _ _ _ _ Hne Hlen Hpos Hb) as H.
      destruct Hext as [[= -> _ _]|(t0 & _ & [= -> _ _])];
        [exact H|constructor; [reflexivity|exact H]]. }
    rewrite (rate_zeros _ _ Hz Hfpr) in Ha.
    apply lookup_replicate in Ha as [-> _]. apply f_score_nan_l.
  - assert (Hz : Forall (fun c => c = 0) tps').
    { pose proof (no_positive_tps _ _ _ _ _ Hneg Hb) as H.
      destruct Hext as [[= _ -> _]|(t0 & _ & [= _ -> _])];
        [exact H|constructor; [reflexivity|exact H]]. }
    rewrite (rate_zeros _ _ Hz Htpr) in Hb'.
    apply lookup_replicate in Hb' as [-> _]. apply f_score_nan_r.
Qed.

(** Every candidate threshold is a score of the input, or (the extra
    first point) a score of the input plus one. *)
Lemma roc_curve_thresholds (y_true : list Z) (y_score : list Q)
    (pos_label : Z) (fpr tpr thresholds : list np_float) :
  metrics.roc_curve y_true y_score pos_label = Ok (fpr, tpr, thresholds) →
  Forall (fun t => ∃ q, q ∈ y_score
                        ∧ (t = Num q ∨ t = Num (Qred (q + 1))))
    thresholds.
Proof.
  intros Hrc.
  apply roc_curve_inv in Hrc
    as (fps & tps & thr & fps' & tps' & thr' & Hb & Hext & _ & _ & ->).
  apply binary_clf_curve_inv in Hb as (_ & _ & Hthr).
  assert (Hin : Forall (fun q => q ∈ y_score) thr).
  { eapply traverse_getitem_Forall; [|exact Hthr].
    apply Forall_fmap.
    apply (sorted_pairs_Forall (fun p => p.1 ∈ y_score)).
    apply (zip_Forall_fst (fun q => q ∈ y_score)).
    apply Forall_forall. auto. }
  assert (Hnum : Forall (fun t => ∃ q, q ∈ y_score
                     ∧ (t = Num q ∨ t = Num (Qred (q + 1)))) (map Num thr)).
  { apply Forall_fmap. eapply Forall_impl; [exact Hin|].
    cbn beta. intros q Hq. exists q. auto. }
  destruct Hext as [[= _ _ ->]|(t0 & Ht0 & [= _ _ ->])]; [exact Hnum|].
  cbn [map]. constructor; [|exact Hnum].
  exists t0. split; [|auto].
  destruct thr as [|t1 thr]; [discriminate|]. injection Ht0 as ->.
  inversion Hin; assumption.
Qed.

End curve_facts.

(** ** The curve points come by increasing false positive rate *)

Module order_facts.

Lemma cumsum_from_bound (a : list Z) :
  Forall is_bit a →
  ∀ acc k x, np.cumsum_from acc a !! k = Some x →
    acc <= x <= acc + Z.of_nat k + 1.
Proof.
  induction 1 as [|b a Hb _ IH]; intros acc k x; simpl.
  - rewrite lookup_nil. discriminate.
  - destruct k as [|k]; simpl.
    + intros [= <-]. destruct Hb; lia.
    + intros H. apply IH in H. destruct Hb; lia.
Qed.

Lemma cumsum_from_step (a : list Z) :
  Forall is_bit a →
  ∀ acc i i' x x', (i <= i')%nat →
    np.cumsum_from acc a !! i = Some x →
    np.cumsum_from acc a !! i' = Some x' →
    0 <= x' - x <= Z.of_nat i' - Z.of_nat i.
Proof.
  induction 1 as [|b a Hb Ha IH]; intros acc i i' x x' Hle; simpl.
  - rewrite lookup_nil. discriminate.
  - destruct i as [|i], i' as [|i']; simpl; try lia.
    + intros [= <-] [= <-]. lia.
    + intros [= <-] H. apply (cumsum_from_bound a Ha) in H. lia.
    + intros H1 H2. pose proof (IH _ i i' x x' ltac:(lia) H1 H2). lia.
Qed.

Lemma distinct_value_indices_sorted (y_score : list Q) :
  ∀ i j j' a b, (j <= j')%nat →
    metrics.distinct_value_indices i y_score !! j = Some a →
    metrics.distinct_value_indices i y_score !! j' = Some b →
    a <= b.
Proof.
  induction y_score as [|x [|y rest] IH]; intros i j j' a b Hle;
    cbn [metrics.distinct_value_indices];
    try (rewrite lookup_nil; discriminate).
  destruct (Qeq_bool (y - x) 0); [apply IH; exact Hle|].
  destruct j as [|j], j' as [|j']; cbn [lookup list_lookup]; try lia.
  - intros [= <-] [= <-]. lia.
  - intros [= <-] H.
    pose proof (metrics_facts.distinct_value_indices_range (y :: rest) (i + 1))
      as Hr.
    pose proof (Forall_lookup_1 _ _ _ _ Hr H) as Hb. cbn beta in Hb. lia.
  - apply IH. lia.
Qed.

Lemma threshold_idxs_sorted (y_true : list Z) (y_score : list Q)
    (pos_label : Z) (j j' : nat) (a b : Z) :
  (j <= j')%nat →
  threshold_idxs y_true y_score pos_label !! j = Some a →
  threshold_idxs y_true y_score pos_label !! j' = Some b →
  a <= b.
Proof.
  unfold threshold_idxs. intros Hle Ha Hb.
  set (d := metrics.distinct_value_indices 0
              (sorted_pairs y_true y_score pos_label).*1) in *.
  set (n := Z.of_nat (length (sorted_pairs y_true y_score pos_label).*2)) in *.
  assert (Hd : Forall (fun i => i < n - 1 ∨ i <= n - 1) d).
  { eapply Forall_impl;
      [apply (metrics_facts.distinct_value_indices_range _ 0)|].
    cbn beta. intros i Hi. right. unfold n. rewrite !length_fmap in *. lia. }
  apply lookup_app_Some in Ha as [Ha|[Hja Ha]];
    apply lookup_app_Some in Hb as [Hb|[Hjb Hb]].
  - eapply distinct_value_indices_sorted; eassumption.
  - apply list_lookup_singleton_Some in Hb as [_ <-].
    pose proof (Forall_lookup_1 _ _ _ _ Hd Ha) as H. cbn beta in H. lia.
  - apply lookup_lt_Some in Hb. lia.
  - apply list_lookup_singleton_Some in Ha as [_ <-].
    apply list_lookup_singleton_Some in Hb as [_ <-]. lia.
Qed.

Lemma sorted_bits (y_true : list Z) (y_score : list Q) (pos_label : Z) :
  Forall is_bit
    (map metrics.bool_to_Z (sorted_pairs y_true y_score pos_label).*2).
Proof.
  apply Forall_fmap, Forall_forall. intros b _.
  destruct b; [right|left]; reflexivity.
Qed.

(** The false positive counts of [_binary_clf_curve] are non-negative
    and never decrease along the curve. *)
Lemma fps_increasing (y_true : list Z) (y_score : list Q) (pos_label : Z)
    (fps tps : list Z) (thr : list Q) :
  y_score ≠ [] → length y_true = length y_score →
  metrics.binary_clf_curve y_true y_score pos_label = Ok (fps, tps, thr) →
  Forall (fun f => 0 <= f) fps
  ∧ ∀ j j' a b, (j <= j')%nat → fps !! j = Some a → fps !! j' = Some b →
      a <= b.
Proof.
  intros Hne Hlen Hb.
  apply curve_facts.binary_clf_curve_inv in Hb as (Htps & -> & _).
  pose proof (curve_facts.threshold_idxs_nonneg y_true y_score pos_label
                Hne Hlen) as Hnn.
  pose proof (sorted_bits y_true y_score pos_label) as Hbits.
  assert (Hcell : ∀ j f,
            zip_with (fun i t => 1 + i - t)
              (threshold_idxs y_true y_score pos_label) tps !! j = Some f →
            ∃ i t, f = 1 + i - t ∧ 0 <= i
                   ∧ threshold_idxs y_true y_score pos_label !! j = Some i
                   ∧ np.cumsum_from 0
                       (map metrics.bool_to_Z
                          (sorted_pairs y_true y_score pos_label).*2)
                       !! Z.to_nat i = Some t).
  { intros j f Hj.
    apply lookup_zip_with_Some in Hj as (i & t & -> & Hi & Ht).
    destruct (traverse_Ok_lookup _ _ _ Htps j i Hi) as (t' & Ht' & Hg).
    rewrite Ht in Ht'. injection Ht' as <-.
    pose proof (Forall_lookup_1 _ _ _ _ Hnn Hi) as Hi0. cbn beta in Hi0.
    apply curve_facts.getitem_nonneg in Hg; [|exact Hi0].
    exists i, t. auto. }
  split.
  - apply Forall_lookup_2. intros j f Hj.
    destruct (Hcell j f Hj) as (i & t & -> & Hi0 & _ & Ht).
    apply (cumsum_from_bound _ Hbits) in Ht. lia.
  - intros j j' a b Hle Ha Hb.
    destruct (Hcell j a Ha) as (i & t & -> & Hi0 & Hi & Ht).
    destruct (Hcell j' b Hb) as (i' & t' & -> & Hi0' & Hi' & Ht').
    pose proof (threshold_idxs_sorted _ _ _ j j' i i' Hle Hi Hi') as Hii.
    pose proof (cumsum_from_step _ Hbits 0 (Z.to_nat i) (Z.to_nat i') t t'
                  ltac:(lia) Ht Ht') as Hstep.
    lia.
Qed.

Lemma rate_increasing (counts : list Z) (r : list np_float) :
  (∀ j j' a b, (j <= j')%nat → counts !! j = Some a →
     counts !! j' = Some b → a <= b) →
  metrics.rate counts = Ok r → rates_increasing r.
Proof.
  intros Hinc. unfold metrics.rate.
  destruct (getitem counts (-1)) as [last|e]; [|discriminate].
  cbn [mbind result_bind].
  destruct (Z.leb_spec last 0) as [Hl|Hl]; intros [= <-]; intros j j' a b Hle.
  - intros Ha Hb. apply lookup_replicate in Ha as [-> _].
    apply lookup_replicate in Hb as [-> _]. auto.
  - rewrite !list_lookup_fmap. intros Ha Hb.
    destruct (counts !! j) as [ca|] eqn:Eca; [|discriminate].
    destruct (counts !! j') as [cb|] eqn:Ecb; [|discriminate].
    injection Ha as <-. injection Hb as <-. left.
    pose proof (Hinc j j' ca cb Hle Eca Ecb) as Hab.
    unfold np.div, np.of_Z, np.Qzero.
    assert (Hnz : Qeq_bool (inject_Z last) 0 = false).
    { destruct (Qeq_bool (inject_Z last) 0) eqn:E; [|reflexivity].
      apply Qeq_bool_iff in E. unfold Qeq in E. simpl in E. lia. }
    rewrite Hnz. cbn [np.le]. apply Qle_bool_iff.
    rewrite !Qred_correct.
    unfold Qdiv. apply Qmult_le_compat_r.
    + rewrite <- Zle_Qle. exact Hab.
    + apply Qinv_le_0_compat. replace 0%Q with (inject_Z 0) by reflexivity.
      rewrite <- Zle_Qle. lia.
Qed.

(** The false positive rates [roc_curve] returns never decrease along
    the curve: its points come by increasing FPR. *)
Lemma roc_curve_fpr_increasing (y_true : list Z) (y_score : list Q)
    (pos_label : Z) (fpr tpr thresholds : list np_float) :
  metrics.roc_curve y_true y_score pos_label = Ok (fpr, tpr, thresholds) →
  rates_increasing fpr.
Proof.
  intros Hrc.
  assert (Hlen : length y_true = length y_score).
  { unfold metrics.roc_curve, metrics.binary_clf_curve in Hrc.
    destruct (Nat.eqb_spec (length y_true) (length y_score));
      [assumption|discriminate]. }
  apply curve_facts.roc_curve_inv in Hrc
    as (fps & tps & thr & fps' & tps' & thr' & Hb & Hext & Hfpr & _).
  destruct (decide (y_score = [])) as [->|Hne].
  { destruct y_true; [|discriminate]. vm_compute in Hb. discriminate. }
  destruct (fps_increasing _ _ _ _ _ _ Hne Hlen Hb) as [Hpos Hinc].
  eapply rate_increasing; [|exact Hfpr].
  destruct Hext as [[= -> _ _]|(t0 & _ & [= -> _ _])]; [exact Hinc|].
  intros [|j] [|j'] a b Hle; cbn [lookup list_lookup]; try lia.
  - intros [= <-] [= <-]. lia.
  - intros [= <-] H. exact (Forall_lookup_1 _ _ _ _ Hpos H).
  - apply Hinc. lia.
Qed.

End order_facts.

(** ** Rounding to float64 keeps the order *)

Module f64_facts.

(** ** Powers of two *)

Lemma pow2_pos (e : Z) : (0 < 2 ^ e)%Q.
Proof. apply Qpower_0_lt. reflexivity. Qed.

Lemma pow2_add (a b : Z) : (2 ^ (a + b) == 2 ^ a * 2 ^ b)%Q.
Proof. apply Qpower_plus. discriminate. Qed.

Lemma pow2_mono (a b : Z) : a <= b → (2 ^ a <= 2 ^ b)%Q.
Proof. intros H. apply Qpower_le_compat_l; [exact H|discriminate]. Qed.

Lemma pow2_Z (k : Z) : 0 <= k → (inject_Z (2 ^ k) == 2 ^ k)%Q.
Proof. intros H. apply (Zpower_Qpower 2 k H). Qed.

Lemma pow2_cancel (a : Z) : (2 ^ a * 2 ^ (- a) == 1)%Q.
Proof. rewrite <- pow2_add, Z.add_opp_diag_r. reflexivity. Qed.

(** ** Rounding to the nearest integer *)

Lemma rne_bounds (n d : Z) :
  0 < d →
  d * (2 * f64.rne n d - 1) <= 2 * n <= d * (2 * f64.rne n d + 1)
  ∧ (2 * n = d * (2 * f64.rne n d - 1) → Z.even (f64.rne n d) = true)
  ∧ (2 * n = d * (2 * f64.rne n d + 1) → Z.even (f64.rne n d) = true).
Proof.
  intros Hd. unfold f64.rne.
  pose proof (Z.div_mod n d ltac:(lia)) as Hn.
  pose proof (Z.mod_pos_bound n d Hd) as Hr.
  set (q := n / d) in *. set (r := n mod d) in *.
  destruct (Z.compare_spec (2 * r) d) as [E|E|E].
  - destruct (Z.even q) eqn:Ev.
    + split; [nia|]. split; [nia|]. intros _. exact Ev.
    + split; [nia|]. split; [|nia]. intros _.
      rewrite Z.even_add, Ev. reflexivity.
  - split; [nia|]. split; nia.
  - split; [nia|]. split; nia.
Qed.

Lemma rne_mono (n1 d1 n2 d2 : Z) :
  0 < d1 → 0 < d2 → n1 * d2 <= n2 * d1 →
  f64.rne n1 d1 <= f64.rne n2 d2.
Proof.
  intros H1 H2 Hle.
  destruct (rne_bounds n1 d1 H1) as ([L1 _] & T1 & _).
  destruct (rne_bounds n2 d2 H2) as ([_ U2] & _ & T2).
  set (m1 := f64.rne n1 d1) in *. set (m2 := f64.rne n2 d2) in *.
  destruct (Z_le_gt_dec m1 m2) as [?|Hgt]; [assumption|exfalso].
  assert (A : (2 * m1 - 1) * (d1 * d2) <= 2 * n1 * d2) by nia.
  assert (B : 2 * n2 * d1 <= (2 * m2 + 1) * (d1 * d2)) by nia.
  assert (C : 0 < d1 * d2) by nia.
  assert (D : (2 * m1 - 1) * (d1 * d2) <= (2 * m2 + 1) * (d1 * d2)) by lia.
  assert (E : m1 = m2 + 1) by nia.
  assert (F1 : 2 * n1 = d1 * (2 * m1 - 1)) by nia.
  assert (F2 : 2 * n2 = d2 * (2 * m2 + 1)) by nia.
  specialize (T1 F1). specialize (T2 F2).
  rewrite E, Z.even_add, T2 in T1. discriminate.
Qed.

Lemma rneQ_mono (x y : Q) : (x <= y)%Q → f64.rneQ x <= f64.rneQ y.
Proof.
  intros H. unfold f64.rneQ. apply rne_mono; try reflexivity.
  exact H.
Qed.

Lemma rneQ_Z (k : Z) : f64.rneQ (inject_Z k) = k.
Proof.
  unfold f64.rneQ, f64.rne. simpl.
  rewrite Z.div_1_r, Z.mod_1_r. reflexivity.
Qed.

Lemma rneQ_eq (x : Q) (k : Z) : (x == inject_Z k)%Q → f64.rneQ x = k.
Proof.
  intros H.
  assert (H1 : f64.rneQ x <= f64.rneQ (inject_Z k))
    by (apply rneQ_mono; rewrite H; apply Qle_refl).
  assert (H2 : f64.rneQ (inject_Z k) <= f64.rneQ x)
    by (apply rneQ_mono; rewrite H; apply Qle_refl).
  rewrite rneQ_Z in H1, H2. lia.
Qed.

(** ** The exponent of a positive number *)

Lemma exponent_spec (q : Q) :
  (0 < q)%Q →
  (2 ^ f64.exponent q <= q)%Q ∧ (q < 2 ^ (f64.exponent q + 1))%Q.
Proof.
  intros Hq. destruct q as [n d]. unfold f64.exponent. cbn [Qnum Qden].
  assert (Hn : 0 < n) by (unfold Qlt in Hq; simpl in Hq; lia).
  pose proof (Z.log2_spec n Hn) as [La Ua].
  pose proof (Z.log2_spec (Z.pos d) ltac:(lia)) as [Lb Ub].
  pose proof (Z.log2_nonneg n) as Ha0.
  pose proof (Z.log2_nonneg (Z.pos d)) as Hb0.
  set (a := Z.log2 n) in *. set (b := Z.log2 (Z.pos d)) in *.
  assert (Qn : ((n # d) * inject_Z (Z.pos d) == inject_Z n)%Q).
  { unfold Qeq. simpl. lia. }
  assert (La' : (2 ^ a <= inject_Z n)%Q)
    by (rewrite <- pow2_Z by lia; rewrite <- Zle_Qle; exact La).
  assert (Ua' : (inject_Z n < 2 ^ (a + 1))%Q).
  { rewrite <- pow2_Z by lia. rewrite <- Zlt_Qlt.
    replace (a + 1) with (Z.succ a) by lia. exact Ua. }
  assert (Lb' : (2 ^ b <= inject_Z (Z.pos d))%Q)
    by (rewrite <- pow2_Z by lia; rewrite <- Zle_Qle; exact Lb).
  assert (Ub' : (inject_Z (Z.pos d) < 2 ^ (b + 1))%Q).
  { rewrite <- pow2_Z by lia. rewrite <- Zlt_Qlt.
    replace (b + 1) with (Z.succ b) by lia. exact Ub. }
  pose proof (pow2_pos b) as Pb. pose proof (pow2_pos (b + 1)) as Pb1.
  (* q < 2^(a-b+1) and 2^(a-b-1) < q *)
  assert (Hup : ((n # d) < 2 ^ (a - b + 1))%Q).
  { replace (a - b + 1) with ((a + 1) + - b) by lia.
    rewrite pow2_add.
    pose proof (pow2_cancel b) as Hc. pose proof (pow2_pos (- b)) as Pnb.
    apply Qle_lt_trans with (inject_Z n * 2 ^ (- b))%Q.
    - rewrite <- Qn.
      rewrite <- (Qmult_1_r (n # d)) at 1. rewrite <- Hc, Qmult_assoc.
      apply Qmult_le_compat_r; [|apply Qlt_le_weak, Pnb].
      apply Qmult_le_l; [exact Hq|exact Lb'].
    - apply Qmult_lt_compat_r; [exact Pnb|exact Ua']. }
  assert (Hlo : (2 ^ (a - b - 1) <= (n # d))%Q).
  { replace (a - b - 1) with (a + - (b + 1)) by lia.
    rewrite pow2_add.
    pose proof (pow2_cancel (b + 1)) as Hc.
    pose proof (pow2_pos (- (b + 1))) as Pnb.
    apply Qle_trans with (inject_Z n * 2 ^ (- (b + 1)))%Q.
    - apply Qmult_le_compat_r; [exact La'|apply Qlt_le_weak, Pnb].
    - rewrite <- Qn.
      rewrite <- (Qmult_1_r (n # d)) at 2. rewrite <- Hc, Qmult_assoc.
      apply Qmult_le_compat_r; [|apply Qlt_le_weak, Pnb].
      apply Qmult_le_l; [exact Hq|apply Qlt_le_weak, Ub']. }
  destruct (Qle_bool (2 ^ (a - b)) (n # d)) eqn:E.
  - apply Qle_bool_iff in E. split; assumption.
  - assert (E' : ((n # d) < 2 ^ (a - b))%Q).
    { apply Qnot_le_lt. intros H. apply Qle_bool_iff in H. congruence. }
    split; [exact Hlo|].
    replace (a - b - 1 + 1) with (a - b) by lia. exact E'.
Qed.

Lemma exponent_mono (p q : Q) :
  (0 < p)%Q → (p <= q)%Q → f64.exponent p <= f64.exponent q.
Proof.
  intros Hp Hpq.
  destruct (exponent_spec p Hp) as [Lp _].
  destruct (exponent_spec q (Qlt_le_trans _ _ _ Hp Hpq)) as [_ Uq].
  destruct (Z_le_gt_dec (f64.exponent p) (f64.exponent q)) as [?|Hgt];
    [assumption|exfalso].
  assert (H : (2 ^ (f64.exponent q + 1) <= 2 ^ f64.exponent p)%Q)
    by (apply pow2_mono; lia).
  apply (Qlt_irrefl q).
  eapply Qlt_le_trans; [exact Uq|].
  eapply Qle_trans; [exact H|]. eapply Qle_trans; eassumption.
Qed.

(** ** Rounding to the nearest float *)

Lemma nearest_pos_value (q : Q) :
  (0 < q)%Q →
  (f64.nearest_pos q
   == inject_Z (f64.rneQ (q * 2 ^ (- f64.ulp_exponent q)))
      * 2 ^ f64.ulp_exponent q)%Q.
Proof.
  intros Hq. unfold f64.nearest_pos.
  destruct (Qeq_bool q 0) eqn:E.
  - apply Qeq_bool_iff in E. rewrite E in Hq. discriminate.
  - apply Qred_correct.
Qed.

Lemma nearest_pos_zero (q : Q) : (q == 0)%Q → f64.nearest_pos q = 0%Q.
Proof.
  intros H. unfold f64.nearest_pos.
  apply Qeq_bool_iff in H. rewrite H. reflexivity.
Qed.

Lemma rneQ_nonneg (x : Q) : (0 <= x)%Q → 0 <= f64.rneQ x.
Proof. intros H. rewrite <- (rneQ_Z 0). apply rneQ_mono, H. Qed.

Lemma nearest_pos_nonneg (q : Q) : (0 <= q)%Q → (0 <= f64.nearest_pos q)%Q.
Proof.
  intros H. destruct (Qeq_dec q 0) as [E|E].
  - rewrite (nearest_pos_zero q E). apply Qle_refl.
  - assert (Hq : (0 < q)%Q).
    { apply Qle_lteq in H as [H|H]; [exact H|]. symmetry in H. contradiction. }
    rewrite (nearest_pos_value q Hq).
    apply Qmult_le_0_compat; [|apply Qlt_le_weak, pow2_pos].
    change 0%Q with (inject_Z 0). rewrite <- Zle_Qle.
    apply rneQ_nonneg, Qmult_le_0_compat; [exact H|].
    apply Qlt_le_weak, pow2_pos.
Qed.

(** A power of two on the grid of [s] is left alone. *)
Lemma grid_pow2 (e s : Z) :
  s <= e → (2 ^ e * 2 ^ (- s) == inject_Z (2 ^ (e - s)))%Q.
Proof.
  intros H. rewrite pow2_Z by lia. rewrite <- pow2_add.
  replace (e + - s) with (e - s) by lia. reflexivity.
Qed.

Lemma nearest_pos_mono (p q : Q) :
  (0 <= p)%Q → (p <= q)%Q → (f64.nearest_pos p <= f64.nearest_pos q)%Q.
Proof.
  intros Hp Hpq.
  destruct (Qeq_dec p 0) as [E|E].
  { rewrite (nearest_pos_zero p E). apply nearest_pos_nonneg.
    eapply Qle_trans; eassumption. }
  assert (Hp0 : (0 < p)%Q).
  { apply Qle_lteq in Hp as [H|H]; [exact H|]. symmetry in H. contradiction. }
  assert (Hq0 : (0 < q)%Q) by (eapply Qlt_le_trans; eassumption).
  rewrite (nearest_pos_value p Hp0), (nearest_pos_value q Hq0).
  pose proof (exponent_mono p q Hp0 Hpq) as He.
  destruct (exponent_spec p Hp0) as [_ Up].
  destruct (exponent_spec q Hq0) as [Lq _].
  unfold f64.ulp_exponent.
  set (ep := f64.exponent p) in *. set (eq_ := f64.exponent q) in *.
  set (sp := Z.max ep (-1022) - 52). set (sq := Z.max eq_ (-1022) - 52).
  destruct (Z.eq_dec sp sq) as [Es|Es].
  - rewrite Es. apply Qmult_le_compat_r; [|apply Qlt_le_weak, pow2_pos].
    rewrite <- Zle_Qle. apply rneQ_mono.
    apply Qmult_le_compat_r; [exact Hpq|apply Qlt_le_weak, pow2_pos].
  - assert (Hs : sp < sq ∧ sq = eq_ - 52 ∧ ep < eq_) by lia.
    destruct Hs as (Hlt & Hsq & Hep).
    apply Qle_trans with (2 ^ eq_)%Q.
    + (* the rounding of [p] stays below the power of two above it *)
      assert (Hm : f64.rneQ (p * 2 ^ (- sp)) <= 2 ^ (eq_ - sp)).
      { rewrite <- (rneQ_eq (2 ^ eq_ * 2 ^ (- sp)) (2 ^ (eq_ - sp)))
          by (apply grid_pow2; lia).
        apply rneQ_mono.
        apply Qmult_le_compat_r; [|apply Qlt_le_weak, pow2_pos].
        apply Qlt_le_weak. eapply Qlt_le_trans; [exact Up|].
        apply pow2_mono. lia. }
      apply Qle_trans with (inject_Z (2 ^ (eq_ - sp)) * 2 ^ sp)%Q.
      * apply Qmult_le_compat_r; [|apply Qlt_le_weak, pow2_pos].
        rewrite <- Zle_Qle. exact Hm.
      * rewrite pow2_Z by lia. rewrite <- pow2_add.
        replace (eq_ - sp + sp) with eq_ by lia. apply Qle_refl.
    + (* the rounding of [q] stays above the power of two below it *)
      assert (Hm : 2 ^ (eq_ - sq) <= f64.rneQ (q * 2 ^ (- sq))).
      { rewrite <- (rneQ_eq (2 ^ eq_ * 2 ^ (- sq)) (2 ^ (eq_ - sq)))
          by (apply grid_pow2; lia).
        apply rneQ_mono.
        apply Qmult_le_compat_r; [exact Lq|apply Qlt_le_weak, pow2_pos]. }
      apply Qle_trans with (inject_Z (2 ^ (eq_ - sq)) * 2 ^ sq)%Q.
      * rewrite pow2_Z by lia. rewrite <- pow2_add.
        replace (eq_ - sq + sq) with eq_ by lia. apply Qle_refl.
      * apply Qmult_le_compat_r; [|apply Qlt_le_weak, pow2_pos].
        rewrite <- Zle_Qle. exact Hm.
Qed.

Lemma rneQ_bounds (x : Q) :
  (inject_Z (2 * f64.rneQ x - 1) <= 2 * x)%Q
  ∧ (2 * x <= inject_Z (2 * f64.rneQ x + 1))%Q.
Proof.
  destruct (rne_bounds (Qnum x) (Z.pos (Qden x)) ltac:(lia)) as ([L U] & _).
  fold (f64.rneQ x) in L, U. destruct x as [n d]. cbn [Qnum Qden] in *.
  unfold Qle. cbn. split; nia.
Qed.

(** [nearest_pos q] is a multiple [m * 2^s] of the unit in the last place
    of [q], at most half a unit away from [q]; [m] has at most 53 bits,
    or is [2^53] when [q] rounds up to the next power of two. *)
Lemma nearest_pos_spec (q : Q) :
  (0 < q)%Q →
  ∃ m, (f64.nearest_pos q == inject_Z m * 2 ^ f64.ulp_exponent q)%Q
       ∧ (inject_Z (2 * m - 1) * 2 ^ f64.ulp_exponent q <= 2 * q)%Q
       ∧ (2 * q <= inject_Z (2 * m + 1) * 2 ^ f64.ulp_exponent q)%Q
       ∧ 0 <= m <= 2 ^ 53.
Proof.
  intros Hq. set (s := f64.ulp_exponent q).
  exists (f64.rneQ (q * 2 ^ (- s))).
  split; [apply nearest_pos_value, Hq|].
  destruct (rneQ_bounds (q * 2 ^ (- s))) as [L U].
  pose proof (pow2_pos s) as Ps. pose proof (pow2_cancel s) as Hc.
  assert (Hq2 : (2 * q == 2 * (q * 2 ^ (- s)) * 2 ^ s)%Q).
  { rewrite <- !Qmult_assoc, (Qmult_comm (2 ^ (- s))), Hc. ring. }
  split; [|split].
  - rewrite Hq2. apply Qmult_le_compat_r; [exact L|apply Qlt_le_weak, Ps].
  - rewrite Hq2. apply Qmult_le_compat_r; [exact U|apply Qlt_le_weak, Ps].
  - split.
    + apply rneQ_nonneg, Qmult_le_0_compat;
        [apply Qlt_le_weak, Hq|apply Qlt_le_weak, pow2_pos].
    + destruct (exponent_spec q Hq) as [_ Uq].
      assert (Hs : f64.exponent q + 1 - s <= 53)
        by (unfold s, f64.ulp_exponent; lia).
      assert (Hs0 : 0 <= 53) by lia.
      rewrite <- (rneQ_eq (2 ^ (s + 53) * 2 ^ (- s)) (2 ^ 53)).
      * apply rneQ_mono.
        apply Qmult_le_compat_r; [|apply Qlt_le_weak, pow2_pos].
        apply Qlt_le_weak. eapply Qlt_le_trans; [exact Uq|].
        apply pow2_mono. lia.
      * rewrite grid_pow2 by lia.
        replace (s + 53 - s) with 53 by lia. reflexivity.
Qed.

Lemma nearest_mono (p q : Q) :
  (p <= q)%Q → (f64.nearest p <= f64.nearest q)%Q.
Proof.
  intros Hpq. unfold f64.nearest.
  destruct (Qle_bool 0 p) eqn:Ep, (Qle_bool 0 q) eqn:Eq.
  - apply Qle_bool_iff in Ep. apply nearest_pos_mono; assumption.
  - apply Qle_bool_iff in Ep. exfalso.
    assert (H : Qle_bool 0 q = true)
      by (apply Qle_bool_iff; eapply Qle_trans; eassumption).
    congruence.
  - apply Qle_bool_iff in Eq. rewrite Qred_correct.
    assert (Hp : (0 <= - p)%Q).
    { apply Qnot_lt_le. intros H.
      assert (H' : (0 <= p)%Q) by lra.
      apply Qle_bool_iff in H'. congruence. }
    pose proof (nearest_pos_nonneg (- p) Hp).
    pose proof (nearest_pos_nonneg q Eq). lra.
  - rewrite !Qred_correct.
    assert (Hq : (0 <= - q)%Q).
    { apply Qnot_lt_le. intros H.
      assert (H' : (0 <= q)%Q) by lra.
      apply Qle_bool_iff in H'. congruence. }
    assert (H : (f64.nearest_pos (- q) <= f64.nearest_pos (- p))%Q)
      by (apply nearest_pos_mono; [exact Hq|lra]).
    lra.
Qed.

Lemma round_not_nan (q : Q) : np.isnan (f64.round q) = false.
Proof.
  unfold f64.round.
  destruct (Qle_bool _ _); [reflexivity|].
  destruct (Qle_bool _ _); reflexivity.
Qed.

Lemma rnd_isnan (x : np_float) : np.isnan (f64.rnd x) = np.isnan x.
Proof. destruct x; try reflexivity. apply round_not_nan. Qed.

(** Rounding keeps the order of two numbers. *)
Lemma round_mono (p q : Q) :
  (p <= q)%Q → np.le (f64.round p) (f64.round q) = true.
Proof.
  intros Hpq. pose proof (nearest_mono p q Hpq) as Hv.
  unfold f64.round.
  set (vp := f64.nearest p) in *. set (vq := f64.nearest q) in *.
  assert (Hlim : (- 2 ^ 1024 < 2 ^ 1024)%Q) by reflexivity.
  destruct (Qle_bool (2 ^ 1024) vq) eqn:E1.
  { destruct (Qle_bool (2 ^ 1024) vp); [reflexivity|].
    destruct (Qle_bool vp (- 2 ^ 1024)); reflexivity. }
  assert (E1' : (vq < 2 ^ 1024)%Q).
  { apply Qnot_le_lt. intros H. apply Qle_bool_iff in H. congruence. }
  assert (E0 : Qle_bool (2 ^ 1024) vp = false).
  { destruct (Qle_bool (2 ^ 1024) vp) eqn:E; [|reflexivity].
    apply Qle_bool_iff in E. exfalso. lra. }
  rewrite E0.
  destruct (Qle_bool vq (- 2 ^ 1024)) eqn:E2.
  { apply Qle_bool_iff in E2.
    assert (E3 : Qle_bool vp (- 2 ^ 1024) = true)
      by (apply Qle_bool_iff; lra).
    rewrite E3. reflexivity. }
  destruct (Qle_bool vp (- 2 ^ 1024)); [reflexivity|].
  simpl. apply Qle_bool_iff. exact Hv.
Qed.

Lemma rnd_mono (x y : np_float) :
  np.le x y = true → np.le (f64.rnd x) (f64.rnd y) = true.
Proof.
  destruct x as [p| | |], y as [q| | |]; simpl; try discriminate;
    intros H; try reflexivity.
  - apply round_mono, Qle_bool_iff, H.
  - pose proof (round_not_nan p) as Hn.
    destruct (f64.round p); try reflexivity. discriminate.
  - pose proof (round_not_nan q) as Hn.
    destruct (f64.round q); try reflexivity. discriminate.
Qed.

(** A number between two floats rounds to a float between them. *)
Lemma round_between (lo hi q : Q) :
  f64.round lo = Num lo → f64.round hi = Num hi →
  (lo <= q)%Q → (q <= hi)%Q →
  ∃ v, f64.round q = Num v ∧ (lo <= v)%Q ∧ (v <= hi)%Q.
Proof.
  intros Hlo Hhi H1 H2.
  pose proof (round_mono lo q H1) as M1.
  pose proof (round_mono q hi H2) as M2.
  rewrite Hlo in M1. rewrite Hhi in M2.
  destruct (f64.round q) as [v| | |]; simpl in M1, M2; try discriminate.
  exists v. split; [reflexivity|].
  split; apply Qle_bool_iff; assumption.
Qed.

Lemma rates_increasing_rnd (r : list np_float) :
  rates_increasing r → rates_increasing (map f64.rnd r).
Proof.
  intros H j j' a b Hj Ha Hb.
  change (map f64.rnd r) with (f64.rnd <$> r) in Ha, Hb.
  rewrite list_lookup_fmap in Ha, Hb.
  destruct (r !! j) as [a0|] eqn:Ea; [|discriminate].
  destruct (r !! j') as [b0|] eqn:Eb; [|discriminate].
  simpl in Ha, Hb. injection Ha as <-. injection Hb as <-.
  destruct (H j j' a0 b0 Hj Ea Eb) as [Hle|[-> ->]].
  - left. apply rnd_mono, Hle.
  - right. split; reflexivity.
Qed.

(** Some values: the decimal literals the model is run on, a tie, the
    smallest subnormal number and half of it, the largest float and the
    middle between it and [2^1024]. *)
Lemma round_samples :
  f64.round (1 # 10) = Num (3602879701896397 # 36028797018963968)
  ∧ f64.round (2 # 3) = Num (6004799503160661 # 9007199254740992)
  ∧ f64.round (inject_Z (2 ^ 53 + 1)) = Num (inject_Z (2 ^ 53))
  ∧ f64.round (inject_Z (2 ^ 53 + 3)) = Num (inject_Z (2 ^ 53 + 4))
  ∧ f64.round (2 ^ (-1074)) = Num (2 ^ (-1074))
  ∧ f64.round (2 ^ (-1075)) = Num 0
  ∧ f64.round (3 * 2 ^ (-1075)) = Num (2 ^ (-1073))
  ∧ f64.round (2 ^ 1024 - 2 ^ 971) = Num (2 ^ 1024 - 2 ^ 971)
  ∧ f64.round (2 ^ 1024 - 2 ^ 970) = PInf
  ∧ f64.round (- (1 # 10)) = Num (- 3602879701896397 # 36028797018963968).
Proof. vm_compute. repeat split. Qed.

End f64_facts.

(** ** The F array in float64 *)

Lemma f_score64_zip (fpr tpr : list np_float) :
  zip_with f64.div
    (map (f64.mul (np.of_Z 2))
       (zip_with f64.mul (map (f64.sub (np.of_Z 1)) fpr) tpr))
    (zip_with f64.add (map (f64.sub (np.of_Z 1)) fpr) tpr)
  = f_score_curve64 fpr tpr.
Proof.
  revert tpr. induction fpr as [|a fpr IH]; intros [|b tpr];
    try reflexivity.
  cbn [map zip_with f_score_curve64]. f_equal. apply IH.
Qed.

Lemma f_scores_of64_curve (fpr tpr : list np_float) :
  length fpr = length tpr →
  f_scores_of64 fpr tpr = Ok (f_score_curve64 fpr tpr).
Proof.
  intros Hlen. unfold f_scores_of64, np.broadcast.
  rewrite length_map, Hlen, Nat.eqb_refl. cbn [mbind result_bind].
  rewrite length_map, !length_zip_with, length_map, Hlen, Nat.eqb_refl.
  rewrite f_score64_zip. reflexivity.
Qed.

Lemma f_score_curve64_lookup (fpr tpr : list np_float) (j : nat)
    (f : np_float) :
  f_score_curve64 fpr tpr !! j = Some f ↔
  ∃ a b, fpr !! j = Some a ∧ tpr !! j = Some b ∧ f = f_score64 a b.
Proof.
  unfold f_score_curve64. rewrite lookup_zip_with_Some.
  split; intros (a & b & H1 & H2 & H3); exists a, b; auto.
Qed.

(** What [get_best_threshold64] does on a well-shaped curve: it returns
    the threshold and the F value found at [np.argmax] of the float64
    F array. *)
Lemma get_best_threshold64_run (roc_curve : roc_curve_fn)
    (Y_ref : list Z) (Y_pred_score : list Q) (plot : bool)
    (fpr tpr thresholds : list np_float) :
  roc_curve Y_ref Y_pred_score 1 = Ok (fpr, tpr, thresholds) →
  curve_shape fpr tpr thresholds →
  ∃ k t f fig,
    get_best_threshold64 roc_curve Y_ref Y_pred_score plot = Ok (t, f, fig)
    ∧ thresholds !! k = Some t
    ∧ f_score_curve64 fpr tpr !! k = Some f
    ∧ (nan_free (f_score_curve64 fpr tpr) →
         first_max (f_score_curve64 fpr tpr) k)
    ∧ (¬ nan_free (f_score_curve64 fpr tpr) →
         first_nan (f_score_curve64 fpr tpr) k).
Proof.
  intros Hrc (Hlen & Hthr & Hne).
  assert (HF : length (f_score_curve64 fpr tpr) = length fpr).
  { unfold f_score_curve64. rewrite length_zip_with. lia. }
  destruct (argmax_spec (f_score_curve64 fpr tpr))
    as (k & Hk & Hlt & Hmax & Hnan).
  { intros E. rewrite E in HF. destruct fpr; [congruence|discriminate]. }
  destruct (lookup_lt_is_Some_2 (f_score_curve64 fpr tpr) k Hlt) as [f Hf].
  destruct (lookup_lt_is_Some_2 thresholds k) as [t Ht]; [lia|].
  exists k, t, f. eexists. split; [|auto].
  unfold get_best_threshold64. rewrite Hrc. cbn [mbind result_bind].
  rewrite (f_scores_of64_curve fpr tpr Hlen). cbn [mbind result_bind].
  rewrite Hk. cbn [mbind result_bind].
  rewrite (getitem_lookup _ _ _ Hf). cbn [mbind result_bind].
  rewrite (getitem_lookup _ _ _ Ht). cbn [mbind result_bind].
  reflexivity.
Qed.

(** In float64 the F value of a point whose rates are rates is a [NaN]
    exactly when [P + R] comes out as zero. *)
Lemma f_score64_nan (x y : np_float) :
  is_probability x → is_probability y →
  f_score64 x y = NaN ↔ zero_sum64 x y.
Proof.
  destruct x as [a| | |], y as [b| | |]; simpl; try tauto.
  intros [Ha0 Ha1] [Hb0 Hb1].
  unfold zero_sum64, f_score64.
  unfold f64.sub at 1 2 3. unfold np.sub, np.neg, np.add, np.of_Z.
  cbn [f64.rnd].
  destruct (f64_facts.round_between 0 1 (Qred (inject_Z 1 + Qred (- a))))
    as (p & -> & Hp0 & Hp1); try reflexivity.
  { rewrite !Qred_correct. change (inject_Z 1) with 1%Q. lra. }
  { rewrite !Qred_correct. change (inject_Z 1) with 1%Q. lra. }
  unfold f64.mul at 2. unfold np.mul. cbn [f64.rnd].
  assert (Hpb0 : (0 <= p * b)%Q) by nra.
  assert (Hpb1 : (p * b <= p)%Q) by nra.
  destruct (f64_facts.round_between 0 1 (Qred (p * b)))
    as (r & Er & Hr0 & Hr1); try reflexivity.
  { rewrite Qred_correct. exact Hpb0. }
  { rewrite Qred_correct. lra. }
  rewrite Er.
  unfold f64.mul. unfold np.mul. cbn [f64.rnd].
  destruct (f64_facts.round_between 0 2 (Qred (inject_Z 2 * r)))
    as (x & Ex & Hx0 & Hx1); try reflexivity.
  { rewrite Qred_correct. change (inject_Z 2) with 2%Q. lra. }
  { rewrite Qred_correct. change (inject_Z 2) with 2%Q. lra. }
  rewrite Ex.
  unfold f64.add. unfold np.add. cbn [f64.rnd].
  destruct (f64_facts.round_between 0 2 (Qred (p + b)))
    as (s & Es & Hs0 & Hs1); try reflexivity.
  { rewrite Qred_correct. lra. }
  { rewrite Qred_correct. lra. }
  rewrite Es. unfold f64.div, np.div, np.Qzero, np.eq.
  change (inject_Z 0) with 0%Q.
  destruct (Qeq_bool s 0) eqn:E0.
  - split; [reflexivity|]. intros _.
    (* the product is below the sum, so it rounds to zero as well *)
    apply Qeq_bool_iff in E0.
    assert (Hr : (r == 0)%Q).
    { pose proof (f64_facts.round_mono (Qred (p * b)) (Qred (p + b))) as M.
      rewrite Er, Es in M. simpl in M.
      assert (Hle : (r <= s)%Q).
      { apply Qle_bool_iff, M. rewrite !Qred_correct. lra. }
      lra. }
    assert (Hx : (x == 0)%Q).
    { destruct (f64_facts.round_between 0 0 (Qred (inject_Z 2 * r)))
        as (x' & Ex' & Hx0' & Hx1'); try reflexivity.
      - rewrite Qred_correct. change (inject_Z 2) with 2%Q. lra.
      - rewrite Qred_correct. change (inject_Z 2) with 2%Q. lra.
      - rewrite Ex in Ex'. injection Ex' as <-. lra. }
    apply Qeq_bool_iff in Hx. rewrite Hx. reflexivity.
  - split; [|discriminate]. intros H. exfalso.
    pose proof (f64_facts.round_not_nan (Qred (x / s))) as Hn.
    cbn [f64.rnd] in H. rewrite H in Hn. discriminate.
Qed.

Lemma roc_curve64_inv (y_true : list Z) (y_score : list Q) (pos_label : Z)
    (fpr tpr thresholds : list np_float) :
  roc_curve64 y_true y_score pos_label = Ok (fpr, tpr, thresholds) →
  ∃ fpr0 tpr0 thresholds0,
    metrics.roc_curve y_true (map f64.nearest y_score) pos_label
      = Ok (fpr0, tpr0, thresholds0)
    ∧ fpr = map f64.rnd fpr0 ∧ tpr = map f64.rnd tpr0
    ∧ thresholds = map f64.rnd thresholds0.
Proof.
  unfold roc_curve64.
  destruct (metrics.roc_curve _ _ _) as [[[f0 t0] th0]|e]; [|discriminate].
  cbn [mbind result_bind]. intros [= <- <- <-].
  exists f0, t0, th0. auto.
Qed.

(** The curve points of scikit-learn's [roc_curve] come by increasing
    FPR in float64 as well: rounding keeps the order of the rates. *)
Lemma roc_curve64_fpr_increasing (y_true : list Z) (y_score : list Q)
    (pos_label : Z) (fpr tpr thresholds : list np_float) :
  roc_curve64 y_true y_score pos_label = Ok (fpr, tpr, thresholds) →
  rates_increasing fpr.
Proof.
  intros H. apply roc_curve64_inv in H as (f0 & t0 & th0 & H0 & -> & _).
  apply f64_facts.rates_increasing_rnd.
  eapply order_facts.roc_curve_fpr_increasing, H0.
Qed.


(** ** Strings and paths *)

Lemma str_app_cons (x : ascii) (a b : string) :
  String.append (String x a) b = String x (String.append a b).
Proof. reflexivity. Qed.

Lemma str_app_assoc (a b c : string) :
  String.append (String.append a b) c = String.append a (String.append b c).
Proof. induction a as [|x a IH]; [reflexivity|].
  rewrite !str_app_cons, IH. reflexivity.
Qed.

Lemma str_app_nil_r (a : string) : String.append a "" = a.
Proof. induction a as [|x a IH]; [reflexivity|].
  rewrite !str_app_cons, IH. reflexivity.
Qed.

Lemma str_length_app (a b : string) :
  String.length (String.append a b)
  = (String.length a + String.length b)%nat.
Proof.
  induction a as [|x a IH]; [reflexivity|].
  rewrite str_app_cons. cbn [String.length]. rewrite IH. reflexivity.
Qed.

Lemma endswith_slash_app (a : string) (c : ascii) (b : string) :
  endswith_slash (String.append a (String c b)) = endswith_slash (String c b).
Proof.
  unfold endswith_slash. rewrite str_length_app.
  replace (String.length a + String.length (String c b) - 1)%nat
    with ((String.length (String c b) - 1) + String.length a)%nat
    by (cbn [String.length]; lia).
  rewrite <- append_correct2. reflexivity.
Qed.

Lemma str_app_not_empty (a : string) (c : ascii) (b : string) :
  String.eqb (String.append a (String c b)) "" = false.
Proof. destruct a; reflexivity. Qed.

Lemma prefix_nil (s : string) : String.prefix "" s = true.
Proof. destruct s; reflexivity. Qed.

Lemma prefix_slash_cons (c : ascii) (b : string) :
  String.prefix "/" (String c b) = bool_decide ("/"%char = c).
Proof.
  change (String.prefix "/" (String c b))
    with (if ascii_dec "/" c then String.prefix "" b else false).
  destruct (ascii_dec "/" c) as [E|E].
  - rewrite prefix_nil, bool_decide_eq_true_2; auto.
  - rewrite bool_decide_eq_false_2; auto.
Qed.

Lemma prefix_slash_app (a b : string) :
  a ≠ ""%string →
  String.prefix "/" (String.append a b) = String.prefix "/" a.
Proof.
  destruct a as [|x a]; [congruence|]. intros _.
  rewrite str_app_cons, !prefix_slash_cons. reflexivity.
Qed.

(** [os.path.join] with a relative component appended to a directory
    that does not end in a slash. *)
Lemma path_join_snoc (a : string) (p : list string) (b : string) :
  path_join a (p ++ [b])
  = if String.prefix "/" b then b
    else if String.eqb (path_join a p) "" || endswith_slash (path_join a p)
         then String.append (path_join a p) b
         else String.append (path_join a p) (String.append "/" b).
Proof. unfold path_join. rewrite foldl_app. reflexivity. Qed.

Lemma path_join_relative (a : string) (c : ascii) (b : string) :
  a ≠ ""%string → endswith_slash a = false → c ≠ "/"%char →
  path_join a [String c b] = String.append a (String.append "/" (String c b)).
Proof.
  intros Ha Hs Hc. unfold path_join. cbn [foldl].
  replace (String.prefix "/" (String c b)) with false.
  2:{ rewrite prefix_slash_cons, bool_decide_eq_false_2; congruence. }
  rewrite Hs. destruct a; [congruence|reflexivity].
Qed.

Lemma path_join_absolute (a b : string) :
  String.prefix "/" b = true → path_join a [b] = b.
Proof. intros H. unfold path_join. cbn [foldl]. rewrite H. reflexivity. Qed.

Lemma path_join_cons (a b : string) (p : list string) :
  path_join a (b :: p) = path_join (path_join a [b]) p.
Proof. reflexivity. Qed.

Lemma str_app_cons_ne (a : string) (c : ascii) (b : string) :
  String.append a (String c b) ≠ ""%string.
Proof. destruct a; discriminate. Qed.

(** A relative file name: it does not start with a slash. *)
Lemma relative_name (track suffix : string) (c : ascii) :
  String.prefix "/" track = false → c ≠ "/"%char →
  ∃ c' b, String.append track (String c suffix) = String c' b
          ∧ c' ≠ "/"%char.
Proof.
  intros Ht Hc. destruct track as [|x t].
  - exists c, suffix. auto.
  - exists x, (String.append t (String c suffix)). split; [reflexivity|].
    rewrite prefix_slash_cons in Ht. apply bool_decide_eq_false in Ht.
    congruence.
Qed.

Lemma dots_S (n : nat) : dots (S n) = String.append "." (dots n).
Proof. unfold dots, str_repeat. rewrite !Nat2Z.id. reflexivity. Qed.

Lemma dots_snoc (out : string) (n : nat) :
  String.append (String.append out ".") (dots n)
  = String.append out (dots (S n)).
Proof. rewrite dots_S, str_app_assoc. reflexivity. Qed.

Lemma str_repeat_length (c : ascii) (n : Z) :
  String.length (str_repeat (String c "") n) = Z.to_nat n.
Proof.
  unfold str_repeat. induction (Z.to_nat n) as [|k IH]; [reflexivity|].
  rewrite Nat.iter_succ, str_app_cons. cbn [String.length].
  f_equal. exact IH.
Qed.

Lemma pyM_bind_raise {S A B} (m : pyM S A) (f : A → pyM S B)
    (s s' : S) (e : exn) :
  m s = (Raise e, s') → (m ≫= f) s = (Raise e, s').
Proof. intros H. unfold mbind, pyM_bind. rewrite H. reflexivity. Qed.

Lemma header_length (msg : string) (n : nat) :
  String.length (header msg n) = (Nat.max n (String.length msg) + 1)%nat.
Proof.
  unfold header, len_str.
  rewrite !str_length_app, str_repeat_length. cbn [String.length]. lia.
Qed.

(** ** The order of the items of a dict of strings *)

Lemma string_compare_refl (s : string) : String.compare s s = Eq.
Proof.
  pose proof (String.compare_antisym s s) as H.
  destruct (String.compare s s); simpl in H; congruence.
Qed.

Lemma string_ltb_le (a b : string) :
  String.ltb a b = true ↔ String.le a b ∧ a ≠ b.
Proof.
  unfold String.le, String.ltb, String.leb. split.
  - destruct (String.compare a b) eqn:E; try discriminate.
    intros _. split; [exact I|]. intros ->.
    rewrite string_compare_refl in E. discriminate.
  - intros [Hle Hne]. destruct (String.compare a b) eqn:E.
    + apply String.compare_eq_iff in E. contradiction.
    + reflexivity.
    + destruct Hle.
Qed.

Lemma item_le_cases (x y : string * string) :
  item_le x y ↔
  (x.1 = y.1 ∧ String.le x.2 y.2) ∨ (x.1 ≠ y.1 ∧ String.ltb x.1 y.1 = true).
Proof.
  unfold item_le, item_leb.
  destruct (String.eqb_spec x.1 y.1) as [E|E].
  - unfold String.le. rewrite Is_true_true. tauto.
  - tauto.
Qed.

#[global] Instance item_le_total : Total item_le.
Proof.
  intros x y. rewrite !item_le_cases.
  destruct (decide (x.1 = y.1)) as [E|E].
  - destruct (total String.le x.2 y.2); [left|right]; left; auto.
  - rewrite !string_ltb_le.
    destruct (total String.le x.1 y.1); [left|right]; right; auto.
Qed.

#[global] Instance item_le_trans : Transitive item_le.
Proof.
  intros x y z. rewrite !item_le_cases, !string_ltb_le.
  intros [[E1 H1]|[E1 [H1 _]]] [[E2 H2]|[E2 [H2 _]]].
  - left. split; [congruence|]. etrans; eassumption.
  - right. rewrite E1. auto.
  - right. rewrite <- E2. auto.
  - right. assert (Hle : String.le x.1 z.1) by (etrans; eassumption).
    split; [|split; [exact Hle|]]; intros E; rewrite E in *;
      apply E2; apply (anti_symm String.le); assumption.
Qed.

Lemma sorted_items_strict (l : list (string * string)) :
  NoDup l.*1 → StronglySorted item_le l →
  StronglySorted (fun a b => String.ltb a b = true) l.*1.
Proof.
  induction l as [|x l IH]; intros Hnd Hs; simpl.
  - constructor.
  - apply NoDup_cons in Hnd as [Hx Hnd].
    apply StronglySorted_inv in Hs as [Hs Hall].
    constructor; [apply IH; assumption|].
    apply Forall_fmap, Forall_forall. intros y Hy. simpl.
    rewrite Forall_forall in Hall.
    pose proof (Hall y Hy) as Hxy.
    apply item_le_cases in Hxy as [[E _]|[_ Hlt]]; [|exact Hlt].
    exfalso. apply Hx. rewrite E. apply list_elem_of_fmap. eauto.
Qed.

Lemma sorted_items_perm (index : gmap string string) :
  sorted (items index) ≡ₚ map_to_list index.
Proof. apply merge_sort_Permutation. Qed.

(** ** Dicts, continued *)

Lemma elem_of_values_2 {V} (d : gmap string V) (k : string) (v : V) :
  d !! k = Some v → v ∈ values d.
Proof.
  intros H. unfold values. apply list_elem_of_fmap. exists (k, v).
  split; [reflexivity|]. apply elem_of_map_to_list, H.
Qed.

(* ===================================================================== *)
(** * Properties of [create_splits]                                   *)
(* ===================================================================== *)

Lemma create_splits_loop (l : list (string * string)) (a b : list string) :
  for_in_r l (a, b)
    (fun '(k, v) '(mdb_files, keys) => Ok (mdb_files ++ [k], keys ++ [v]))
  = Ok (a ++ l.*1, b ++ l.*2).
Proof.
  revert a b. induction l as [|[k v] l IH]; intros a b; simpl.
  - rewrite !app_nil_r. reflexivity.
  - rewrite IH, <- !app_assoc. reflexivity.
Qed.

(** What [create_splits] does once the index is read: the splitter is
    built on the second components of the sorted items, the files are
    their first components. *)
Lemma create_splits_run {Sp}
    (json_load : string → result (gmap string string))
    (ShuffleLabelsOut : list string → Z → Q → result Sp) (test_size : Q)
    (index : gmap string string) :
  json_load "medley_artist_index.json" = Ok index →
  create_splits json_load ShuffleLabelsOut test_size
  = (splitter ← ShuffleLabelsOut (sorted (items index)).*2 1 test_size;
     Ok ((sorted (items index)).*1, splitter)).
Proof.
  intros H. unfold create_splits. rewrite H. cbn [mbind result_bind].
  rewrite create_splits_loop. reflexivity.
Qed.

(** X1.  Once the artist index is read, [create_splits] returns its
    track ids in strictly increasing order: every track of the index,
    each once, and nothing else.  The splitter returned with them is the
    one [ShuffleLabelsOut] builds with [random_state = 1] and the
    [test_size] passed in; if the constructor raises, so does
    [create_splits]. *)
Theorem create_splits_files_sorted {Sp}
    (json_load : string → result (gmap string string))
    (ShuffleLabelsOut : list string → Z → Q → result Sp) (test_size : Q)
    (index : gmap string string) :
  json_load "medley_artist_index.json" = Ok index →
  ∃ mdb_files keys,
    create_splits json_load ShuffleLabelsOut test_size
    = (splitter ← ShuffleLabelsOut keys 1 test_size;
       Ok (mdb_files, splitter))
    ∧ StronglySorted (fun a b => String.ltb a b = true) mdb_files
    ∧ NoDup mdb_files
    ∧ (∀ track, track ∈ mdb_files ↔ is_Some (index !! track))
    ∧ length mdb_files = size index.
Proof.
  intros Hload. eexists _, _.
  split; [apply (create_splits_run _ _ _ _ Hload)|].
  pose proof (sorted_items_perm index) as Hp.
  assert (Hnd : NoDup (sorted (items index)).*1).
  { rewrite Hp. apply NoDup_fst_map_to_list. }
  split; [|split; [exact Hnd|split]].
  - apply sorted_items_strict; [exact Hnd|].
    apply StronglySorted_merge_sort; apply _.
  - intros track. rewrite Hp. apply (elem_of_keys index).
  - rewrite length_fmap, Hp. apply length_map_to_list.
Qed.

Lemma create_splits_files_sorted_witness :
  ∃ mdb_files keys,
    create_splits (fun _ => Ok ex_index) ex_ShuffleLabelsOut (15 # 100)
    = (splitter ← ex_ShuffleLabelsOut keys 1 (15 # 100);
       Ok (mdb_files, splitter))
    ∧ StronglySorted (fun a b => String.ltb a b = true) mdb_files
    ∧ NoDup mdb_files
    ∧ (∀ track, track ∈ mdb_files ↔ is_Some (ex_index !! track))
    ∧ length mdb_files = size ex_index.
Proof.
  apply (create_splits_files_sorted (fun _ => Ok ex_index)
           ex_ShuffleLabelsOut (15 # 100) ex_index).
  reflexivity.
Defined.

(** X2.  The group labels [create_splits] hands to [ShuffleLabelsOut]
    are aligned with the files it returns: there are as many labels as
    files, and the label at a position is the artist the index gives to
    the file at that position. *)
Theorem create_splits_groups_aligned {Sp}
    (json_load : string → result (gmap string string))
    (ShuffleLabelsOut : list string → Z → Q → result Sp) (test_size : Q)
    (index : gmap string string) :
  json_load "medley_artist_index.json" = Ok index →
  ∃ mdb_files keys,
    create_splits json_load ShuffleLabelsOut test_size
    = (splitter ← ShuffleLabelsOut keys 1 test_size;
       Ok (mdb_files, splitter))
    ∧ length keys = length mdb_files
    ∧ ∀ i track, mdb_files !! i = Some track → keys !! i = index !! track.
Proof.
  intros Hload. eexists _, _.
  split; [apply (create_splits_run _ _ _ _ Hload)|].
  split; [rewrite !length_fmap; reflexivity|].
  intros i track Hi. rewrite list_lookup_fmap in Hi |- *.
  destruct (sorted (items index) !! i) as [[k v]|] eqn:E; [|discriminate].
  simpl in Hi. injection Hi as <-. simpl. symmetry.
  apply elem_of_map_to_list. rewrite <- (sorted_items_perm index).
  eapply list_elem_of_lookup_2, E.
Qed.

Lemma create_splits_groups_aligned_witness :
  ∃ mdb_files keys,
    create_splits (fun _ => Ok ex_index) ex_ShuffleLabelsOut (15 # 100)
    = (splitter ← ex_ShuffleLabelsOut keys 1 (15 # 100);
       Ok (mdb_files, splitter))
    ∧ length keys = length mdb_files
    ∧ ∀ i track, mdb_files !! i = Some track → keys !! i = ex_index !! track.
Proof.
  apply (create_splits_groups_aligned (fun _ => Ok ex_index)
           ex_ShuffleLabelsOut (15 # 100) ex_index).
  reflexivity.
Defined.

(* ===================================================================== *)
(** * Properties of [get_data_files]                                  *)
(* ===================================================================== *)

(** X3.  For a track id that does not start with a slash, a melody type
    in 1..3 and a [MEDLEYDB_PATH] that is not empty and has no trailing
    slash, [get_data_files] reads the contour file
    [melodia_contours/<track>_MIX_vamp_melodia-contours_melodia-contours_contoursall.csv]
    (normalized), then the annotation file
    [<MEDLEYDB_PATH>/Annotations/Melody_Annotations/MELODY<m>/<track>_MELODY<m>.csv],
    and returns the two frames in that order; an exception of the
    contour loader comes before one of the annotation loader. *)
Theorem get_data_files_paths {X} (cc : contour_utils X)
    (environ : gmap string string) (track : string) (meltype : Z)
    (base : string) :
  environ !! "MEDLEYDB_PATH"%string = Some base →
  base ≠ ""%string → endswith_slash base = false →
  String.prefix "/" track = false →
  1 <= meltype <= 3 →
  get_data_files cc environ track meltype
  = (cdat ← load_contour_data cc (contour_file track) true;
     adat ← load_annotation cc (annotation_file base track meltype);
     Ok (cdat, adat)).
Proof.
  intros Henv Hb Hs Ht Hm.
  unfold get_data_files, dict_getitem. rewrite Henv. cbn [mbind result_bind].
  assert (Hc : path_join "melodia_contours"
                 [String.append track
                    (String.append "_"
                       "MIX_vamp_melodia-contours_melodia-contours_contoursall.csv")]
               = contour_file track).
  { destruct (relative_name track
                "MIX_vamp_melodia-contours_melodia-contours_contoursall.csv"
                "_" Ht) as (c' & b & E & Hc'); [discriminate|].
    change (String.append "_" ?s) with (String "_" s).
    rewrite E, path_join_relative by (auto; discriminate).
    rewrite <- E. reflexivity. }
  rewrite Hc. clear Hc.
  assert (Ha : ∀ d : string,
             str_of_int meltype = d →
             (d = "1" ∨ d = "2" ∨ d = "3")%string →
             path_join
               (path_join base
                  ["Annotations"; "Melody_Annotations";
                   String.append "MELODY" d])
               [String.append track
                  (String.append "_"
                     (String.append "MELODY" (String.append d ".csv")))]
             = annotation_file base track meltype).
  { intros d Hd Hcases. unfold annotation_file. rewrite Hd.
    destruct (relative_name track
                (String.append "MELODY" (String.append d ".csv"))
                "_" Ht) as (c' & b & E & Hc'); [discriminate|].
    change (String.append "_" ?s) with (String "_" s).
    rewrite E.
    assert (Hd' : ∃ s, String.append "MELODY" d = String "M" s
                       ∧ endswith_slash (String.append "MELODY" d) = false).
    { destruct Hcases as [->|[->| ->]]; eexists; split; reflexivity. }
    destruct Hd' as (s & Es & Hends).
    assert (E1 : path_join base ["Annotations"]
                 = String.append base "/Annotations").
    { apply path_join_relative; auto; discriminate. }
    assert (E2 : path_join base ["Annotations"; "Melody_Annotations"]
                 = String.append (String.append base "/Annotations")
                     "/Melody_Annotations").
    { change ["Annotations"; "Melody_Annotations"]%string
        with (["Annotations"%string] ++ ["Melody_Annotations"%string]).
      rewrite path_join_snoc, E1.
      rewrite str_app_not_empty, endswith_slash_app. reflexivity. }
    assert (E3 : path_join base
                   ["Annotations"; "Melody_Annotations";
                    String.append "MELODY" d]
                 = String.append
                     (String.append (String.append base "/Annotations")
                        "/Melody_Annotations")
                     (String.append "/" (String.append "MELODY" d))).
    { change ["Annotations"; "Melody_Annotations"; String.append "MELODY" d]
        with (["Annotations"%string; "Melody_Annotations"%string]
              ++ [String.append "MELODY" d]).
      rewrite path_join_snoc, E2.
      rewrite str_app_not_empty, endswith_slash_app, Es. reflexivity. }
    change [String c' b] with ([] ++ [String c' b]).
    rewrite path_join_snoc, E3, prefix_slash_cons.
    rewrite bool_decide_eq_false_2 by congruence.
    change (path_join ?a []) with a.
    change (String.append "/" (String.append "MELODY" d))
      with (String "/" (String.append "MELODY" d)).
    rewrite str_app_not_empty, Es, endswith_slash_app.
    change (String "/" (String "M" s))
      with (String.append "/" (String "M" s)).
    rewrite endswith_slash_app, <- Es, Hends.
    cbn [orb].
    rewrite <- E, !str_app_assoc. reflexivity. }
  rewrite (Ha (str_of_int meltype) eq_refl); [reflexivity|].
  assert (meltype = 1 ∨ meltype = 2 ∨ meltype = 3) as [->|[->| ->]] by lia;
    vm_compute; auto.
Qed.

Lemma get_data_files_paths_witness :
  get_data_files ex_cc ex_environ "t1" 1
  = (cdat ← load_contour_data ex_cc (contour_file "t1") true;
     adat ← load_annotation ex_cc (annotation_file "/data/medleydb" "t1" 1);
     Ok (cdat, adat)).
Proof.
  apply (get_data_files_paths ex_cc ex_environ "t1" 1 "/data/medleydb");
    (reflexivity || discriminate || lia).
Defined.

(** X4.  A track id that starts with a slash is taken by [os.path.join]
    as an absolute path: [get_data_files] then asks the loaders for
    [<track>_MIX_..._contoursall.csv] and [<track>_MELODY<m>.csv] as they
    stand, outside [melodia_contours] and outside [MEDLEYDB_PATH],
    whatever the melody type. *)
Theorem get_data_files_absolute_track {X} (cc : contour_utils X)
    (environ : gmap string string) (track : string) (meltype : Z)
    (base : string) :
  environ !! "MEDLEYDB_PATH"%string = Some base →
  String.prefix "/" track = true →
  get_data_files cc environ track meltype
  = (cdat ← load_contour_data cc
              (String.append track
                 "_MIX_vamp_melodia-contours_melodia-contours_contoursall.csv")
              true;
     adat ← load_annotation cc
              (String.append track
                 (String.append "_MELODY"
                    (String.append (str_of_int meltype) ".csv")));
     Ok (cdat, adat)).
Proof.
  intros Henv Ht.
  assert (Hne : track ≠ ""%string) by (intros ->; discriminate).
  unfold get_data_files, dict_getitem. rewrite Henv. cbn [mbind result_bind].
  rewrite !(path_join_absolute _ (String.append track _))
    by (rewrite prefix_slash_app; assumption).
  reflexivity.
Qed.

Lemma get_data_files_absolute_track_witness :
  get_data_files ex_cc ex_environ "/etc/t1" 1
  = (cdat ← load_contour_data ex_cc
              "/etc/t1_MIX_vamp_melodia-contours_melodia-contours_contoursall.csv"
              true;
     adat ← load_annotation ex_cc "/etc/t1_MELODY1.csv";
     Ok (cdat, adat)).
Proof.
  apply (get_data_files_absolute_track ex_cc ex_environ "/etc/t1" 1
           "/data/medleydb"); reflexivity.
Defined.

(* ===================================================================== *)
(** * Properties of [compute_all_overlaps]                             *)
(* ===================================================================== *)

Section overlaps_facts.

Context {X : Type} (cc : contour_utils X) (environ : gmap string string)
  (meltype : Z).

Lemma track_ok_inv (track : string) :
  track_ok cc environ meltype track →
  ∃ cdat adat olap,
    get_data_files cc environ track meltype = Ok (cdat, adat)
    ∧ compute_overlap cc cdat adat = Ok olap
    ∧ overlap_frame cc environ meltype track = Ok olap
    ∧ raw_annotation cc environ meltype track = Ok adat.
Proof.
  intros [olap H]. unfold overlap_frame, raw_annotation in *.
  destruct (get_data_files cc environ track meltype) as [[cdat adat]|e];
    [|discriminate].
  simpl in H. exists cdat, adat, olap. auto.
Qed.

Lemma train_loop_spec (tracks : list string) :
  Forall (track_ok cc environ meltype) tracks →
  ∀ d out, ∃ d' out',
    for_in tracks d (train_body cc environ meltype) out = (Ok d', out')
    ∧ (∀ track, track ∈ tracks →
         ∃ olap, d' !! track = Some olap ∧ overlap_frame cc environ meltype track = Ok olap)
    ∧ (∀ track, track ∉ tracks → d' !! track = d !! track).
Proof.
  induction 1 as [|t tracks Ht _ IH]; intros d out; simpl.
  - exists d, out. split; [reflexivity|]. split; [|reflexivity].
    intros track Hin. inversion Hin.
  - destruct (track_ok_inv t Ht) as (cdat & adat & olap & Hg & Hc & Ho & _).
    destruct (IH (<[t := olap]> d) (String.append out ".")) as
      (d' & out' & Hrun & Hin & Hout).
    exists d', out'. split.
    { unfold mbind at 1, pyM_bind. unfold train_body at 1.
      unfold mbind, pyM_bind, lift, stdout_write, mret, pyM_ret.
      rewrite Hg, Hc. exact Hrun. }
    split.
    + intros track Htr. destruct (decide (track ∈ tracks)) as [Hi|Hi].
      * apply Hin, Hi.
      * apply elem_of_cons in Htr as [->|?]; [|contradiction].
        exists olap. rewrite (Hout t Hi), lookup_insert_eq. auto.
    + intros track Htr. apply not_elem_of_cons in Htr as [Hne Hni].
      rewrite (Hout track Hni). apply lookup_insert_ne. congruence.
Qed.

Lemma eval_loop_spec (tracks : list string) :
  Forall (track_ok cc environ meltype) tracks →
  ∀ d a out, ∃ d' a' out',
    for_in tracks (d, a) (eval_body cc environ meltype) out = (Ok (d', a'), out')
    ∧ (∀ track, track ∈ tracks →
         ∃ olap, d' !! track = Some olap ∧ overlap_frame cc environ meltype track = Ok olap)
    ∧ (∀ track, track ∉ tracks → d' !! track = d !! track)
    ∧ (∀ track, track ∈ tracks →
         ∃ adat, a' !! track = Some adat ∧ raw_annotation cc environ meltype track = Ok adat)
    ∧ (∀ track, track ∉ tracks → a' !! track = a !! track).
Proof.
  induction 1 as [|t tracks Ht _ IH]; intros d a out; simpl.
  - exists d, a, out. split; [reflexivity|].
    repeat split; try reflexivity; intros track Hin; inversion Hin.
  - destruct (track_ok_inv t Ht) as (cdat & adat & olap & Hg & Hc & Ho & Ha).
    destruct (IH (<[t := olap]> d) (<[t := adat]> a) (String.append out "."))
      as (d' & a' & out' & Hrun & Hin & Hout & Hina & Houta).
    exists d', a', out'. split.
    { unfold mbind at 1, pyM_bind. unfold eval_body at 1.
      unfold mbind, pyM_bind, lift, stdout_write, mret, pyM_ret.
      rewrite Hg, Hc. exact Hrun. }
    split; [|split; [|split]].
    + intros track Htr. destruct (decide (track ∈ tracks)) as [Hi|Hi].
      * apply Hin, Hi.
      * apply elem_of_cons in Htr as [->|?]; [|contradiction].
        exists olap. rewrite (Hout t Hi), lookup_insert_eq. auto.
    + intros track Htr. apply not_elem_of_cons in Htr as [Hne Hni].
      rewrite (Hout track Hni). apply lookup_insert_ne. congruence.
    + intros track Htr. destruct (decide (track ∈ tracks)) as [Hi|Hi].
      * apply Hina, Hi.
      * apply elem_of_cons in Htr as [->|?]; [|contradiction].
        exists adat. rewrite (Houta t Hi), lookup_insert_eq. auto.
    + intros track Htr. apply not_elem_of_cons in Htr as [Hne Hni].
      rewrite (Houta track Hni). apply lookup_insert_ne. congruence.
Qed.

Lemma dom_of_entries (tracks : list string) (d : gmap string DataFrame) :
  (∀ track, track ∈ tracks → is_Some (d !! track)) →
  (∀ track, track ∉ tracks → d !! track = None) →
  dom d = list_to_set tracks.
Proof.
  intros Hin Hout. apply set_eq. intros t.
  rewrite elem_of_dom, elem_of_list_to_set. split.
  - intros Hs. destruct (decide (t ∈ tracks)) as [?|Hn]; [assumption|].
    rewrite (Hout t Hn) in Hs. destruct Hs. discriminate.
  - apply Hin.
Qed.

End overlaps_facts.

Lemma compute_all_overlaps_unfold {X} (cc : contour_utils X)
    (environ : gmap string string)
    (train_tracks valid_tracks test_tracks : list string) (meltype : Z) :
  compute_all_overlaps cc environ train_tracks valid_tracks test_tracks
    meltype
  = (print (String.append "Generating training features..."
              (String.append
                 (str_repeat " "
                    (Z.of_nat (length train_tracks)
                     - len_str "Generating training features..."))
                 "|"));;
     train_d ← for_in train_tracks ∅ (train_body cc environ meltype);
     print "";;
     print (str_repeat "-" 30);;
     print (String.append "Generating validation features..."
              (String.append
                 (str_repeat " "
                    (Z.of_nat (length valid_tracks)
                     - len_str "Generating validation features..."))
                 "|"));;
     '(valid_d, valid_a) ←
       for_in valid_tracks (∅, ∅) (eval_body cc environ meltype);
     print "";;
     print (str_repeat "-" 30);;
     print (String.append "Generating testing features..."
              (String.append
                 (str_repeat " "
                    (Z.of_nat (length test_tracks)
                     - len_str "Generating testing features..."))
                 "|"));;
     '(test_d, test_a) ←
       for_in test_tracks (∅, ∅) (eval_body cc environ meltype);
     mret (train_d, valid_d, valid_a, test_d, test_a)).
Proof. reflexivity. Qed.

(** The key set of a dict filled by a loop over [tracks] from empty. *)
Ltac dom_from_entries Hin Hout :=
  apply dom_of_entries;
  [ let t := fresh "t" in
    let Ht := fresh "Ht" in
    intros t Ht; destruct (Hin t Ht) as (? & ? & _); eauto
  | let t := fresh "t" in
    let Ht := fresh "Ht" in
    intros t Ht; rewrite (Hout t Ht); apply lookup_empty ].

Lemma compute_all_overlaps_run {X} (cc : contour_utils X)
    (environ : gmap string string) (meltype : Z)
    (train_tracks valid_tracks test_tracks : list string) (out : string) :
  Forall (track_ok cc environ meltype)
    (train_tracks ++ valid_tracks ++ test_tracks) →
  match compute_all_overlaps cc environ train_tracks valid_tracks
          test_tracks meltype out with
  | (Ok (td, vd, va, sd, sa), _) =>
      split_maps cc environ meltype train_tracks valid_tracks test_tracks
        td vd va sd sa
  | (Raise _, _) => False
  end.
Proof.
  intros Hok. apply Forall_app in Hok as [Htrain Hok].
  apply Forall_app in Hok as [Hvalid Htest].
  rewrite compute_all_overlaps_unfold.
  rewrite (pyM_bind_run (print _) _ _ _ tt eq_refl).
  match goal with
  | |- match (_ ≫= _) ?o with _ => _ end =>
      destruct (train_loop_spec cc environ meltype train_tracks Htrain ∅ o)
        as (td & out1 & Hrun1 & Hin1 & Hout1)
  end.
  rewrite (pyM_bind_run _ _ _ _ _ Hrun1).
  do 3 (rewrite (pyM_bind_run (print _) _ _ _ tt eq_refl)).
  match goal with
  | |- match (_ ≫= _) ?o with _ => _ end =>
      destruct (eval_loop_spec cc environ meltype valid_tracks Hvalid ∅ ∅ o)
        as (vd & va & out2 & Hrun2 & Hin2 & Hout2 & Hina2 & Houta2)
  end.
  rewrite (pyM_bind_run _ _ _ _ _ Hrun2).
  do 3 (rewrite (pyM_bind_run (print _) _ _ _ tt eq_refl)).
  match goal with
  | |- match (_ ≫= _) ?o with _ => _ end =>
      destruct (eval_loop_spec cc environ meltype test_tracks Htest ∅ ∅ o)
        as (sd & sa & out3 & Hrun3 & Hin3 & Hout3 & Hina3 & Houta3)
  end.
  rewrite (pyM_bind_run _ _ _ _ _ Hrun3).
  cbn [mret pyM_ret].
  unfold split_maps, contour_map_of, annotation_map_of.
  split; [split; [dom_from_entries Hin1 Hout1|assumption]|].
  split; [split; [dom_from_entries Hin2 Hout2|assumption]|].
  split; [split; [dom_from_entries Hina2 Houta2|assumption]|].
  split; [split; [dom_from_entries Hin3 Hout3|assumption]|].
  split; [split; [dom_from_entries Hina3 Houta3|assumption]|].
  intros track _. split; intros Hn.
  - rewrite Houta2 by exact Hn. apply lookup_empty.
  - rewrite Houta3 by exact Hn. apply lookup_empty.
Qed.

(** C9.  When every listed track loads and its overlap computes,
    [compute_all_overlaps] returns five dicts, in the order train
    contours, validation contours, validation annotations, test
    contours, test annotations.  Each contour dict has exactly the
    tracks of its list as keys, each key holding the overlap-augmented
    contour frame of that track; the two annotation dicts hold the raw
    annotation of every validation, resp. test, track and of no other
    track, so a track that is only in the training list has its
    annotation in neither. *)
Theorem compute_all_overlaps_maps {X} (cc : contour_utils X)
    (environ : gmap string string) (meltype : Z)
    (train_tracks valid_tracks test_tracks : list string) (out : string) :
  Forall (track_ok cc environ meltype)
    (train_tracks ++ valid_tracks ++ test_tracks) →
  ∃ train_contour_dict valid_contour_dict valid_annot_dict
    test_contour_dict test_annot_dict out',
    compute_all_overlaps cc environ train_tracks valid_tracks test_tracks
      meltype out
    = (Ok (train_contour_dict, valid_contour_dict, valid_annot_dict,
           test_contour_dict, test_annot_dict), out')
    ∧ split_maps cc environ meltype train_tracks valid_tracks test_tracks
        train_contour_dict valid_contour_dict valid_annot_dict
        test_contour_dict test_annot_dict.
Proof.
  intros Hok.
  pose proof (compute_all_overlaps_run cc environ meltype train_tracks
                valid_tracks test_tracks out Hok) as H.
  destruct (compute_all_overlaps _ _ _ _ _ _ _)
    as [[[[[[td vd] va] sd] sa]|e] out']; [|contradiction].
  exists td, vd, va, sd, sa, out'. split; [reflexivity|exact H].
Qed.

Lemma compute_all_overlaps_maps_witness :
  ∃ train_contour_dict valid_contour_dict valid_annot_dict
    test_contour_dict test_annot_dict out',
    compute_all_overlaps ex_cc ex_environ ["t1"; "t2"] ["t3"] ["t4"] 1 ""
    = (Ok (train_contour_dict, valid_contour_dict, valid_annot_dict,
           test_contour_dict, test_annot_dict), out')
    ∧ split_maps ex_cc ex_environ 1 ["t1"; "t2"] ["t3"] ["t4"]
        train_contour_dict valid_contour_dict valid_annot_dict
        test_contour_dict test_annot_dict.
Proof.
  apply (compute_all_overlaps_maps ex_cc ex_environ 1
           ["t1"; "t2"] ["t3"] ["t4"] "").
  repeat constructor; exists ex_frame; vm_compute; reflexivity.
Defined.

(** ** Failures and the text printed *)

Section overlaps_runs.

Context {X : Type} (cc : contour_utils X) (environ : gmap string string)
  (meltype : Z).


Lemma track_fail_inv (track : string) (e : exn) :
  overlap_frame cc environ meltype track = Raise e →
  get_data_files cc environ track meltype = Raise e
  ∨ ∃ cdat adat,
      get_data_files cc environ track meltype = Ok (cdat, adat)
      ∧ compute_overlap cc cdat adat = Raise e.
Proof.
  unfold overlap_frame.
  destruct (get_data_files cc environ track meltype) as [[cdat adat]|e'].
  - intros H. right. exists cdat, adat. auto.
  - intros [= <-]. left. reflexivity.
Qed.

Lemma train_body_ok (track : string) (olap : DataFrame)
    (d : gmap string DataFrame) (out : string) :
  overlap_frame cc environ meltype track = Ok olap →
  train_body cc environ meltype track d out
  = (Ok (<[track := olap]> d), String.append out ".").
Proof.
  intros H. destruct (track_ok_inv cc environ meltype track)
    as (cdat & adat & olap' & Hg & Hc & Ho & _); [exists olap; exact H|].
  rewrite H in Ho. injection Ho as <-.
  unfold train_body, mbind, pyM_bind, lift, stdout_write, mret, pyM_ret.
  rewrite Hg, Hc. reflexivity.
Qed.

Lemma train_body_fail (track : string) (e : exn)
    (d : gmap string DataFrame) (out : string) :
  overlap_frame cc environ meltype track = Raise e →
  train_body cc environ meltype track d out = (Raise e, out).
Proof.
  intros H. unfold train_body, mbind, pyM_bind, lift.
  destruct (track_fail_inv track e H) as [Hg|(cdat & adat & Hg & Hc)];
    rewrite Hg; [reflexivity|]. rewrite Hc. reflexivity.
Qed.

Lemma eval_body_ok (track : string) (olap adat : DataFrame)
    (d a : gmap string DataFrame) (out : string) :
  overlap_frame cc environ meltype track = Ok olap →
  raw_annotation cc environ meltype track = Ok adat →
  eval_body cc environ meltype track (d, a) out
  = (Ok (<[track := olap]> d, <[track := adat]> a), String.append out ".").
Proof.
  intros H Ha. destruct (track_ok_inv cc environ meltype track)
    as (cdat & adat' & olap' & Hg & Hc & Ho & Ha'); [exists olap; exact H|].
  rewrite H in Ho. injection Ho as <-. rewrite Ha in Ha'. injection Ha' as <-.
  unfold eval_body, mbind, pyM_bind, lift, stdout_write, mret, pyM_ret.
  rewrite Hg, Hc. reflexivity.
Qed.

Lemma eval_body_fail (track : string) (e : exn)
    (acc : gmap string DataFrame * gmap string DataFrame) (out : string) :
  overlap_frame cc environ meltype track = Raise e →
  eval_body cc environ meltype track acc out = (Raise e, out).
Proof.
  intros H. destruct acc as [d a]. unfold eval_body, mbind, pyM_bind, lift.
  destruct (track_fail_inv track e H) as [Hg|(cdat & adat & Hg & Hc)];
    rewrite Hg; [reflexivity|]. rewrite Hc. reflexivity.
Qed.

Lemma first_error_None (tracks : list string) :
  first_error cc environ meltype tracks = None
  ↔ Forall (track_ok cc environ meltype) tracks.
Proof.
  induction tracks as [|t tracks IH]; simpl.
  - split; [constructor|reflexivity].
  - rewrite Forall_cons. unfold track_ok at 1.
    destruct (overlap_frame cc environ meltype t) as [olap|e].
    + rewrite IH. split; [eauto|tauto].
    + split; [discriminate|]. intros [[olap H] _]. discriminate.
Qed.

Lemma first_error_app (l1 l2 : list string) :
  first_error cc environ meltype (l1 ++ l2)
  = match first_error cc environ meltype l1 with
    | Some e => Some e
    | None => first_error cc environ meltype l2
    end.
Proof.
  induction l1 as [|t l1 IH]; simpl; [reflexivity|].
  destruct (overlap_frame cc environ meltype t); [exact IH|reflexivity].
Qed.

Lemma first_error_at (pre rest : list string) (bad : string) (e : exn) :
  Forall (track_ok cc environ meltype) pre →
  overlap_frame cc environ meltype bad = Raise e →
  first_error cc environ meltype (pre ++ bad :: rest) = Some e.
Proof.
  intros Hpre Hbad. rewrite first_error_app.
  apply first_error_None in Hpre. rewrite Hpre. simpl. rewrite Hbad.
  reflexivity.
Qed.

(** A loop of the training phase: it stops at the first failing track
    with that track's exception, and has written one dot per track
    processed before. *)
Lemma train_loop_run (tracks : list string) :
  ∀ d out,
    match first_error cc environ meltype tracks with
    | None =>
        ∃ d', for_in tracks d (train_body cc environ meltype) out
              = (Ok d', String.append out (dots (length tracks)))
    | Some e =>
        ∃ n, for_in tracks d (train_body cc environ meltype) out
             = (Raise e, String.append out (dots n))
    end.
Proof.
  induction tracks as [|t tracks IH]; intros d out; simpl.
  - exists d. unfold dots, str_repeat. simpl. rewrite str_app_nil_r.
    reflexivity.
  - destruct (overlap_frame cc environ meltype t) as [olap|e] eqn:E.
    + rewrite (pyM_bind_run _ _ _ _ _ (train_body_ok t olap d out E)).
      specialize (IH (<[t := olap]> d) (String.append out ".")).
      destruct (first_error cc environ meltype tracks) as [e|].
      * destruct IH as [n ->]. exists (S n). rewrite dots_snoc. reflexivity.
      * destruct IH as [d' ->]. exists d'. rewrite dots_snoc. reflexivity.
    + rewrite (pyM_bind_raise _ _ _ _ _ (train_body_fail t e d out E)).
      exists 0%nat.
      unfold dots, str_repeat. simpl. rewrite str_app_nil_r. reflexivity.
Qed.

Lemma eval_loop_run (tracks : list string) :
  ∀ acc out,
    match first_error cc environ meltype tracks with
    | None =>
        ∃ acc', for_in tracks acc (eval_body cc environ meltype) out
                = (Ok acc', String.append out (dots (length tracks)))
    | Some e =>
        ∃ n, for_in tracks acc (eval_body cc environ meltype) out
             = (Raise e, String.append out (dots n))
    end.
Proof.
  induction tracks as [|t tracks IH]; intros acc out; simpl.
  - exists acc. unfold dots, str_repeat. simpl. rewrite str_app_nil_r.
    reflexivity.
  - destruct (overlap_frame cc environ meltype t) as [olap|e] eqn:E.
    + destruct (track_ok_inv cc environ meltype t)
        as (_ & adat & _ & _ & _ & _ & Ha); [exists olap; exact E|].
      destruct acc as [d a].
      rewrite (pyM_bind_run _ _ _ _ _ (eval_body_ok t olap adat d a out E Ha)).
      specialize (IH (<[t := olap]> d, <[t := adat]> a)
                    (String.append out ".")).
      destruct (first_error cc environ meltype tracks) as [e|].
      * destruct IH as [n ->]. exists (S n). rewrite dots_snoc. reflexivity.
      * destruct IH as [acc' ->]. exists acc'. rewrite dots_snoc.
        reflexivity.
    + rewrite (pyM_bind_raise _ _ _ _ _ (eval_body_fail t e acc out E)).
      exists 0%nat.
      unfold dots, str_repeat. simpl. rewrite str_app_nil_r. reflexivity.
Qed.

End overlaps_runs.

(** The outcome of [compute_all_overlaps], by the first failing track in
    the order train, validation, test. *)
Lemma compute_all_overlaps_outcome {X} (cc : contour_utils X)
    (environ : gmap string string) (meltype : Z)
    (train_tracks valid_tracks test_tracks : list string) (out : string) :
  match first_error cc environ meltype
          (train_tracks ++ valid_tracks ++ test_tracks) with
  | None =>
      ∃ r, compute_all_overlaps cc environ train_tracks valid_tracks
             test_tracks meltype out
           = (Ok r,
              String.append out
                (progress_text (length train_tracks) (length valid_tracks)
                   (length test_tracks)))
  | Some e =>
      ∃ out', compute_all_overlaps cc environ train_tracks valid_tracks
                test_tracks meltype out
              = (Raise e, out')
  end.
Proof.
  rewrite !first_error_app, compute_all_overlaps_unfold.
  rewrite (pyM_bind_run (print _) _ _ _ tt eq_refl).
  match goal with
  | |- context [(for_in train_tracks ∅ _ ≫= _) ?o] =>
      pose proof (train_loop_run cc environ meltype train_tracks ∅ o) as H1
  end.
  destruct (first_error cc environ meltype train_tracks) as [e|].
  { destruct H1 as [n H1]. eexists. apply pyM_bind_raise, H1. }
  destruct H1 as [td H1]. rewrite (pyM_bind_run _ _ _ _ _ H1).
  do 3 (rewrite (pyM_bind_run (print _) _ _ _ tt eq_refl)).
  match goal with
  | |- context [(for_in valid_tracks ?a _ ≫= _) ?o] =>
      pose proof (eval_loop_run cc environ meltype valid_tracks a o) as H2
  end.
  destruct (first_error cc environ meltype valid_tracks) as [e|].
  { destruct H2 as [n H2]. eexists. apply pyM_bind_raise, H2. }
  destruct H2 as [[vd va] H2]. rewrite (pyM_bind_run _ _ _ _ _ H2).
  do 3 (rewrite (pyM_bind_run (print _) _ _ _ tt eq_refl)).
  match goal with
  | |- context [(for_in test_tracks ?a _ ≫= _) ?o] =>
      pose proof (eval_loop_run cc environ meltype test_tracks a o) as H3
  end.
  destruct (first_error cc environ meltype test_tracks) as [e|].
  { destruct H3 as [n H3]. eexists. apply pyM_bind_raise, H3. }
  destruct H3 as [[sd sa] H3]. rewrite (pyM_bind_run _ _ _ _ _ H3).
  eexists. cbn [mret pyM_ret]. f_equal.
  unfold progress_text, progress_line, header, separator.
  rewrite !str_app_assoc. reflexivity.
Qed.

(** X5.  [compute_all_overlaps] stops at the first track that fails, in
    the order train, validation, test: when every track before [bad]
    loads and has its overlap computed and [bad] raises [e] (from a
    loader or from [cc.compute_overlap]), the call raises [e]; no dict is
    returned and no track is skipped. *)
Theorem compute_all_overlaps_first_failure {X} (cc : contour_utils X)
    (environ : gmap string string) (meltype : Z)
    (train_tracks valid_tracks test_tracks : list string) (out : string)
    (pre rest : list string) (bad : string) (e : exn) :
  train_tracks ++ valid_tracks ++ test_tracks = pre ++ bad :: rest →
  Forall (track_ok cc environ meltype) pre →
  overlap_frame cc environ meltype bad = Raise e →
  ∃ out',
    compute_all_overlaps cc environ train_tracks valid_tracks test_tracks
      meltype out
    = (Raise e, out').
Proof.
  intros Hsplit Hpre Hbad.
  pose proof (compute_all_overlaps_outcome cc environ meltype train_tracks
                valid_tracks test_tracks out) as H.
  rewrite Hsplit, (first_error_at cc environ meltype pre rest bad e Hpre Hbad)
    in H.
  exact H.
Qed.

Lemma compute_all_overlaps_first_failure_witness :
  ∃ out',
    compute_all_overlaps ex_cc ex_environ ["t1"] ["/t2"; "t3"] ["t4"] 1 ""
    = (Raise IOError, out').
Proof.
  apply (compute_all_overlaps_first_failure ex_cc ex_environ 1
           ["t1"] ["/t2"; "t3"] ["t4"] "" ["t1"] ["t3"; "t4"] "/t2" IOError).
  - reflexivity.
  - repeat constructor. exists ex_frame. vm_compute. reflexivity.
  - vm_compute. reflexivity.
Defined.

(** X6.  When every track loads, [compute_all_overlaps] appends to the
    standard output exactly: the header of the training phase on a line,
    one dot per training track, a newline and a rule of 30 dashes, the
    same for the validation tracks, and the header and the dots of the
    test tracks, without a final newline.  A header is the message, then
    spaces up to the column of the number of tracks, then a bar: it is
    [max n (len msg) + 1] characters wide, so for a list shorter than
    the message the bar follows the message at once. *)
Theorem compute_all_overlaps_stdout {X} (cc : contour_utils X)
    (environ : gmap string string) (meltype : Z)
    (train_tracks valid_tracks test_tracks : list string) (out : string) :
  Forall (track_ok cc environ meltype)
    (train_tracks ++ valid_tracks ++ test_tracks) →
  (∃ r,
     compute_all_overlaps cc environ train_tracks valid_tracks test_tracks
       meltype out
     = (Ok r,
        String.append out
          (progress_text (length train_tracks) (length valid_tracks)
             (length test_tracks))))
  ∧ ∀ msg n,
      String.length (header msg n)
      = (Nat.max n (String.length msg) + 1)%nat.
Proof.
  intros Hok. split; [|apply header_length].
  pose proof (compute_all_overlaps_outcome cc environ meltype train_tracks
                valid_tracks test_tracks out) as H.
  apply first_error_None in Hok. rewrite Hok in H. exact H.
Qed.

Lemma compute_all_overlaps_stdout_witness :
  (∃ r,
     compute_all_overlaps ex_cc ex_environ ["t1"; "t2"] ["t3"] ["t4"] 1 ""
     = (Ok r, String.append "" (progress_text 2 1 1)))
  ∧ ∀ msg n,
      String.length (header msg n)
      = (Nat.max n (String.length msg) + 1)%nat.
Proof.
  apply (compute_all_overlaps_stdout ex_cc ex_environ 1
           ["t1"; "t2"] ["t3"] ["t4"] "").
  repeat constructor; exists ex_frame; vm_compute; reflexivity.
Defined.

Lemma contour_map_of_unique {X} (cc : contour_utils X)
    (environ : gmap string string) (meltype : Z)
    (tracks tracks' : list string) (d d' : gmap string DataFrame) :
  (∀ t, t ∈ tracks' ↔ t ∈ tracks) →
  contour_map_of cc environ meltype tracks d →
  contour_map_of cc environ meltype tracks' d' →
  d = d'.
Proof.
  intros Hsame [Hdom Hin] [Hdom' Hin']. apply map_eq. intros k.
  destruct (decide (k ∈ tracks)) as [Hk|Hk].
  - destruct (Hin k Hk) as (o & -> & Ho).
    destruct (Hin' k) as (o' & -> & Ho'); [apply Hsame, Hk|].
    congruence.
  - assert (Hn : d !! k = None).
    { apply not_elem_of_dom. rewrite Hdom, elem_of_list_to_set. exact Hk. }
    assert (Hn' : d' !! k = None).
    { apply not_elem_of_dom. rewrite Hdom', elem_of_list_to_set, Hsame.
      exact Hk. }
    congruence.
Qed.

Lemma annotation_map_of_unique {X} (cc : contour_utils X)
    (environ : gmap string string) (meltype : Z)
    (tracks tracks' : list string) (d d' : gmap string DataFrame) :
  (∀ t, t ∈ tracks' ↔ t ∈ tracks) →
  annotation_map_of cc environ meltype tracks d →
  annotation_map_of cc environ meltype tracks' d' →
  d = d'.
Proof.
  intros Hsame [Hdom Hin] [Hdom' Hin']. apply map_eq. intros k.
  destruct (decide (k ∈ tracks)) as [Hk|Hk].
  - destruct (Hin k Hk) as (o & -> & Ho).
    destruct (Hin' k) as (o' & -> & Ho'); [apply Hsame, Hk|].
    congruence.
  - assert (Hn : d !! k = None).
    { apply not_elem_of_dom. rewrite Hdom, elem_of_list_to_set. exact Hk. }
    assert (Hn' : d' !! k = None).
    { apply not_elem_of_dom. rewrite Hdom', elem_of_list_to_set, Hsame.
      exact Hk. }
    congruence.
Qed.

(** X7.  The dicts [compute_all_overlaps] returns depend on which tracks
    each list holds, not on their order or on repetitions: two calls
    whose lists hold the same tracks return the same five dicts (the
    text printed differs in its dots). *)
Theorem compute_all_overlaps_order_irrelevant {X} (cc : contour_utils X)
    (environ : gmap string string) (meltype : Z)
    (train_tracks valid_tracks test_tracks : list string)
    (train_tracks' valid_tracks' test_tracks' : list string)
    (out out' : string) :
  Forall (track_ok cc environ meltype)
    (train_tracks ++ valid_tracks ++ test_tracks) →
  (∀ t, t ∈ train_tracks' ↔ t ∈ train_tracks) →
  (∀ t, t ∈ valid_tracks' ↔ t ∈ valid_tracks) →
  (∀ t, t ∈ test_tracks' ↔ t ∈ test_tracks) →
  ∃ r,
    (compute_all_overlaps cc environ train_tracks valid_tracks test_tracks
       meltype out).1 = Ok r
    ∧ (compute_all_overlaps cc environ train_tracks' valid_tracks'
         test_tracks' meltype out').1 = Ok r.
Proof.
  intros Hok H1 H2 H3.
  assert (Hok' : Forall (track_ok cc environ meltype)
                   (train_tracks' ++ valid_tracks' ++ test_tracks')).
  { rewrite Forall_forall in Hok. apply Forall_forall. intros t Ht.
    apply Hok. rewrite !elem_of_app in Ht |- *.
    rewrite <- H1, <- H2, <- H3. exact Ht. }
  pose proof (compute_all_overlaps_run cc environ meltype train_tracks
                valid_tracks test_tracks out Hok) as Hr.
  pose proof (compute_all_overlaps_run cc environ meltype train_tracks'
                valid_tracks' test_tracks' out' Hok') as Hr'.
  destruct (compute_all_overlaps cc environ train_tracks valid_tracks
              test_tracks meltype out)
    as [[[[[[td vd] va] sd] sa]|e] o]; [|contradiction].
  destruct (compute_all_overlaps cc environ train_tracks' valid_tracks'
              test_tracks' meltype out')
    as [[[[[[td' vd'] va'] sd'] sa']|e] o']; [|contradiction].
  destruct Hr as (A1 & A2 & A3 & A4 & A5 & _).
  destruct Hr' as (B1 & B2 & B3 & B4 & B5 & _).
  exists (td, vd, va, sd, sa). split; [reflexivity|]. simpl.
  rewrite (contour_map_of_unique _ _ _ _ _ _ _ H1 A1 B1).
  rewrite (contour_map_of_unique _ _ _ _ _ _ _ H2 A2 B2).
  rewrite (annotation_map_of_unique _ _ _ _ _ _ _ H2 A3 B3).
  rewrite (contour_map_of_unique _ _ _ _ _ _ _ H3 A4 B4).
  rewrite (annotation_map_of_unique _ _ _ _ _ _ _ H3 A5 B5).
  reflexivity.
Qed.

Lemma compute_all_overlaps_order_irrelevant_witness :
  ∃ r,
    (compute_all_overlaps ex_cc ex_environ ["t1"; "t2"] ["t3"] ["t4"] 1 "").1
    = Ok r
    ∧ (compute_all_overlaps ex_cc ex_environ ["t2"; "t1"; "t2"] ["t3"; "t3"]
         ["t4"] 1 "log").1 = Ok r.
Proof.
  apply (compute_all_overlaps_order_irrelevant ex_cc ex_environ 1
           ["t1"; "t2"] ["t3"] ["t4"] ["t2"; "t1"; "t2"] ["t3"; "t3"] ["t4"]
           "" "log").
  - repeat constructor; exists ex_frame; vm_compute; reflexivity.
  - intros t. rewrite !elem_of_cons. tauto.
  - intros t. rewrite !elem_of_cons. tauto.
  - intros t. tauto.
Defined.

(* ===================================================================== *)
(** * Properties of [olap_stats]                                       *)
(* ===================================================================== *)

Lemma red_list_loop (l : list DataFrame) (acc : list (list np_float)) :
  (∀ df, df ∈ l → is_Some (df_cols df !! "overlap"%string)) →
  for_in_r l acc (fun cdat red_list =>
      overlap ← pd.getitem cdat "overlap";
      Ok (red_list ++ [overlap]))
  = Ok (acc ++ (overlap_column <$> l)).
Proof.
  revert acc. induction l as [|df l IH]; intros acc H; simpl.
  - rewrite app_nil_r. reflexivity.
  - destruct (H df) as [col Hcol]; [left|].
    assert (Hg : pd.getitem df "overlap" = Ok col)
      by (unfold pd.getitem; rewrite Hcol; reflexivity).
    rewrite Hg. simpl.
    rewrite IH by (intros df' Hdf'; apply H; right; exact Hdf').
    assert (Hoc : overlap_column df = col)
      by (unfold overlap_column; rewrite Hcol; reflexivity).
    rewrite Hoc, <- app_assoc. reflexivity.
Qed.

Lemma is_overlap_split (x : np_float) :
  is_overlap x →
  np.isnan x = false
  ∧ np.eq x (np.of_Z 0) = negb (np.gt x (np.of_Z 0)).
Proof.
  destruct x as [q| | |]; simpl; try tauto. intros [H0 _].
  split; [reflexivity|].
  unfold np.gt, np.lt, np.of_Z. rewrite negb_involutive.
  change (inject_Z 0) with 0%Q.
  destruct (Qeq_bool q 0) eqn:E1, (Qle_bool q 0) eqn:E2;
    try reflexivity; exfalso.
  - apply Qeq_bool_iff in E1.
    assert (E : Qle_bool q 0 = true)
      by (apply Qle_bool_iff; rewrite E1; apply Qle_refl).
    congruence.
  - apply Qle_bool_iff in E2.
    assert (E : (q == 0)%Q) by (apply Qle_antisym; assumption).
    apply Qeq_bool_iff in E. congruence.
Qed.

Lemma filter_partition_length {A} (p q : A → bool) (l : list A) :
  Forall (fun x => q x = negb (p x)) l →
  (length (List.filter p l) + length (List.filter q l))%nat = length l.
Proof.
  induction 1 as [|x l Hx _ IH]; simpl; [reflexivity|].
  rewrite Hx. destruct (p x); simpl; lia.
Qed.

Lemma filter_keeps_Forall {A} (P : A → Prop) (p : A → bool) (l : list A) :
  Forall P l → Forall P (List.filter p l).
Proof.
  induction 1 as [|x l Hx _ IH]; simpl; [constructor|].
  destruct (p x); [constructor|]; assumption.
Qed.

Lemma filter_all {A} (p : A → bool) (l : list A) :
  Forall (fun x => p x = true) l → List.filter p l = l.
Proof.
  induction 1 as [|x l Hx _ IH]; simpl; [reflexivity|].
  rewrite Hx, IH. reflexivity.
Qed.

Lemma describe_count_no_nan (s : list np_float) :
  Forall (fun x => np.isnan x = false) s →
  pd.d_count (pd.describe s) = length s.
Proof.
  intros H. unfold pd.describe. simpl. rewrite filter_all; [reflexivity|].
  eapply Forall_impl; [exact H|]. simpl. intros x ->. reflexivity.
Qed.

Lemma all_overlaps_in_range (d : gmap string DataFrame) :
  overlaps_in_range d →
  Forall is_overlap (all_overlaps d) ∧ length (all_overlaps d) = record_count d.
Proof.
  intros Hd. unfold all_overlaps, record_count.
  assert (H : ∀ df, df ∈ values d →
            Forall is_overlap (overlap_column df)
            ∧ length (overlap_column df) = df_len df).
  { intros df Hdf. apply elem_of_values in Hdf as [k Hk].
    destruct (Hd k df Hk) as (Hwf & col & Hc & Hall).
    unfold overlap_column. rewrite Hc. simpl. split; [exact Hall|].
    eapply Hwf, Hc. }
  induction (values d) as [|df l IH]; [split; [constructor|reflexivity]|].
  rewrite fmap_cons. cbn [concat sum_list_with].
  destruct (H df) as [H1 H2]; [left|].
  destruct IH as [IH1 IH2]; [intros df' Hdf'; apply H; right; exact Hdf'|].
  split; [apply Forall_app; split; assumption|].
  rewrite length_app, H2, IH2. reflexivity.
Qed.

(** C8.  On a map whose records all have an overlap in [0,1],
    [olap_stats] returns the description of the strictly positive
    overlaps and the description of the zero overlaps, both taken from
    the overlap values of all the tracks joined together; the two
    subsets are described whole and their counts add up to the number of
    records of the map. *)
Theorem olap_stats_partition (d : gmap string DataFrame) :
  overlaps_in_range d →
  ∃ partial_olap_stats zero_olap_stats,
    olap_stats d = Ok (partial_olap_stats, zero_olap_stats)
    ∧ partial_olap_stats
      = pd.describe
          (List.filter (fun x => np.gt x (np.of_Z 0)) (all_overlaps d))
    ∧ zero_olap_stats
      = pd.describe
          (List.filter (fun x => np.eq x (np.of_Z 0)) (all_overlaps d))
    ∧ pd.d_count partial_olap_stats
      = length (List.filter (fun x => np.gt x (np.of_Z 0)) (all_overlaps d))
    ∧ pd.d_count zero_olap_stats
      = length (List.filter (fun x => np.eq x (np.of_Z 0)) (all_overlaps d))
    ∧ (pd.d_count zero_olap_stats + pd.d_count partial_olap_stats)%nat
      = record_count d.
Proof.
  intros Hd. destruct (all_overlaps_in_range d Hd) as [Hall Hlen].
  assert (Hnan : Forall (fun x => np.isnan x = false) (all_overlaps d)).
  { eapply Forall_impl; [exact Hall|]. intros x Hx.
    apply is_overlap_split, Hx. }
  do 2 eexists. split.
  { unfold olap_stats. rewrite red_list_loop.
    - simpl. reflexivity.
    - intros df Hdf. apply elem_of_values in Hdf as [k Hk].
      destruct (Hd k df Hk) as (_ & col & Hc & _). eauto. }
  fold (all_overlaps d).
  split; [reflexivity|]. split; [reflexivity|].
  rewrite !describe_count_no_nan by (apply filter_keeps_Forall, Hnan).
  split; [reflexivity|]. split; [reflexivity|].
  rewrite <- Hlen, Nat.add_comm. apply filter_partition_length.
  eapply Forall_impl; [exact Hall|]. intros x Hx.
  apply is_overlap_split, Hx.
Qed.

Lemma df_wf_overlap_only (n : nat) (col : list np_float) :
  length col = n → df_wf (mkDataFrame n {[ "overlap"%string := col ]}).
Proof.
  intros Hn c col' H. simpl in *.
  apply lookup_singleton_Some in H as [_ <-]. exact Hn.
Qed.

Lemma overlaps_in_range_ex_train : overlaps_in_range ex_train.
Proof.
  intros k df H. unfold ex_train in H.
  apply lookup_insert_Some in H as [[_ <-]|[_ H]];
    [|apply lookup_singleton_Some in H as [_ <-]].
  - split; [apply df_wf_overlap_only; reflexivity|].
    eexists. split; [apply lookup_singleton_eq|].
    repeat constructor; discriminate.
  - split; [apply df_wf_overlap_only; reflexivity|].
    eexists. split; [apply lookup_singleton_eq|].
    repeat constructor; discriminate.
Qed.

Lemma olap_stats_partition_witness :
  (∃ partial_olap_stats zero_olap_stats,
     olap_stats ex_train = Ok (partial_olap_stats, zero_olap_stats)
     ∧ pd.d_count zero_olap_stats = 2%nat
     ∧ pd.d_count partial_olap_stats = 3%nat
     ∧ (pd.d_count zero_olap_stats + pd.d_count partial_olap_stats)%nat
       = record_count ex_train
     ∧ ∃ m, pd.d_mean partial_olap_stats = Num m
            ∧ (m == ((6 # 10) + (9 # 10) + (2 # 10)) / 3)%Q).
Proof.
  destruct (olap_stats_partition ex_train overlaps_in_range_ex_train)
    as (p & z & Hr & -> & -> & _ & _ & Hsum).
  exists (pd.describe
            (List.filter (fun x => np.gt x (np.of_Z 0)) (all_overlaps ex_train))),
         (pd.describe
            (List.filter (fun x => np.eq x (np.of_Z 0)) (all_overlaps ex_train))).
  split; [exact Hr|].
  split; [vm_compute; reflexivity|].
  split; [vm_compute; reflexivity|].
  split; [exact Hsum|].
  exists (17 # 30)%Q. split; vm_compute; reflexivity.
Defined.

(** ** Missing columns, and the values left out *)

Lemma red_list_loop_fail (l : list DataFrame) (acc : list (list np_float)) :
  (∃ df, df ∈ l ∧ df_cols df !! "overlap"%string = None) →
  for_in_r l acc (fun cdat red_list =>
      overlap ← pd.getitem cdat "overlap";
      Ok (red_list ++ [overlap]))
  = Raise KeyError.
Proof.
  revert acc. induction l as [|df l IH]; intros acc (df0 & Hin & Hno).
  - inversion Hin.
  - simpl.
    destruct (df_cols df !! "overlap"%string) as [col|] eqn:E.
    2:{ assert (Hg : pd.getitem df "overlap" = Raise KeyError)
          by (unfold pd.getitem; rewrite E; reflexivity).
        rewrite Hg. reflexivity. }
    assert (Hg : pd.getitem df "overlap" = Ok col)
      by (unfold pd.getitem; rewrite E; reflexivity).
    rewrite Hg. simpl. apply IH. exists df0. split; [|exact Hno].
    apply elem_of_cons in Hin as [->|Hin]; [congruence|exact Hin].
Qed.

Lemma olap_stats_with_concat (d : gmap string DataFrame) :
  olap_stats_with (fun l => Ok (join_contours l)) d = olap_stats d.
Proof. reflexivity. Qed.

(** X8.  When some frame of the dict has no ['overlap'] column,
    [olap_stats] raises a [KeyError]: the loop of lines 168-169 reads
    the column of every frame before [cc.join_contours] is called, so
    the exception does not depend on what [cc.join_contours] does. *)
Theorem olap_stats_key_error (d : gmap string DataFrame) :
  lacks_overlap d →
  (∀ join_contours, olap_stats_with join_contours d = Raise KeyError)
  ∧ olap_stats d = Raise KeyError.
Proof.
  intros (k & df & Hk & Hno).
  assert (H : ∀ join_contours,
            olap_stats_with join_contours d = Raise KeyError).
  { intros join_contours. unfold olap_stats_with.
    rewrite red_list_loop_fail; [reflexivity|].
    exists df. split; [eapply elem_of_values_2, Hk|exact Hno]. }
  split; [exact H|].
  rewrite <- olap_stats_with_concat. apply H.
Qed.

Lemma olap_stats_key_error_witness :
  (∀ join_contours, olap_stats_with join_contours ex_train_bad = Raise KeyError)
  ∧ olap_stats ex_train_bad = Raise KeyError.
Proof.
  apply (olap_stats_key_error ex_train_bad).
  exists "t2"%string, ex_annotation. split; reflexivity.
Defined.


Lemma counted_split (x : np_float) :
  ((if np.gt x (np.of_Z 0) then 1 else 0)
   + (if np.eq x (np.of_Z 0) then 1 else 0)
   = (if counted x then 1 else 0))%nat.
Proof.
  destruct x as [q| | |]; try reflexivity.
  unfold counted, np.gt, np.lt, np.eq, np.le, np.of_Z.
  change (inject_Z 0) with 0%Q.
  destruct (Qle_bool q 0) eqn:E1, (Qeq_bool q 0) eqn:E2,
    (Qle_bool 0 q) eqn:E3; try reflexivity; exfalso.
  - apply Qeq_bool_iff in E2.
    assert (E : Qle_bool 0 q = true)
      by (apply Qle_bool_iff; rewrite E2; apply Qle_refl).
    congruence.
  - apply Qle_bool_iff in E1. apply Qeq_bool_neq in E2.
    apply Qle_bool_iff in E3. apply E2, Qle_antisym; assumption.
  - apply Qeq_bool_iff in E2.
    assert (E : Qle_bool q 0 = true)
      by (apply Qle_bool_iff; rewrite E2; apply Qle_refl).
    congruence.
  - apply Qeq_bool_iff in E2.
    assert (E : Qle_bool q 0 = true)
      by (apply Qle_bool_iff; rewrite E2; apply Qle_refl).
    congruence.
  - assert (E : Qle_bool q 0 = true ∨ Qle_bool 0 q = true).
    { destruct (Qlt_le_dec q 0) as [H|H].
      - left. apply Qle_bool_iff, Qlt_le_weak, H.
      - right. apply Qle_bool_iff, H. }
    destruct E; congruence.
Qed.

Lemma counted_filter_length (l : list np_float) :
  (length (List.filter (fun x => np.gt x (np.of_Z 0)) l)
   + length (List.filter (fun x => np.eq x (np.of_Z 0)) l))%nat
  = length (List.filter counted l).
Proof.
  induction l as [|x l IH]; [reflexivity|]. simpl.
  pose proof (counted_split x) as H.
  destruct (np.gt x (np.of_Z 0)), (np.eq x (np.of_Z 0)), (counted x);
    simpl in *; lia.
Qed.

Lemma filter_no_nan (p : np_float → bool) (l : list np_float) :
  p NaN = false →
  Forall (fun x => np.isnan x = false) (List.filter p l).
Proof.
  intros Hp. induction l as [|x l IH]; simpl; [constructor|].
  destruct (p x) eqn:E; [|exact IH]. constructor; [|exact IH].
  destruct x; try reflexivity. congruence.
Qed.

(** X9.  When every frame has an ['overlap'] column, [olap_stats]
    returns the summary of the strictly positive overlaps first and the
    summary of the zero overlaps second, and their two counts add up to
    the number of overlap values that are at least 0: a [NaN] or a
    negative overlap is counted in neither summary. *)
Theorem olap_stats_counts (d : gmap string DataFrame) :
  (∀ k df, d !! k = Some df → is_Some (df_cols df !! "overlap"%string)) →
  ∃ partial_olap_stats zero_olap_stats,
    olap_stats d = Ok (partial_olap_stats, zero_olap_stats)
    ∧ pd.d_count partial_olap_stats
      = length (List.filter (fun x => np.gt x (np.of_Z 0)) (all_overlaps d))
    ∧ pd.d_count zero_olap_stats
      = length (List.filter (fun x => np.eq x (np.of_Z 0)) (all_overlaps d))
    ∧ (pd.d_count partial_olap_stats + pd.d_count zero_olap_stats)%nat
      = length (List.filter counted (all_overlaps d)).
Proof.
  intros Hd. do 2 eexists. split.
  { unfold olap_stats. rewrite red_list_loop.
    - simpl. reflexivity.
    - intros df Hdf. apply elem_of_values in Hdf as [k Hk]. eauto. }
  fold (all_overlaps d).
  rewrite !describe_count_no_nan by (apply filter_no_nan; reflexivity).
  split; [reflexivity|]. split; [reflexivity|].
  apply counted_filter_length.
Qed.

Lemma olap_stats_counts_witness :
  ∃ partial_olap_stats zero_olap_stats,
    olap_stats ex_noisy = Ok (partial_olap_stats, zero_olap_stats)
    ∧ pd.d_count partial_olap_stats
      = length (List.filter (fun x => np.gt x (np.of_Z 0))
                  (all_overlaps ex_noisy))
    ∧ pd.d_count zero_olap_stats
      = length (List.filter (fun x => np.eq x (np.of_Z 0))
                  (all_overlaps ex_noisy))
    ∧ (pd.d_count partial_olap_stats + pd.d_count zero_olap_stats)%nat
      = length (List.filter counted (all_overlaps ex_noisy)).
Proof.
  apply (olap_stats_counts ex_noisy).
  change (map_Forall (fun _ df => is_Some (df_cols df !! "overlap"%string))
            ex_noisy).
  refine (bool_decide_unpack _ _). vm_compute. exact I.
Defined.

(* ===================================================================== *)
(** * Properties of [label_all_contours]                               *)
(* ===================================================================== *)

Lemma label_loop_unfold (d : gmap string DataFrame) (th : Q) :
  label_loop d th
  = for_in_r (keys d) d (update_body (fun df => label_contours df th)).
Proof. reflexivity. Qed.

Lemma np_gt_exceeds (o : np_float) (th : Q) :
  np.gt o (Num th) = true ↔ exceeds o th.
Proof.
  unfold np.gt, np.lt, exceeds.
  destruct o as [q| | |]; try tauto; try (split; [discriminate|tauto]).
  rewrite negb_true_iff. split.
  - intros H. apply Qnot_le_lt. intros Hle.
    apply Qle_bool_iff in Hle. congruence.
  - intros H. destruct (Qle_bool q th) eqn:E; [|reflexivity].
    apply Qle_bool_iff in E. exfalso. eapply Qlt_not_le; eauto.
Qed.

Lemma label_contours_labelled (df : DataFrame) (th : Q) :
  df_wf df → is_Some (df_cols df !! "overlap"%string) →
  ∃ df', label_contours df th = Ok df' ∧ labelled df th df'.
Proof.
  intros Hwf [overlap Ho].
  unfold label_contours, pd.getitem. rewrite Ho. simpl.
  eexists. split; [reflexivity|].
  pose proof (Hwf _ _ Ho) as Hlen.
  unfold labelled, pd.setitem_series. cbn [df_len df_cols].
  split; [reflexivity|]. split.
  { intros c Hc. apply lookup_insert_ne. congruence. }
  exists overlap. eexists. split; [exact Ho|].
  rewrite lookup_insert_eq. split; [reflexivity|].
  rewrite take_app_le by (rewrite length_map; lia).
  rewrite take_ge by (rewrite length_map; lia).
  split; [apply length_map|].
  intros i o Hi. rewrite list_lookup_fmap, Hi. simpl.
  pose proof (np_gt_exceeds o th) as Hg.
  destruct (np.gt o (Num th)); simpl; (eexists; split; [reflexivity|]).
  - split; [left; reflexivity|].
    split; [intros _; apply Hg|]; reflexivity.
  - split; [right; reflexivity|].
    split; [discriminate|]. intros H. apply Hg in H. discriminate.
Qed.

Lemma label_loop_labelled (d : gmap string DataFrame) (th : Q) :
  has_overlaps d →
  ∃ d', label_loop d th = Ok d' ∧ labelled_split d th d'.
Proof.
  intros Hd. rewrite label_loop_unfold.
  pose proof (update_loop_spec (fun df => label_contours df th) d) as H.
  destruct (for_in_r _ _ _) as [d'|e].
  - exists d'. split; [reflexivity|]. intros k. specialize (H k).
    destruct (d !! k) as [df|] eqn:Ek; [|exact H].
    destruct H as (df' & Hf & Hk). exists df'. split; [exact Hk|].
    destruct (Hd k df Ek) as [Hwf Ho].
    destruct (label_contours_labelled df th Hwf Ho) as (df2 & Hf2 & Hl).
    congruence.
  - destruct H as (k & df & Ek & Hf).
    destruct (Hd k df Ek) as [Hwf Ho].
    destruct (label_contours_labelled df th Hwf Ho) as (df2 & Hf2 & Hl).
    congruence.
Qed.

(** Each labelled split is computed from that split and the threshold
    alone. *)
Lemma label_all_contours_split (t v s : gmap string DataFrame) (th : Q)
    (t' v' s' : gmap string DataFrame) :
  label_all_contours t v s th = Ok (t', v', s')
  ↔ label_loop t th = Ok t' ∧ label_loop v th = Ok v'
    ∧ label_loop s th = Ok s'.
Proof.
  unfold label_all_contours.
  destruct (label_loop t th) as [t1|e]; simpl;
    [|split; [discriminate|intros (? & _); discriminate]].
  destruct (label_loop v th) as [v1|e]; simpl;
    [|split; [discriminate|intros (_ & ? & _); discriminate]].
  destruct (label_loop s th) as [s1|e]; simpl;
    [|split; [discriminate|intros (_ & _ & ?); discriminate]].
  split.
  - intros [= <- <- <-]. auto.
  - intros ([= <-] & [= <-] & [= <-]). reflexivity.
Qed.

(** C5.  For a threshold in [0,1) and splits of frames carrying an
    overlap column, [label_all_contours] returns the three splits with
    every record labelled 1 exactly when its overlap is strictly greater
    than the threshold and 0 otherwise; and each returned split is the
    result of the labelling loop on that split alone, whatever the other
    two splits are. *)
Theorem label_all_contours_labels
    (train valid test : gmap string DataFrame) (th : Q) :
  (0 <= th)%Q → (th < 1)%Q →
  has_overlaps train → has_overlaps valid → has_overlaps test →
  ∃ train' valid' test',
    label_all_contours train valid test th = Ok (train', valid', test')
    ∧ labelled_split train th train'
    ∧ labelled_split valid th valid'
    ∧ labelled_split test th test'
    ∧ (∀ valid2 test2 t2 v2 s2,
         label_all_contours train valid2 test2 th = Ok (t2, v2, s2) →
         t2 = train')
    ∧ (∀ train2 test2 t2 v2 s2,
         label_all_contours train2 valid test2 th = Ok (t2, v2, s2) →
         v2 = valid')
    ∧ (∀ train2 valid2 t2 v2 s2,
         label_all_contours train2 valid2 test th = Ok (t2, v2, s2) →
         s2 = test').
Proof.
  intros _ _ Ht Hv Hs.
  destruct (label_loop_labelled train th Ht) as (t' & Et & Lt).
  destruct (label_loop_labelled valid th Hv) as (v' & Ev & Lv).
  destruct (label_loop_labelled test th Hs) as (s' & Es & Ls).
  exists t', v', s'.
  split; [apply label_all_contours_split; auto|].
  do 3 (split; [assumption|]).
  split; [|split]; intros ? ? ? ? ? H;
    apply label_all_contours_split in H as (H1 & H2 & H3); congruence.
Qed.

Lemma has_overlaps_empty : has_overlaps ∅.
Proof. intros k df H. rewrite lookup_empty in H. discriminate. Qed.

Lemma has_overlaps_insert (k : string) (df : DataFrame)
    (d : gmap string DataFrame) :
  df_wf df → is_Some (df_cols df !! "overlap"%string) →
  has_overlaps d → has_overlaps (<[k := df]> d).
Proof.
  intros Hwf Ho Hd k' df' H.
  apply lookup_insert_Some in H as [[_ <-]|[_ H]]; [auto|eauto].
Qed.

Lemma has_overlaps_ex_train : has_overlaps ex_train.
Proof.
  unfold ex_train. apply has_overlaps_insert.
  - apply df_wf_overlap_only. reflexivity.
  - eexists. apply lookup_singleton_eq.
  - apply has_overlaps_insert; [| |apply has_overlaps_empty].
    + apply df_wf_overlap_only. reflexivity.
    + eexists. apply lookup_singleton_eq.
Qed.

Lemma label_all_contours_labels_witness :
  ∃ train' valid' test',
    label_all_contours ex_train ∅ ex_train (1 # 2)
      = Ok (train', valid', test')
    ∧ labelled_split ex_train (1 # 2) train'
    ∧ labelled_split ∅ (1 # 2) valid'
    ∧ labelled_split ex_train (1 # 2) test'
    ∧ (∀ valid2 test2 t2 v2 s2,
         label_all_contours ex_train valid2 test2 (1 # 2)
           = Ok (t2, v2, s2) → t2 = train')
    ∧ (∀ train2 test2 t2 v2 s2,
         label_all_contours train2 ∅ test2 (1 # 2)
           = Ok (t2, v2, s2) → v2 = valid')
    ∧ (∀ train2 valid2 t2 v2 s2,
         label_all_contours train2 valid2 ex_train (1 # 2)
           = Ok (t2, v2, s2) → s2 = test').
Proof.
  apply (label_all_contours_labels ex_train ∅ ex_train (1 # 2)).
  - discriminate.
  - reflexivity.
  - apply has_overlaps_ex_train.
  - apply has_overlaps_empty.
  - apply has_overlaps_ex_train.
Defined.

Lemma label_contours_idem (df df' : DataFrame) (th : Q) :
  label_contours df th = Ok df' → label_contours df' th = Ok df'.
Proof.
  unfold label_contours, pd.getitem.
  destruct (df_cols df !! "overlap"%string) as [overlap|] eqn:Ho;
    [|discriminate].
  simpl. intros [= <-]. unfold pd.setitem_series. cbn [df_len df_cols].
  rewrite lookup_insert_ne by discriminate. rewrite Ho. simpl.
  rewrite insert_insert_eq. reflexivity.
Qed.

Lemma label_loop_idem (d d' : gmap string DataFrame) (th : Q) :
  label_loop d th = Ok d' → label_loop d' th = Ok d'.
Proof.
  rewrite !label_loop_unfold. intros H.
  pose proof (update_loop_spec (fun df => label_contours df th) d) as H1.
  rewrite H in H1.
  assert (Hfix : ∀ k x, d' !! k = Some x → label_contours x th = Ok x).
  { intros k x Hx. specialize (H1 k). destruct (d !! k) as [df|].
    - destruct H1 as (df' & Hf & Hk). rewrite Hk in Hx. injection Hx as <-.
      eapply label_contours_idem, Hf.
    - congruence. }
  pose proof (update_loop_spec (fun df => label_contours df th) d') as H2.
  destruct (for_in_r (keys d') d' _) as [d''|e].
  - f_equal. apply map_eq. intros k. specialize (H2 k).
    destruct (d' !! k) as [x|] eqn:Ex; [|exact H2].
    destruct H2 as (x' & Hf & Hk). rewrite (Hfix k x Ex) in Hf.
    congruence.
  - destruct H2 as (k & x & Hx & Hf). rewrite (Hfix k x Hx) in Hf.
    discriminate.
Qed.

(** C7.  Labelling is idempotent: for a threshold in [0,1), the splits
    [label_all_contours] returns are returned unchanged, labels included,
    when they are labelled again with the same threshold. *)
Theorem label_all_contours_idempotent
    (train valid test train' valid' test' : gmap string DataFrame)
    (th : Q) :
  (0 <= th)%Q → (th < 1)%Q →
  label_all_contours train valid test th = Ok (train', valid', test') →
  label_all_contours train' valid' test' th = Ok (train', valid', test').
Proof.
  intros _ _ H. apply label_all_contours_split in H as (Ht & Hv & Hs).
  apply label_all_contours_split.
  split; [|split]; eapply label_loop_idem; eassumption.
Qed.

Lemma label_all_contours_idempotent_witness :
  label_all_contours ex_train ∅ ∅ (1 # 2)
    = Ok (ex_train_labelled, ∅, ∅)
  ∧ label_all_contours ex_train_labelled ∅ ∅ (1 # 2)
    = Ok (ex_train_labelled, ∅, ∅).
Proof.
  assert (H : label_all_contours ex_train ∅ ∅ (1 # 2)
              = Ok (ex_train_labelled, ∅, ∅)) by (vm_compute; reflexivity).
  split; [exact H|].
  apply (label_all_contours_idempotent ex_train ∅ ∅ _ _ _ (1 # 2)).
  - discriminate.
  - reflexivity.
  - exact H.
Defined.

(** ** The update in place *)

Section in_place.

Context (f : DataFrame → Q → result DataFrame) (th : Q) (r : loc).

Lemma in_place_loop_spec (ks : list string) :
  NoDup ks →
  ∀ (h : gmap loc (gmap string DataFrame)) (d : gmap string DataFrame),
    h !! r = Some d →
    (∀ k, k ∈ ks → is_Some (d !! k)) →
    ∃ d', (for_in ks tt (in_place_body f th r) h).2 = <[r := d']> h
      ∧ (∀ k, k ∉ ks → d' !! k = d !! k)
      ∧ match (for_in ks tt (in_place_body f th r) h).1 with
        | Ok _ =>
            ∀ k, k ∈ ks →
              ∃ df df', d !! k = Some df ∧ f df th = Ok df'
                        ∧ d' !! k = Some df'
        | Raise e =>
            (∃ k df, k ∈ ks ∧ d !! k = Some df ∧ f df th = Raise e)
            ∧ ∀ k, k ∈ ks →
                ∃ df, d !! k = Some df
                  ∧ (d' !! k = Some df
                     ∨ ∃ df', f df th = Ok df' ∧ d' !! k = Some df')
        end.
Proof.
  induction 1 as [|k ks Hk Hnd IH]; intros h d Hr Hin.
  - exists d. simpl. split; [symmetry; apply insert_id, Hr|].
    split; [reflexivity|]. intros k Hk. inversion Hk.
  - destruct (Hin k) as [df Hdf]; [left|].
    cbn [for_in].
    destruct (f df th) as [df'|e] eqn:Ef.
    + assert (Hbody : (in_place_body f th r) k tt h
                      = (Ok tt, <[r := <[k := df']> d]> h)).
      { unfold in_place_body, dicts.getitem, dicts.setitem, dicts.deref,
          dicts.store,
          dict_getitem, lift, mbind, pyM_bind.
        rewrite Hr, Hdf, Ef, Hr. reflexivity. }
      rewrite (pyM_bind_run _ _ _ _ _ Hbody).
      destruct (IH (<[r := <[k := df']> d]> h) (<[k := df']> d))
        as (d' & Hh & Hout & Hres).
      { apply lookup_insert_eq. }
      { intros k' Hk'. rewrite lookup_insert_ne by (intros ->; contradiction).
        apply Hin. right. exact Hk'. }
      exists d'. split; [rewrite Hh; apply insert_insert_eq|].
      split.
      { intros k' Hk'. apply not_elem_of_cons in Hk' as [Hne Hk'].
        rewrite (Hout k' Hk'). apply lookup_insert_ne. congruence. }
      destruct (for_in ks tt (in_place_body f th r) _).1 as [[]|e].
      * intros k' Hk'. apply elem_of_cons in Hk' as [->|Hk'].
        -- exists df, df'. rewrite (Hout k Hk), lookup_insert_eq. auto.
        -- destruct (Hres k' Hk') as (df1 & df1' & H1 & H2 & H3).
           rewrite lookup_insert_ne in H1 by (intros ->; contradiction).
           eauto.
      * destruct Hres as [(k' & df1 & Hk' & H1 & H2) Hpart].
        rewrite lookup_insert_ne in H1 by (intros ->; contradiction).
        split; [exists k', df1; split; [right|]; auto|].
        intros k'' Hk''. apply elem_of_cons in Hk'' as [->|Hk''].
        -- exists df. split; [exact Hdf|]. right. exists df'.
           rewrite (Hout k Hk), lookup_insert_eq. auto.
        -- destruct (Hpart k'' Hk'') as (df2 & H3 & H4).
           rewrite lookup_insert_ne in H3 by (intros ->; contradiction).
           eauto.
    + assert (Hbody : (in_place_body f th r) k tt h = (Raise e, h)).
      { unfold in_place_body, dicts.getitem, dicts.setitem, dicts.deref,
          dicts.store,
          dict_getitem, lift, mbind, pyM_bind.
        rewrite Hr, Hdf, Ef. reflexivity. }
      rewrite (pyM_bind_raise _ _ _ _ _ Hbody). exists d. simpl.
      split; [symmetry; apply insert_id, Hr|]. split; [reflexivity|].
      split; [exists k, df; split; [left|]; auto|].
      intros k' Hk'. destruct (Hin k' Hk') as [df1 H1]. eauto.
Qed.

(** One loop on the dict at [r]: the dict is replaced by its relabelling,
    or the loop raises the exception of a frame that cannot be labelled
    and leaves the dict partly relabelled. *)
Lemma label_loop_in_place_run (h : gmap loc (gmap string DataFrame))
    (d : gmap string DataFrame) :
  h !! r = Some d →
  ∃ d', (label_loop_in_place f r th h).2 = <[r := d']> h
    ∧ match (label_loop_in_place f r th h).1 with
      | Ok _ => relabelled f th d d'
      | Raise e => label_fails f th d e ∧ partly_relabelled f th d d'
      end.
Proof.
  intros Hr.
  assert (Hrun : label_loop_in_place f r th h
                 = for_in (keys d) tt (in_place_body f th r) h).
  { unfold label_loop_in_place, dicts.keys, dicts.deref, mbind, pyM_bind,
      mret, pyM_ret. rewrite Hr. reflexivity. }
  rewrite Hrun.
  destruct (in_place_loop_spec (keys d) (NoDup_keys d) h d Hr)
    as (d' & Hh & Hout & Hres); [intros k; apply elem_of_keys|].
  exists d'. split; [exact Hh|].
  destruct (for_in (keys d) tt (in_place_body f th r) h).1 as [[]|e].
  - intros k. destruct (d !! k) as [df|] eqn:Ek.
    + destruct (Hres k) as (df0 & df' & H0 & Hf & Hd').
      { apply elem_of_keys. eauto. }
      rewrite Ek in H0. injection H0 as <-. eauto.
    + rewrite Hout, Ek; [reflexivity|].
      rewrite elem_of_keys, Ek. intros [? ?]. discriminate.
  - destruct Hres as [(k & df & _ & H1 & H2) Hpart].
    split; [exists k, df; auto|].
    intros k'. destruct (d !! k') as [df'|] eqn:Ek.
    + destruct (Hpart k') as (df0 & H0 & Hd').
      { apply elem_of_keys. eauto. }
      rewrite Ek in H0. injection H0 as <-. exact Hd'.
    + rewrite Hout, Ek; [reflexivity|].
      rewrite elem_of_keys, Ek. intros [? ?]. discriminate.
Qed.

End in_place.

Lemma partly_relabelled_refl (f : DataFrame → Q → result DataFrame) (th : Q)
    (d : gmap string DataFrame) :
  partly_relabelled f th d d.
Proof. intros k. destruct (d !! k); auto. Qed.

Lemma relabelled_partly (f : DataFrame → Q → result DataFrame) (th : Q)
    (d d' : gmap string DataFrame) :
  relabelled f th d d' → partly_relabelled f th d d'.
Proof.
  intros H k. specialize (H k). destruct (d !! k); [right|]; exact H.
Qed.

Lemma relabelled_label_ok (f : DataFrame → Q → result DataFrame) (th : Q)
    (d d' : gmap string DataFrame) :
  relabelled f th d d' → label_ok f th d.
Proof.
  intros H k df Hk. specialize (H k). rewrite Hk in H.
  destruct H as (df' & H & _). eauto.
Qed.

Lemma label_fails_not_ok (f : DataFrame → Q → result DataFrame) (th : Q)
    (d : gmap string DataFrame) (e : exn) :
  label_fails f th d e → label_ok f th d → False.
Proof.
  intros (k & df & Hk & Hf) Hok. destruct (Hok k df Hk) as [df' H].
  congruence.
Qed.

(** The three loops on three distinct dicts. *)
Lemma label_all_contours_in_place_run
    (f : DataFrame → Q → result DataFrame) (th : Q) (rt rv rs : loc)
    (h : gmap loc (gmap string DataFrame)) (t v s : gmap string DataFrame) :
  h !! rt = Some t → h !! rv = Some v → h !! rs = Some s →
  rt ≠ rv → rt ≠ rs → rv ≠ rs →
  ∃ t' v' s',
    (label_all_contours_in_place f rt rv rs th h).2
    = <[rs := s']> (<[rv := v']> (<[rt := t']> h))
    ∧ match (label_all_contours_in_place f rt rv rs th h).1 with
      | Ok r =>
          r = (rt, rv, rs)
          ∧ relabelled f th t t' ∧ relabelled f th v v'
          ∧ relabelled f th s s'
      | Raise e =>
          (label_fails f th t e ∨ label_fails f th v e ∨ label_fails f th s e)
          ∧ partly_relabelled f th t t' ∧ partly_relabelled f th v v'
          ∧ partly_relabelled f th s s'
      end.
Proof.
  intros Ht Hv Hs Htv Hts Hvs.
  unfold label_all_contours_in_place.
  destruct (label_loop_in_place_run f th rt h t Ht) as (t' & Hh1 & Hr1).
  destruct (label_loop_in_place f rt th h) as [[[]|e] h1] eqn:E1;
    simpl in Hh1, Hr1; subst h1.
  2:{ rewrite (pyM_bind_raise _ _ _ _ _ E1). exists t', v, s. simpl.
      split.
      - rewrite (insert_id (<[rt := t']> h) rv v)
          by (rewrite lookup_insert_ne by congruence; exact Hv).
        rewrite (insert_id (<[rt := t']> h) rs s); [reflexivity|].
        rewrite lookup_insert_ne by congruence. exact Hs.
      - destruct Hr1 as [Hf Hp]. split; [auto|].
        split; [exact Hp|]. split; apply partly_relabelled_refl. }
  rewrite (pyM_bind_run _ _ _ _ _ E1).
  assert (Hv1 : <[rt := t']> h !! rv = Some v)
    by (rewrite lookup_insert_ne by congruence; exact Hv).
  destruct (label_loop_in_place_run f th rv _ v Hv1) as (v' & Hh2 & Hr2).
  destruct (label_loop_in_place f rv th (<[rt := t']> h))
    as [[[]|e] h2] eqn:E2; simpl in Hh2, Hr2; subst h2.
  2:{ rewrite (pyM_bind_raise _ _ _ _ _ E2). exists t', v', s. simpl.
      split.
      - rewrite (insert_id (<[rv := v']> (<[rt := t']> h)) rs s);
          [reflexivity|].
        rewrite !lookup_insert_ne by congruence. exact Hs.
      - destruct Hr2 as [Hf Hp]. split; [auto|].
        split; [apply relabelled_partly, Hr1|].
        split; [exact Hp|apply partly_relabelled_refl]. }
  rewrite (pyM_bind_run _ _ _ _ _ E2).
  assert (Hs2 : <[rv := v']> (<[rt := t']> h) !! rs = Some s)
    by (rewrite !lookup_insert_ne by congruence; exact Hs).
  destruct (label_loop_in_place_run f th rs _ s Hs2) as (s' & Hh3 & Hr3).
  destruct (label_loop_in_place f rs th (<[rv := v']> (<[rt := t']> h)))
    as [[[]|e] h3] eqn:E3; simpl in Hh3, Hr3; subst h3.
  2:{ rewrite (pyM_bind_raise _ _ _ _ _ E3). exists t', v', s'. simpl.
      split; [reflexivity|].
      destruct Hr3 as [Hf Hp]. split; [auto|].
      split; [apply relabelled_partly, Hr1|].
      split; [apply relabelled_partly, Hr2|exact Hp]. }
  rewrite (pyM_bind_run _ _ _ _ _ E3).
  exists t', v', s'. simpl. auto.
Qed.

(** X10.  [label_all_contours] works on the caller's dicts.  Given three
    distinct dict objects whose frames can all be labelled, it returns
    the three references it was given, and afterwards each of the three
    dicts has the keys it had, every frame replaced by
    [cc.label_contours] of that frame; no other object of the heap
    changes. *)
Theorem label_all_contours_in_place_relabels
    (label_contours : DataFrame → Q → result DataFrame) (olap_thresh : Q)
    (train valid test : loc) (h : gmap loc (gmap string DataFrame))
    (train_contour_dict valid_contour_dict test_contour_dict
       : gmap string DataFrame) :
  h !! train = Some train_contour_dict →
  h !! valid = Some valid_contour_dict →
  h !! test = Some test_contour_dict →
  train ≠ valid → train ≠ test → valid ≠ test →
  label_ok label_contours olap_thresh train_contour_dict →
  label_ok label_contours olap_thresh valid_contour_dict →
  label_ok label_contours olap_thresh test_contour_dict →
  ∃ train' valid' test',
    label_all_contours_in_place label_contours train valid test olap_thresh h
    = (Ok (train, valid, test),
       <[test := test']> (<[valid := valid']> (<[train := train']> h)))
    ∧ relabelled label_contours olap_thresh train_contour_dict train'
    ∧ relabelled label_contours olap_thresh valid_contour_dict valid'
    ∧ relabelled label_contours olap_thresh test_contour_dict test'.
Proof.
  intros Ht Hv Hs Htv Hts Hvs Hokt Hokv Hoks.
  destruct (label_all_contours_in_place_run label_contours olap_thresh
              train valid test h _ _ _ Ht Hv Hs Htv Hts Hvs)
    as (t' & v' & s' & Hh & Hres).
  destruct (label_all_contours_in_place _ _ _ _ _ h) as [[r|e] h'];
    simpl in Hh, Hres; subst h'.
  - destruct Hres as (-> & H1 & H2 & H3). exists t', v', s'. auto.
  - destruct Hres as ([Hf|[Hf|Hf]] & _); exfalso;
      eapply label_fails_not_ok; eauto.
Qed.

(** X11.  When some frame of one of the three (distinct) dicts cannot be
    labelled, [label_all_contours] raises the exception [cc.label_contours]
    raised on a frame of theirs, and the update it made so far stays: the
    dicts keep their keys, and each frame is either as it was or already
    replaced by its labelling. *)
Theorem label_all_contours_in_place_failure
    (label_contours : DataFrame → Q → result DataFrame) (olap_thresh : Q)
    (train valid test : loc) (h : gmap loc (gmap string DataFrame))
    (train_contour_dict valid_contour_dict test_contour_dict
       : gmap string DataFrame) (e0 : exn) :
  h !! train = Some train_contour_dict →
  h !! valid = Some valid_contour_dict →
  h !! test = Some test_contour_dict →
  train ≠ valid → train ≠ test → valid ≠ test →
  label_fails label_contours olap_thresh train_contour_dict e0
  ∨ label_fails label_contours olap_thresh valid_contour_dict e0
  ∨ label_fails label_contours olap_thresh test_contour_dict e0 →
  ∃ e train' valid' test',
    label_all_contours_in_place label_contours train valid test olap_thresh h
    = (Raise e,
       <[test := test']> (<[valid := valid']> (<[train := train']> h)))
    ∧ (label_fails label_contours olap_thresh train_contour_dict e
       ∨ label_fails label_contours olap_thresh valid_contour_dict e
       ∨ label_fails label_contours olap_thresh test_contour_dict e)
    ∧ partly_relabelled label_contours olap_thresh train_contour_dict train'
    ∧ partly_relabelled label_contours olap_thresh valid_contour_dict valid'
    ∧ partly_relabelled label_contours olap_thresh test_contour_dict test'.
Proof.
  intros Ht Hv Hs Htv Hts Hvs Hfail.
  destruct (label_all_contours_in_place_run label_contours olap_thresh
              train valid test h _ _ _ Ht Hv Hs Htv Hts Hvs)
    as (t' & v' & s' & Hh & Hres).
  destruct (label_all_contours_in_place _ _ _ _ _ h) as [[r|e] h'];
    simpl in Hh, Hres; subst h'.
  - destruct Hres as (_ & H1 & H2 & H3). exfalso.
    destruct Hfail as [Hf|[Hf|Hf]];
      eapply label_fails_not_ok; eauto using relabelled_label_ok.
  - exists e, t', v', s'. auto.
Qed.

Lemma label_ok_values (f : DataFrame → Q → result DataFrame) (th : Q)
    (d : gmap string DataFrame) :
  forallb (fun df => match f df th with Ok _ => true | Raise _ => false end)
    (values d) = true →
  label_ok f th d.
Proof.
  intros H k df Hk. rewrite forallb_forall in H.
  specialize (H df). destruct (f df th) as [df'|e]; [eauto|].
  discriminate H. apply list_elem_of_In. unfold values.
  apply list_elem_of_fmap. exists (k, df). split; [reflexivity|].
  apply elem_of_map_to_list, Hk.
Qed.

Lemma label_all_contours_in_place_relabels_witness :
  ∃ train' valid' test',
    label_all_contours_in_place label_contours 1%positive 2%positive
      3%positive (1 # 2) ex_dicts
    = (Ok (1%positive, 2%positive, 3%positive),
       <[3%positive := test']>
         (<[2%positive := valid']> (<[1%positive := train']> ex_dicts)))
    ∧ relabelled label_contours (1 # 2) ex_train train'
    ∧ relabelled label_contours (1 # 2) ∅ valid'
    ∧ relabelled label_contours (1 # 2) {[ "t3"%string := ex_frame ]} test'.
Proof.
  apply (label_all_contours_in_place_relabels label_contours (1 # 2)
           1%positive 2%positive 3%positive ex_dicts);
    try reflexivity; try discriminate;
    apply label_ok_values; vm_compute; reflexivity.
Defined.

Lemma label_all_contours_in_place_failure_witness :
  ∃ e train' valid' test',
    label_all_contours_in_place label_contours 1%positive 2%positive
      3%positive (1 # 2) ex_dicts_bad
    = (Raise e,
       <[3%positive := test']>
         (<[2%positive := valid']> (<[1%positive := train']> ex_dicts_bad)))
    ∧ (label_fails label_contours (1 # 2) ex_train e
       ∨ label_fails label_contours (1 # 2) ∅ e
       ∨ label_fails label_contours (1 # 2)
           {[ "t3"%string := ex_annotation ]} e)
    ∧ partly_relabelled label_contours (1 # 2) ex_train train'
    ∧ partly_relabelled label_contours (1 # 2) ∅ valid'
    ∧ partly_relabelled label_contours (1 # 2)
        {[ "t3"%string := ex_annotation ]} test'.
Proof.
  apply (label_all_contours_in_place_failure label_contours (1 # 2)
           1%positive 2%positive 3%positive ex_dicts_bad _ _ _ KeyError);
    try reflexivity; try discriminate.
  right. right. exists "t3"%string, ex_annotation. split; reflexivity.
Defined.

(* ===================================================================== *)
(** * Properties of [contour_probs]                                    *)
(* ===================================================================== *)

Lemma mel_probs_of_rows (probs : list (list np_float)) :
  Forall (fun p => ∃ v, p !! 1%nat = Some v ∧ is_probability v) probs →
  ∃ mel, traverse (fun p => getitem p 1) probs = Ok mel
         ∧ Forall is_probability mel
         ∧ ∀ i p, probs !! i = Some p → mel !! i = p !! 1%nat.
Proof.
  induction 1 as [|p probs (v & Hv & Hp) _ (mel & Hmel & Hall & Hnth)]; simpl.
  - exists []. split; [reflexivity|]. split; [constructor|].
    intros i p Hi. rewrite lookup_nil in Hi. discriminate.
  - exists (v :: mel).
    pose proof (getitem_lookup p 1 v Hv) as Hg.
    change (Z.of_nat 1) with 1 in Hg.
    rewrite Hg. simpl. rewrite Hmel. simpl.
    split; [reflexivity|]. split; [constructor; assumption|].
    intros [|i] q Hi; simpl in *.
    + injection Hi as <-. symmetry. exact Hv.
    + apply Hnth. exact Hi.
Qed.

(** C4.  With a classifier that honours its interface on the frame
    (one row of class probabilities per record, the positive-class entry
    a probability), [contour_probs] returns the collection it was given
    with as many records as before, every other column cell for cell in
    the same row order, and a ['mel prob'] column holding, row by row,
    the positive-class probability, each in [0,1]. *)
Theorem contour_probs_keeps_records {X} (cc : contour_utils X)
    (clf : classifier X) (r : loc) (h : gmap loc DataFrame)
    (df : DataFrame) (X_ : X) (y : option (list np_float))
    (probs : list (list np_float)) :
  h !! r = Some df →
  pd_to_sklearn cc (mel_prob_reset df) = Ok (X_, y) →
  predict_proba clf X_ = Ok probs →
  length probs = df_len df →
  Forall (fun p => ∃ v, p !! 1%nat = Some v ∧ is_probability v) probs →
  ∃ df' mel,
    contour_probs cc clf r h = (Ok r, <[r := df']> h)
    ∧ df_len df' = df_len df
    ∧ (∀ c, c ≠ "mel prob"%string → df_cols df' !! c = df_cols df !! c)
    ∧ df_cols df' !! "mel prob"%string = Some mel
    ∧ length mel = df_len df
    ∧ Forall is_probability mel
    ∧ (∀ i p, probs !! i = Some p → mel !! i = p !! 1%nat).
Proof.
  intros Hr Hx Hp Hlen Hrows.
  destruct (mel_probs_of_rows probs Hrows) as (mel & Hmel & Hall & Hnth).
  assert (Hlm : length mel = df_len df).
  { rewrite <- Hlen. eapply traverse_Ok_length, Hmel. }
  exists (mkDataFrame (df_len df)
            (<["mel prob"%string := mel]> (df_cols (mel_prob_reset df)))), mel.
  split.
  - unfold contour_probs, heap.setitem_scalar, heap.setitem_list,
      heap.deref, heap.store, lift, mbind, pyM_bind, mret, pyM_ret.
    rewrite Hr. rewrite lookup_insert_eq.
    fold (mel_prob_reset df). rewrite Hx, Hp, Hmel.
    rewrite lookup_insert_eq. unfold pd.setitem_list.
    replace (length mel =? df_len (mel_prob_reset df))%nat with true
      by (symmetry; apply Nat.eqb_eq; exact Hlm).
    simpl. rewrite insert_insert_eq. reflexivity.
  - simpl. split; [reflexivity|]. split.
    + intros c Hc. rewrite !lookup_insert_ne by congruence. reflexivity.
    + rewrite lookup_insert_eq. auto.
Qed.

Lemma contour_probs_keeps_records_witness :
  ∃ df' mel,
    contour_probs ex_cc ex_clf 1%positive {[ 1%positive := ex_frame ]}
      = (Ok 1%positive, <[1%positive := df']> {[ 1%positive := ex_frame ]})
    ∧ df_len df' = df_len ex_frame
    ∧ (∀ c, c ≠ "mel prob"%string →
            df_cols df' !! c = df_cols ex_frame !! c)
    ∧ df_cols df' !! "mel prob"%string = Some mel
    ∧ length mel = df_len ex_frame
    ∧ Forall is_probability mel
    ∧ (∀ i p, [[Num (1 # 4); Num (3 # 4)]; [Num (1 # 4); Num (3 # 4)]] !! i
              = Some p → mel !! i = p !! 1%nat).
Proof.
  apply (contour_probs_keeps_records ex_cc ex_clf 1%positive
           {[ 1%positive := ex_frame ]} ex_frame
           [[Num (1 # 3)]; [Num (2 # 3)]] None
           [[Num (1 # 4); Num (3 # 4)]; [Num (1 # 4); Num (3 # 4)]]).
  - reflexivity.
  - reflexivity.
  - reflexivity.
  - reflexivity.
  - repeat constructor; exists (Num (3 # 4));
      (split; [reflexivity | split; discriminate]).
Defined.



(** ** A column left by an earlier run, and answers of the wrong shape *)

Lemma mel_prob_reset_same (df1 df2 : DataFrame) :
  same_but_mel_prob df1 df2 → mel_prob_reset df2 = mel_prob_reset df1.
Proof.
  intros [Hlen Hcols]. unfold mel_prob_reset, pd.setitem_scalar.
  rewrite Hlen. f_equal. apply map_eq. intros c.
  destruct (decide (c = "mel prob"%string)) as [->|Hc].
  - rewrite !lookup_insert_eq. reflexivity.
  - rewrite !lookup_insert_ne by congruence. apply Hcols, Hc.
Qed.

Lemma contour_probs_reset {X} (cc : contour_utils X) (clf : classifier X)
    (r : loc) (h : gmap loc DataFrame) (df : DataFrame) :
  h !! r = Some df →
  contour_probs cc clf r h
  = contour_probs_rest cc clf r (<[r := mel_prob_reset df]> h).
Proof.
  intros Hr.
  unfold contour_probs, contour_probs_rest, heap.setitem_scalar,
    heap.setitem_list, heap.deref, heap.store, lift, mbind, pyM_bind,
    mret, pyM_ret.
  rewrite Hr. reflexivity.
Qed.

Lemma contour_probs_same_reset {X} (cc : contour_utils X)
    (clf : classifier X) (r : loc) (h1 h2 : gmap loc DataFrame)
    (df1 df2 : DataFrame) :
  h1 !! r = Some df1 → h2 !! r = Some df2 →
  <[r := mel_prob_reset df2]> h2 = <[r := mel_prob_reset df1]> h1 →
  contour_probs cc clf r h2 = contour_probs cc clf r h1.
Proof.
  intros H1 H2 E.
  rewrite (contour_probs_reset cc clf r h1 df1 H1).
  rewrite (contour_probs_reset cc clf r h2 df2 H2), E. reflexivity.
Qed.

(** The run of [contour_probs] once the classifier has answered. *)
Lemma contour_probs_after_predict {X} (cc : contour_utils X)
    (clf : classifier X) (r : loc) (h : gmap loc DataFrame)
    (df : DataFrame) (X_ : X) (y : option (list np_float))
    (probs : list (list np_float)) :
  h !! r = Some df →
  pd_to_sklearn cc (mel_prob_reset df) = Ok (X_, y) →
  predict_proba clf X_ = Ok probs →
  contour_probs cc clf r h
  = match traverse (fun p => getitem p 1) probs with
    | Ok mel_probs =>
        match pd.setitem_list (mel_prob_reset df) "mel prob" mel_probs with
        | Ok df' => (Ok r, <[r := df']> h)
        | Raise e => (Raise e, <[r := mel_prob_reset df]> h)
        end
    | Raise e => (Raise e, <[r := mel_prob_reset df]> h)
    end.
Proof.
  intros Hr Hx Hp.
  unfold contour_probs, heap.setitem_scalar, heap.setitem_list,
    heap.deref, heap.store, lift, mbind, pyM_bind, mret, pyM_ret.
  rewrite Hr. rewrite lookup_insert_eq.
  fold (mel_prob_reset df). rewrite Hx, Hp.
  destruct (traverse _ probs) as [mel|e]; [|reflexivity].
  rewrite lookup_insert_eq.
  destruct (pd.setitem_list _ _ mel) as [df'|e]; [|reflexivity].
  rewrite insert_insert_eq. reflexivity.
Qed.

Lemma getitem_1_short {A} (p : list A) :
  (length p < 2)%nat → getitem p 1 = Raise IndexError.
Proof.
  intros H. unfold getitem. cbn [Z.ltb Z.compare Z.leb andb].
  destruct (Z.ltb_spec 1 (Z.of_nat (length p))) as [?|_]; [lia|].
  reflexivity.
Qed.

Lemma getitem_1_long {A} (p : list A) :
  (2 <= length p)%nat → ∃ v, getitem p 1 = Ok v.
Proof. intros H. apply getitem_in_range. lia. Qed.

Lemma getitem_error {A} (p : list A) (i : Z) (e : exn) :
  getitem p i = Raise e → e = IndexError.
Proof.
  unfold getitem. destruct (_ && _); [|congruence].
  destruct (p !! _); congruence.
Qed.

Lemma mel_probs_short_row (probs : list (list np_float)) :
  (∃ p, p ∈ probs ∧ (length p < 2)%nat) →
  traverse (fun p => getitem p 1) probs = Raise IndexError.
Proof.
  induction probs as [|p probs IH]; intros (p0 & Hin & Hshort).
  - inversion Hin.
  - simpl. destruct (getitem p 1) as [v|e] eqn:E.
    + simpl. rewrite IH; [reflexivity|]. exists p0. split; [|exact Hshort].
      apply elem_of_cons in Hin as [->|Hin]; [|exact Hin].
      rewrite getitem_1_short in E by exact Hshort. discriminate.
    + apply getitem_error in E as ->. reflexivity.
Qed.

Lemma mel_probs_long_rows (probs : list (list np_float)) :
  Forall (fun p => (2 <= length p)%nat) probs →
  ∃ mel, traverse (fun p => getitem p 1) probs = Ok mel
         ∧ length mel = length probs.
Proof.
  intros H. destruct (traverse_total (fun p => getitem p 1) probs) as [mel E].
  - intros p Hp. rewrite Forall_forall in H. apply getitem_1_long, H, Hp.
  - exists mel. split; [exact E|]. eapply traverse_Ok_length, E.
Qed.

(** X12.  [contour_probs] does not read the ['mel prob'] column it
    finds: on two frames that differ only in that column the call has
    the same outcome and leaves the same frame. *)
Theorem contour_probs_ignores_old_column {X} (cc : contour_utils X)
    (clf : classifier X) (r : loc) (h : gmap loc DataFrame)
    (df df2 : DataFrame) :
  h !! r = Some df →
  same_but_mel_prob df df2 →
  contour_probs cc clf r (<[r := df2]> h) = contour_probs cc clf r h.
Proof.
  intros Hr Hsame.
  apply (contour_probs_same_reset cc clf r h (<[r := df2]> h) df df2 Hr).
  - apply lookup_insert_eq.
  - rewrite insert_insert_eq, (mel_prob_reset_same df df2 Hsame).
    reflexivity.
Qed.

Lemma same_but_mel_prob_ex : same_but_mel_prob ex_frame ex_frame_scored.
Proof.
  split; [reflexivity|]. intros c Hc. unfold ex_frame_scored, ex_frame.
  cbn [df_cols]. apply lookup_insert_ne. congruence.
Qed.

Lemma contour_probs_ignores_old_column_witness :
  contour_probs ex_cc ex_clf 1%positive
    (<[1%positive := ex_frame_scored]> {[ 1%positive := ex_frame ]})
  = contour_probs ex_cc ex_clf 1%positive {[ 1%positive := ex_frame ]}.
Proof.
  apply (contour_probs_ignores_old_column ex_cc ex_clf 1%positive
           {[ 1%positive := ex_frame ]} ex_frame ex_frame_scored).
  - reflexivity.
  - exact same_but_mel_prob_ex.
Defined.

(** X13.  Scoring a non-empty frame a second time changes nothing: when
    [contour_probs] has returned, calling it again on the frame it left
    returns the same reference and leaves the same heap. *)
Theorem contour_probs_idempotent {X} (cc : contour_utils X)
    (clf : classifier X) (r r' : loc) (h h' : gmap loc DataFrame)
    (df : DataFrame) :
  h !! r = Some df →
  df_len df ≠ 0%nat →
  contour_probs cc clf r h = (Ok r', h') →
  contour_probs cc clf r h' = (Ok r', h').
Proof.
  intros Hr Hlen Hrun.
  assert (H : ∃ df', h' = <[r := df']> h ∧ same_but_mel_prob df df').
  { pose proof Hrun as Hrun'.
    unfold contour_probs, heap.setitem_scalar, heap.setitem_list,
      heap.deref, heap.store, lift, mbind, pyM_bind, mret, pyM_ret in Hrun'.
    rewrite Hr, lookup_insert_eq in Hrun'. fold (mel_prob_reset df) in Hrun'.
    destruct (pd_to_sklearn cc (mel_prob_reset df)) as [[X_ y]|e];
      [|discriminate].
    destruct (predict_proba clf X_) as [probs|e]; [|discriminate].
    destruct (traverse _ probs) as [mel|e]; [|discriminate].
    rewrite lookup_insert_eq in Hrun'.
    unfold pd.setitem_list in Hrun'. cbn [mel_prob_reset pd.setitem_scalar
      df_len df_cols] in Hrun'.
    destruct (length mel =? df_len df)%nat.
    2:{ destruct (Nat.eqb_spec (df_len df) 0) as [?|_]; [contradiction|].
        discriminate. }
    injection Hrun' as _ <-. eexists. split; [apply insert_insert_eq|].
    split; [reflexivity|]. intros c Hc. cbn [df_cols].
    rewrite !lookup_insert_ne by congruence. reflexivity. }
  destruct H as (df' & -> & Hsame). rewrite <- Hrun.
  apply (contour_probs_same_reset cc clf r h (<[r := df']> h) df df' Hr).
  - apply lookup_insert_eq.
  - rewrite insert_insert_eq, (mel_prob_reset_same df df' Hsame).
    reflexivity.
Qed.

Lemma contour_probs_idempotent_witness :
  contour_probs ex_cc ex_clf 1%positive
    (contour_probs ex_cc ex_clf 1%positive {[ 1%positive := ex_frame ]}).2
  = (Ok 1%positive,
     (contour_probs ex_cc ex_clf 1%positive {[ 1%positive := ex_frame ]}).2).
Proof.
  apply (contour_probs_idempotent ex_cc ex_clf 1%positive 1%positive
           {[ 1%positive := ex_frame ]} _ ex_frame).
  - reflexivity.
  - discriminate.
  - vm_compute. reflexivity.
Defined.

(** X14.  When the classifier answers with a row of fewer than two
    entries (a classifier that knows one class only), [contour_probs]
    raises an [IndexError] at [p[1]], and the frame keeps the [-1] of
    line 231 in every row. *)
Theorem contour_probs_short_row {X} (cc : contour_utils X)
    (clf : classifier X) (r : loc) (h : gmap loc DataFrame)
    (df : DataFrame) (X_ : X) (y : option (list np_float))
    (probs : list (list np_float)) :
  h !! r = Some df →
  pd_to_sklearn cc (mel_prob_reset df) = Ok (X_, y) →
  predict_proba clf X_ = Ok probs →
  (∃ p, p ∈ probs ∧ (length p < 2)%nat) →
  contour_probs cc clf r h
  = (Raise IndexError, <[r := mel_prob_reset df]> h).
Proof.
  intros Hr Hx Hp Hshort.
  rewrite (contour_probs_after_predict cc clf r h df X_ y probs Hr Hx Hp).
  rewrite (mel_probs_short_row probs Hshort). reflexivity.
Qed.

Lemma contour_probs_short_row_witness :
  contour_probs ex_cc ex_clf_one_class 1%positive {[ 1%positive := ex_frame ]}
  = (Raise IndexError,
     <[1%positive := mel_prob_reset ex_frame]> {[ 1%positive := ex_frame ]}).
Proof.
  apply (contour_probs_short_row ex_cc ex_clf_one_class 1%positive
           {[ 1%positive := ex_frame ]} ex_frame
           [[Num (1 # 3)]; [Num (2 # 3)]] None [[Num 1]; [Num 1]]).
  - reflexivity.
  - reflexivity.
  - reflexivity.
  - exists [Num 1]. split; [left|simpl; lia].
Defined.

(** X15.  When the classifier answers with two entries per row but not
    with one row per record of a non-empty frame, the assignment of
    line 235 raises a [ValueError], and the frame keeps the [-1] of
    line 231 in every row. *)
Theorem contour_probs_row_count_mismatch {X} (cc : contour_utils X)
    (clf : classifier X) (r : loc) (h : gmap loc DataFrame)
    (df : DataFrame) (X_ : X) (y : option (list np_float))
    (probs : list (list np_float)) :
  h !! r = Some df →
  pd_to_sklearn cc (mel_prob_reset df) = Ok (X_, y) →
  predict_proba clf X_ = Ok probs →
  Forall (fun p => (2 <= length p)%nat) probs →
  length probs ≠ df_len df →
  df_len df ≠ 0%nat →
  contour_probs cc clf r h
  = (Raise ValueError, <[r := mel_prob_reset df]> h).
Proof.
  intros Hr Hx Hp Hrows Hne Hlen.
  rewrite (contour_probs_after_predict cc clf r h df X_ y probs Hr Hx Hp).
  destruct (mel_probs_long_rows probs Hrows) as (mel & -> & Hmel).
  unfold pd.setitem_list.
  cbn [mel_prob_reset pd.setitem_scalar df_len df_cols].
  destruct (Nat.eqb_spec (length mel) (df_len df)) as [E|_]; [lia|].
  destruct (Nat.eqb_spec (df_len df) 0) as [?|_]; [contradiction|].
  reflexivity.
Qed.

Lemma contour_probs_row_count_mismatch_witness :
  contour_probs ex_cc ex_clf_drops_row 1%positive {[ 1%positive := ex_frame ]}
  = (Raise ValueError,
     <[1%positive := mel_prob_reset ex_frame]> {[ 1%positive := ex_frame ]}).
Proof.
  apply (contour_probs_row_count_mismatch ex_cc ex_clf_drops_row 1%positive
           {[ 1%positive := ex_frame ]} ex_frame
           [[Num (1 # 3)]; [Num (2 # 3)]] None [[Num (1 # 4); Num (3 # 4)]]).
  - reflexivity.
  - reflexivity.
  - reflexivity.
  - repeat constructor.
  - discriminate.
  - discriminate.
Defined.

(* ===================================================================== *)
(** * Properties of [get_best_threshold]                               *)
(* ===================================================================== *)

Lemma bad_input_valid : valid_input bad_Y_ref bad_Y_pred_score.
Proof.
  unfold valid_input, bad_Y_ref. split; [reflexivity|]. split.
  - constructor; [left; reflexivity|].
    constructor; [right; reflexivity|]. constructor.
  - split; [left|right; left].
Qed.

(** C1 (as amended).  The division is not guarded.  At every curve point
    where [P + R = 0] (the rates being rates, [FPR <= 1] and [0 <= TPR],
    this is the point [FPR = 1], [TPR = 0]) the F value is [NaN], and
    [get_best_threshold] then returns [NaN] as its F score. *)
Theorem f_score_division_unguarded (roc_curve : roc_curve_fn)
    (Y_ref : list Z) (Y_pred_score : list Q) (plot : bool)
    (fpr tpr thresholds : list np_float) (j : nat) (a b : Q) :
  roc_curve Y_ref Y_pred_score 1 = Ok (fpr, tpr, thresholds) →
  curve_shape fpr tpr thresholds →
  fpr !! j = Some (Num a) → tpr !! j = Some (Num b) →
  (a <= 1)%Q → (0 <= b)%Q → ((1 - a) + b == 0)%Q →
  ∃ F t fig,
    f_scores_of fpr tpr = Ok F
    ∧ F !! j = Some NaN
    ∧ get_best_threshold roc_curve Y_ref Y_pred_score plot = Ok (t, NaN, fig).
Proof.
  intros Hrc Hshape Ha Hb Ha1 Hb0 Hsum.
  assert (HF : f_score_curve fpr tpr !! j = Some NaN).
  { apply f_score_curve_lookup. exists (Num a), (Num b).
    rewrite f_score_zero_division by assumption. auto. }
  destruct (get_best_threshold_run roc_curve Y_ref Y_pred_score plot
              fpr tpr thresholds Hrc Hshape)
    as (k & t & f & fig & Hrun & _ & Hf & _ & Hnan).
  destruct Hnan as [Hk _].
  { intros Hfree. pose proof (Forall_lookup_1 _ _ _ _ Hfree HF) as H.
    discriminate. }
  rewrite Hk in Hf. injection Hf as <-.
  exists (f_score_curve fpr tpr), t, fig.
  split; [apply f_scores_of_curve, Hshape|]. auto.
Qed.

Lemma f_score_division_unguarded_witness :
  ∃ F t fig,
    f_scores_of [Num 0; Num 1; Num 1] [Num 0; Num 0; Num 1] = Ok F
    ∧ F !! 1%nat = Some NaN
    ∧ get_best_threshold metrics.roc_curve bad_Y_ref bad_Y_pred_score false
      = Ok (t, NaN, fig).
Proof.
  apply (f_score_division_unguarded metrics.roc_curve bad_Y_ref
           bad_Y_pred_score false
           [Num 0; Num 1; Num 1] [Num 0; Num 0; Num 1]
           [Num (19 # 10); Num (9 # 10); Num (1 # 10)] 1 1 0).
  - vm_compute. reflexivity.
  - repeat split. discriminate.
  - reflexivity.
  - reflexivity.
  - discriminate.
  - discriminate.
  - reflexivity.
Defined.

(** The claim fails on a valid input: one negative scored 0.9, one
    positive scored 0.1.  The curve has the point [FPR = 1], [TPR = 0],
    where [P + R = 0]; the F value there is [NaN], not a sentinel, and
    it is what [get_best_threshold] returns. *)
Lemma f_score_division_guard_counterexample :
  valid_input bad_Y_ref bad_Y_pred_score
  ∧ metrics.roc_curve bad_Y_ref bad_Y_pred_score 1
    = Ok ([Num 0; Num 1; Num 1], [Num 0; Num 0; Num 1],
          [Num (19 # 10); Num (9 # 10); Num (1 # 10)])
  ∧ f_scores_of [Num 0; Num 1; Num 1] [Num 0; Num 0; Num 1]
    = Ok [Num 0; NaN; Num 0]
  ∧ ¬ division_guarded [Num 0; Num 1; Num 1] [Num 0; Num 0; Num 1]
  ∧ get_best_threshold metrics.roc_curve bad_Y_ref bad_Y_pred_score false
    = Ok (Num (9 # 10), NaN, []).
Proof.
  split.
  { apply bad_input_valid. }
  split; [vm_compute; reflexivity|].
  split; [vm_compute; reflexivity|].
  split; [|vm_compute; reflexivity].
  intros (F & HF & Hfree). vm_compute in HF. injection HF as <-.
  pose proof (Forall_lookup_1 _ _ 1%nat NaN Hfree eq_refl) as H.
  discriminate.
Qed.

(** C2 (as amended).  [get_best_threshold] validates nothing.  Whenever
    the ROC routine returns a well-shaped curve it returns a pair; and
    scikit-learn's routine returns one for every non-empty label
    sequence with one score per label, whatever the labels: a label
    other than 1 counts as negative, and a label set with a single
    class is accepted, the F score returned being [NaN]. *)
Theorem get_best_threshold_no_validation (Y_ref : list Z)
    (Y_pred_score : list Q) (plot : bool) :
  length Y_ref = length Y_pred_score → Y_pred_score ≠ [] →
  (∀ (roc_curve : roc_curve_fn) fpr tpr thresholds,
     roc_curve Y_ref Y_pred_score 1 = Ok (fpr, tpr, thresholds) →
     curve_shape fpr tpr thresholds →
     ∃ t f fig,
       get_best_threshold roc_curve Y_ref Y_pred_score plot = Ok (t, f, fig))
  ∧ ∃ t f fig,
      get_best_threshold metrics.roc_curve Y_ref Y_pred_score plot
        = Ok (t, f, fig)
      ∧ get_best_threshold metrics.roc_curve
          (map (fun y => if y =? 1 then 1 else 0) Y_ref) Y_pred_score plot
        = Ok (t, f, fig)
      ∧ (Forall (fun y => y = 1) Y_ref ∨ Forall (fun y => y ≠ 1) Y_ref →
         f = NaN).
Proof.
  intros Hlen Hne. split.
  - intros roc_curve fpr tpr thr Hrc Hshape.
    destruct (get_best_threshold_run roc_curve Y_ref Y_pred_score plot
                fpr tpr thr Hrc Hshape) as (k & t & f & fig & Hrun & _).
    eauto.
  - destruct (metrics_facts.roc_curve_shape Y_ref Y_pred_score 1 Hlen Hne)
      as (fpr & tpr & thr & Hrc & Hshape).
    destruct (get_best_threshold_run metrics.roc_curve Y_ref Y_pred_score
                plot fpr tpr thr Hrc Hshape)
      as (k & t & f & fig & Hrun & _ & Hf & _).
    exists t, f, fig. split; [exact Hrun|]. split.
    + rewrite <- Hrun. unfold get_best_threshold.
      rewrite <- metrics_facts.roc_curve_binarize. reflexivity.
    + intros Hclass.
      pose proof (curve_facts.single_class_f_scores Y_ref Y_pred_score
                    fpr tpr thr Hne Hlen Hclass Hrc) as Hall.
      exact (Forall_lookup_1 _ _ _ _ Hall Hf).
Qed.

Lemma get_best_threshold_no_validation_witness :
  (∀ (roc_curve : roc_curve_fn) fpr tpr thresholds,
     roc_curve [1; 1] [1 # 10; 4 # 10]%Q 1 = Ok (fpr, tpr, thresholds) →
     curve_shape fpr tpr thresholds →
     ∃ t f fig,
       get_best_threshold roc_curve [1; 1] [1 # 10; 4 # 10]%Q false
         = Ok (t, f, fig))
  ∧ ∃ t f fig,
      get_best_threshold metrics.roc_curve [1; 1] [1 # 10; 4 # 10]%Q false
        = Ok (t, f, fig)
      ∧ get_best_threshold metrics.roc_curve
          (map (fun y => if y =? 1 then 1 else 0) [1; 1])
          [1 # 10; 4 # 10]%Q false = Ok (t, f, fig)
      ∧ (Forall (fun y => y = 1) [1; 1] ∨ Forall (fun y => y ≠ 1) [1; 1] →
         f = NaN).
Proof.
  apply (get_best_threshold_no_validation [1; 1] [1 # 10; 4 # 10]%Q false).
  - reflexivity.
  - discriminate.
Defined.

(** The claim fails: all-positive labels, all-negative labels and a
    label outside {0,1} each get a threshold back, the first two with a
    [NaN] F score, and no exception. *)
Lemma get_best_threshold_validation_counterexample :
  ¬ raises (get_best_threshold metrics.roc_curve [1; 1]
              [1 # 10; 4 # 10]%Q false)
  ∧ get_best_threshold metrics.roc_curve [1; 1] [1 # 10; 4 # 10]%Q false
    = Ok (Num (4 # 10), NaN, [])
  ∧ get_best_threshold metrics.roc_curve [0; 0] [1 # 10; 4 # 10]%Q false
    = Ok (Num (7 # 5), NaN, [])
  ∧ get_best_threshold metrics.roc_curve [0; 2; 1]
      [1 # 10; 4 # 10; 1 # 2]%Q false
    = Ok (Num (1 # 2), Num 1, []).
Proof.
  split; [intros [e He]; vm_compute in He; discriminate|].
  repeat split; vm_compute; reflexivity.
Qed.

(** C3 (as amended).  On a well-shaped ROC curve, [get_best_threshold]
    returns the threshold and the F value of one curve point [k], the
    F array being computed in float64, each operation of
    [2*(P*R)/(P+R)], [P = 1 - FPR], [R = TPR] rounded.  When that array
    has no [NaN], [k] is the position of its maximum, the first in the
    order of the curve points when the maximum occurs more than once;
    the values compared are the rounded ones, so rounding decides which
    points tie.  When the array has a [NaN], [k] is the position of the
    first [NaN].  With rates in [0,1] the F value of a point is a [NaN]
    exactly when [P + R] comes out as zero there.  The curve points of
    scikit-learn's [roc_curve] come by increasing FPR. *)
Theorem get_best_threshold_argmax (roc_curve : roc_curve_fn)
    (Y_ref : list Z) (Y_pred_score : list Q) (plot : bool)
    (fpr tpr thresholds : list np_float) :
  roc_curve Y_ref Y_pred_score 1 = Ok (fpr, tpr, thresholds) →
  curve_shape fpr tpr thresholds →
  (∃ k t f fig a b,
     get_best_threshold64 roc_curve Y_ref Y_pred_score plot = Ok (t, f, fig)
     ∧ thresholds !! k = Some t
     ∧ fpr !! k = Some a ∧ tpr !! k = Some b ∧ f = f_score64 a b
     ∧ (nan_free (f_score_curve64 fpr tpr) →
          first_max (f_score_curve64 fpr tpr) k)
     ∧ (¬ nan_free (f_score_curve64 fpr tpr) →
          first_nan (f_score_curve64 fpr tpr) k))
  ∧ (Forall is_probability fpr → Forall is_probability tpr →
     ∀ j a b, fpr !! j = Some a → tpr !! j = Some b →
       (f_score64 a b = NaN ↔ zero_sum64 a b))
  ∧ (∀ sk_fpr sk_tpr sk_thresholds,
       roc_curve64 Y_ref Y_pred_score 1
         = Ok (sk_fpr, sk_tpr, sk_thresholds) →
       rates_increasing sk_fpr).
Proof.
  intros Hrc Hshape. split; [|split].
  - destruct (get_best_threshold64_run roc_curve Y_ref Y_pred_score plot
                fpr tpr thresholds Hrc Hshape)
      as (k & t & f & fig & Hrun & Ht & Hf & Hmax & Hnan).
    apply f_score_curve64_lookup in Hf as (a & b & Ha & Hb & ->).
    exists k, t, (f_score64 a b), fig, a, b. auto 10.
  - intros Hfpr Htpr j a b Ha Hb. apply f_score64_nan.
    + exact (Forall_lookup_1 _ _ _ _ Hfpr Ha).
    + exact (Forall_lookup_1 _ _ _ _ Htpr Hb).
  - intros sk_fpr sk_tpr sk_thr Hsk.
    eapply roc_curve64_fpr_increasing, Hsk.
Qed.

Lemma get_best_threshold_argmax_witness :
  (∃ k t f fig a b,
     get_best_threshold64 roc_curve64 ex_Y_ref ex_Y_pred_score true
       = Ok (t, f, fig)
     ∧ map f64.round [8 # 10; 4 # 10; 35 # 100; 1 # 10]%Q !! k = Some t
     ∧ [Num 0; Num (1 # 2); Num (1 # 2); Num 1] !! k = Some a
     ∧ [Num (1 # 2); Num (1 # 2); Num 1; Num 1] !! k = Some b
     ∧ f = f_score64 a b
     ∧ (nan_free (f_score_curve64 [Num 0; Num (1 # 2); Num (1 # 2); Num 1]
                    [Num (1 # 2); Num (1 # 2); Num 1; Num 1]) →
        first_max (f_score_curve64 [Num 0; Num (1 # 2); Num (1 # 2); Num 1]
                     [Num (1 # 2); Num (1 # 2); Num 1; Num 1]) k)
     ∧ (¬ nan_free (f_score_curve64 [Num 0; Num (1 # 2); Num (1 # 2); Num 1]
                      [Num (1 # 2); Num (1 # 2); Num 1; Num 1]) →
        first_nan (f_score_curve64 [Num 0; Num (1 # 2); Num (1 # 2); Num 1]
                     [Num (1 # 2); Num (1 # 2); Num 1; Num 1]) k))
  ∧ (Forall is_probability [Num 0; Num (1 # 2); Num (1 # 2); Num 1] →
     Forall is_probability [Num (1 # 2); Num (1 # 2); Num 1; Num 1] →
     ∀ j a b,
       [Num 0; Num (1 # 2); Num (1 # 2); Num 1] !! j = Some a →
       [Num (1 # 2); Num (1 # 2); Num 1; Num 1] !! j = Some b →
       (f_score64 a b = NaN ↔ zero_sum64 a b))
  ∧ (∀ sk_fpr sk_tpr sk_thresholds,
       roc_curve64 ex_Y_ref ex_Y_pred_score 1
         = Ok (sk_fpr, sk_tpr, sk_thresholds) →
       rates_increasing sk_fpr).
Proof.
  apply (get_best_threshold_argmax roc_curve64 ex_Y_ref
           ex_Y_pred_score true).
  - vm_compute. reflexivity.
  - repeat split. discriminate.
Defined.

(** The selection claim fails in float64 as it does in exact
    arithmetic: on the valid input labels [0,1], scores [0.9,0.1] the F
    array is [0, NaN, 0], its maximum 0 is first met at the first point,
    and the second point (threshold 0.9) is returned with a [NaN]. *)
Lemma get_best_threshold_argmax_counterexample :
  valid_input bad_Y_ref bad_Y_pred_score
  ∧ f_score_curve64 [Num 0; Num 1; Num 1] [Num 0; Num 0; Num 1]
    = [Num 0; NaN; Num 0]
  ∧ first_max (f_score_curve64 [Num 0; Num 1; Num 1] [Num 0; Num 0; Num 1]) 0
  ∧ get_best_threshold64 roc_curve64 bad_Y_ref bad_Y_pred_score false
    = Ok (f64.round (9 # 10), NaN, [])
  ∧ ¬ returns_first_max64 roc_curve64 bad_Y_ref bad_Y_pred_score.
Proof.
  split.
  { apply bad_input_valid. }
  split; [vm_compute; reflexivity|].
  split.
  { exists (Num 0). split; [reflexivity|]. split; [reflexivity|]. split.
    - intros [|[|[|j]]] x Hx Hn; vm_compute in Hx;
        try discriminate; injection Hx as <-; try discriminate; reflexivity.
    - intros j x Hj. lia. }
  split; [vm_compute; reflexivity|].
  intros (fpr & tpr & thr & k & t & f & fig & _ & Hrun & _ & Hf & Hmax).
  vm_compute in Hrun. injection Hrun as _ <- _.
  destruct Hmax as (m & Hm & Hnn & _).
  rewrite Hf in Hm. injection Hm as <-. discriminate.
Qed.

(** Rounding decides ties.  On these nine contours the exact F values
    of the curve points 3 and 6 are both 2/3; in float64 the first comes
    out one unit in the last place below the second, so the program
    returns the threshold 0.3 of point 6, not the 0.6 of point 3. *)
Lemma get_best_threshold64_rounding :
  valid_input tie_Y_ref tie_Y_pred_score
  ∧ get_best_threshold metrics.roc_curve tie_Y_ref tie_Y_pred_score false
    = Ok (Num (6 # 10), Num (2 # 3), [])
  ∧ get_best_threshold64 roc_curve64 tie_Y_ref tie_Y_pred_score false
    = Ok (f64.round (3 # 10), f64.round (2 # 3), [])
  ∧ (∃ fpr tpr thresholds,
       roc_curve64 tie_Y_ref tie_Y_pred_score 1 = Ok (fpr, tpr, thresholds)
       ∧ f_score_curve64 fpr tpr !! 3%nat
         = Some (Num (1501199875790165 # 2251799813685248))
       ∧ f_score_curve64 fpr tpr !! 6%nat
         = Some (Num (6004799503160661 # 9007199254740992))
       ∧ thresholds !! 3%nat = Some (f64.round (6 # 10))
       ∧ thresholds !! 6%nat = Some (f64.round (3 # 10))).
Proof.
  split.
  { split; [reflexivity|]. split.
    - repeat (constructor;
              [first [left; reflexivity | right; reflexivity]|]).
      constructor.
    - split; [do 2 right; left|left]. }
  split; [vm_compute; reflexivity|].
  split; [vm_compute; reflexivity|].
  do 3 eexists. split; [vm_compute; reflexivity|].
  repeat split; vm_compute; reflexivity.
Qed.

(** What does not depend on the rounding holds of the float64 run as it
    does of the exact one: the point [FPR = 1], [TPR = 0] has a [NaN] F
    value, and the threshold returned is one of the curve. *)
Lemma f_score64_zero_division : f_score64 (Num 1) (Num 0) = NaN.
Proof. vm_compute. reflexivity. Qed.

Lemma get_best_threshold64_candidate (roc_curve : roc_curve_fn)
    (Y_ref : list Z) (Y_pred_score : list Q) (plot : bool)
    (fpr tpr thresholds : list np_float) :
  roc_curve Y_ref Y_pred_score 1 = Ok (fpr, tpr, thresholds) →
  curve_shape fpr tpr thresholds →
  ∃ t f fig,
    get_best_threshold64 roc_curve Y_ref Y_pred_score plot = Ok (t, f, fig)
    ∧ t ∈ thresholds.
Proof.
  intros Hrc Hshape.
  destruct (get_best_threshold64_run roc_curve Y_ref Y_pred_score plot
              fpr tpr thresholds Hrc Hshape)
    as (k & t & f & fig & Hrun & Ht & _).
  exists t, f, fig. split; [exact Hrun|].
  eapply list_elem_of_lookup_2, Ht.
Qed.


(** C6.  On a well-shaped ROC curve, the threshold [get_best_threshold]
    returns is one of the candidate thresholds of the curve; and every
    candidate threshold of scikit-learn's [roc_curve] is a score of the
    input or, for the extra first point, a score of the input plus one. *)
Theorem get_best_threshold_candidate (roc_curve : roc_curve_fn)
    (Y_ref : list Z) (Y_pred_score : list Q) (plot : bool)
    (fpr tpr thresholds : list np_float) :
  roc_curve Y_ref Y_pred_score 1 = Ok (fpr, tpr, thresholds) →
  curve_shape fpr tpr thresholds →
  (∃ t f fig,
     get_best_threshold roc_curve Y_ref Y_pred_score plot = Ok (t, f, fig)
     ∧ t ∈ thresholds)
  ∧ (∀ sk_fpr sk_tpr sk_thresholds,
       metrics.roc_curve Y_ref Y_pred_score 1
         = Ok (sk_fpr, sk_tpr, sk_thresholds) →
       Forall (fun t => ∃ q, q ∈ Y_pred_score
                             ∧ (t = Num q ∨ t = Num (Qred (q + 1))))
         sk_thresholds).
Proof.
  intros Hrc Hshape. split.
  - destruct (get_best_threshold_run roc_curve Y_ref Y_pred_score plot
                fpr tpr thresholds Hrc Hshape)
      as (k & t & f & fig & Hrun & Ht & _).
    exists t, f, fig. split; [exact Hrun|].
    eapply list_elem_of_lookup_2, Ht.
  - intros sk_fpr sk_tpr sk_thr Hsk.
    eapply curve_facts.roc_curve_thresholds, Hsk.
Qed.

Lemma get_best_threshold_candidate_witness :
  (∃ t f fig,
     get_best_threshold metrics.roc_curve ex_Y_ref ex_Y_pred_score false
       = Ok (t, f, fig)
     ∧ t ∈ [Num (8 # 10); Num (4 # 10); Num (35 # 100); Num (1 # 10)])
  ∧ (∀ sk_fpr sk_tpr sk_thresholds,
       metrics.roc_curve ex_Y_ref ex_Y_pred_score 1
         = Ok (sk_fpr, sk_tpr, sk_thresholds) →
       Forall (fun t => ∃ q, q ∈ ex_Y_pred_score
                             ∧ (t = Num q ∨ t = Num (Qred (q + 1))))
         sk_thresholds).
Proof.
  apply (get_best_threshold_candidate metrics.roc_curve ex_Y_ref
           ex_Y_pred_score false
           [Num 0; Num (1 # 2); Num (1 # 2); Num 1]
           [Num (1 # 2); Num (1 # 2); Num 1; Num 1]).
  - vm_compute. reflexivity.
  - repeat split. discriminate.
Defined.

(** ** The figure, and the range of the F value *)

(** X16.  The flag [plot] changes nothing but the figure: with
    [plot=True] and [plot=False] the call raises the same exception, or
    returns the same threshold and the same F value; without [plot]
    nothing is drawn, with it the nine matplotlib calls are made, the
    first one plotting the curve [roc_curve] returned, the last one
    [plt.show()]. *)
Theorem get_best_threshold_plot_only_draws (roc_curve : roc_curve_fn)
    (Y_ref : list Z) (Y_pred_score : list Q) :
  match get_best_threshold roc_curve Y_ref Y_pred_score true,
        get_best_threshold roc_curve Y_ref Y_pred_score false with
  | Ok (t, f, fig), Ok (t', f', fig') =>
      t' = t ∧ f' = f ∧ fig' = []
      ∧ length fig = 9%nat ∧ last fig = Some plt_show
      ∧ ∃ fpr tpr thresholds,
          roc_curve Y_ref Y_pred_score 1 = Ok (fpr, tpr, thresholds)
          ∧ head fig = Some (plt_plot fpr tpr "b" (Some "ROC curve"%string))
  | Raise e, Raise e' => e' = e
  | _, _ => False
  end.
Proof.
  unfold get_best_threshold.
  destruct (roc_curve Y_ref Y_pred_score 1) as [[[fpr tpr] thr]|e];
    [|reflexivity].
  cbn [mbind result_bind].
  destruct (f_scores_of fpr tpr) as [F|e]; [|reflexivity].
  cbn [mbind result_bind].
  destruct (np.argmax F) as [i|e]; [|reflexivity].
  cbn [mbind result_bind].
  destruct (getitem F i) as [m|e]; [|reflexivity].
  cbn [mbind result_bind].
  destruct (getitem thr i) as [t|e]; [|reflexivity].
  cbn [mbind result_bind].
  repeat split. exists fpr, tpr, thr. split; reflexivity.
Qed.

(** The F value of a point whose rates are rates: [0/0] at the point
    [FPR = 1], [TPR = 0], a number between 0 and 1 elsewhere. *)
Lemma f_score_value (a b : Q) :
  (0 <= a)%Q → (a <= 1)%Q → (0 <= b)%Q → (b <= 1)%Q →
  f_score (Num a) (Num b) = NaN
  ∨ ∃ q, f_score (Num a) (Num b) = Num (Qred q) ∧ (0 <= q)%Q ∧ (q <= 1)%Q.
Proof.
  intros Ha0 Ha1 Hb0 Hb1.
  unfold f_score, np.sub, np.neg, np.add, np.mul, np.div, np.of_Z, np.Qzero.
  set (P := Qred (inject_Z 1 + Qred (- a))).
  assert (HP : (P == 1 - a)%Q).
  { unfold P. rewrite !Qred_correct. reflexivity. }
  destruct (Qeq_bool (Qred (P + b)) 0) eqn:ED.
  - apply Qeq_bool_iff in ED. rewrite Qred_correct, HP in ED.
    assert (Hb : (b == 0)%Q) by lra.
    replace (Qeq_bool (Qred (inject_Z 2 * Qred (P * b))) 0) with true;
      [left; reflexivity|].
    symmetry. apply Qeq_bool_iff. rewrite !Qred_correct, Hb. ring.
  - apply Qeq_bool_neq in ED. rewrite Qred_correct, HP in ED.
    right. eexists. split; [reflexivity|].
    rewrite !Qred_correct, HP.
    change (inject_Z 2) with 2%Q.
    assert (HD : (0 < 1 - a + b)%Q) by lra.
    assert (HPR1 : ((1 - a) * b <= 1 - a)%Q) by nra.
    assert (HPR2 : ((1 - a) * b <= b)%Q) by nra.
    assert (HPR0 : (0 <= (1 - a) * b)%Q) by nra.
    split.
    + apply Qle_shift_div_l; [exact HD|]. lra.
    + apply Qle_shift_div_r; [exact HD|]. lra.
Qed.

Lemma f_score_in_range (x y : np_float) :
  is_probability x → is_probability y →
  f_score x y = NaN ∨ is_probability (f_score x y).
Proof.
  destruct x as [a| | |], y as [b| | |]; simpl; try tauto.
  intros [Ha0 Ha1] [Hb0 Hb1].
  destruct (f_score_value a b Ha0 Ha1 Hb0 Hb1) as [H|(q & H & H0 & H1)];
    [left; exact H|right].
  rewrite H. simpl. rewrite Qred_correct. auto.
Qed.

(** X17.  On a well-shaped curve whose rates are rates (in [0,1]), the
    F value [get_best_threshold] returns is either [NaN] or a number in
    [0,1]. *)
Theorem get_best_threshold_fscore_range (roc_curve : roc_curve_fn)
    (Y_ref : list Z) (Y_pred_score : list Q) (plot : bool)
    (fpr tpr thresholds : list np_float) :
  roc_curve Y_ref Y_pred_score 1 = Ok (fpr, tpr, thresholds) →
  curve_shape fpr tpr thresholds →
  Forall is_probability fpr → Forall is_probability tpr →
  ∃ t f fig,
    get_best_threshold roc_curve Y_ref Y_pred_score plot = Ok (t, f, fig)
    ∧ (f = NaN ∨ is_probability f).
Proof.
  intros Hrc Hshape Hfpr Htpr.
  destruct (get_best_threshold_run roc_curve Y_ref Y_pred_score plot
              fpr tpr thresholds Hrc Hshape)
    as (k & t & f & fig & Hrun & _ & Hf & _).
  exists t, f, fig. split; [exact Hrun|].
  apply f_score_curve_lookup in Hf as (a & b & Ha & Hb & ->).
  apply f_score_in_range.
  - exact (Forall_lookup_1 _ _ _ _ Hfpr Ha).
  - exact (Forall_lookup_1 _ _ _ _ Htpr Hb).
Qed.

Lemma get_best_threshold_fscore_range_witness :
  ∃ t f fig,
    get_best_threshold metrics.roc_curve ex_Y_ref ex_Y_pred_score false
    = Ok (t, f, fig)
    ∧ (f = NaN ∨ is_probability f).
Proof.
  apply (get_best_threshold_fscore_range metrics.roc_curve ex_Y_ref
           ex_Y_pred_score false
           [Num 0; Num (1 # 2); Num (1 # 2); Num 1]
           [Num (1 # 2); Num (1 # 2); Num 1; Num 1]
           [Num (8 # 10); Num (4 # 10); Num (35 # 100); Num (1 # 10)]).
  - vm_compute. reflexivity.
  - repeat split; discriminate.
  - repeat constructor; discriminate.
  - repeat constructor; discriminate.
Defined.

(** The F value of the perfect point, no false positive and every
    positive found. *)
Lemma f_score_perfect : f_score (Num 0) (Num 1) = Num 1.
Proof. reflexivity. Qed.

(** X18.  When the curve has a perfect point (no false positive, every
    positive found) and the F array has no [NaN], [get_best_threshold]
    returns the F value 1, with the threshold of the first curve point
    whose F value is 1, which is the perfect point or comes before it. *)
Theorem get_best_threshold_perfect_point (roc_curve : roc_curve_fn)
    (Y_ref : list Z) (Y_pred_score : list Q) (plot : bool)
    (fpr tpr thresholds : list np_float) (j : nat) :
  roc_curve Y_ref Y_pred_score 1 = Ok (fpr, tpr, thresholds) →
  curve_shape fpr tpr thresholds →
  Forall is_probability fpr → Forall is_probability tpr →
  nan_free (f_score_curve fpr tpr) →
  fpr !! j = Some (Num 0) → tpr !! j = Some (Num 1) →
  ∃ k t fig,
    get_best_threshold roc_curve Y_ref Y_pred_score plot
    = Ok (t, Num 1, fig)
    ∧ thresholds !! k = Some t
    ∧ (k <= j)%nat
    ∧ f_score_curve fpr tpr !! k = Some (Num 1).
Proof.
  intros Hrc Hshape Hfpr Htpr Hnf Hj0 Hj1.
  destruct (get_best_threshold_run roc_curve Y_ref Y_pred_score plot
              fpr tpr thresholds Hrc Hshape)
    as (k & t & f & fig & Hrun & Ht & Hf & Hmax & _).
  destruct (Hmax Hnf) as (m & Hm & Hnan & Hall & Hbefore).
  rewrite Hf in Hm. injection Hm as <-.
  assert (Hj : f_score_curve fpr tpr !! j = Some (Num 1)).
  { apply f_score_curve_lookup. exists (Num 0), (Num 1). auto. }
  pose proof (Hall j (Num 1) Hj eq_refl) as Hle.
  assert (Hf1 : f = Num 1).
  { pose proof Hf as Hf'.
    apply f_score_curve_lookup in Hf' as (a & b & Ha & Hb & Hfab).
    pose proof (Forall_lookup_1 _ _ _ _ Hfpr Ha) as Pa.
    pose proof (Forall_lookup_1 _ _ _ _ Htpr Hb) as Pb.
    destruct a as [a| | |], b as [b| | |]; simpl in Pa, Pb; try tauto.
    destruct Pa as [Ha0 Ha1], Pb as [Hb0 Hb1].
    destruct (f_score_value a b Ha0 Ha1 Hb0 Hb1) as [H|(q & H & H0 & H1)];
      rewrite H in Hfab; subst f; [discriminate|].
    simpl in Hle. apply Qle_bool_iff in Hle. rewrite Qred_correct in Hle.
    f_equal. change 1%Q with (Qred 1). apply Qred_complete. lra. }
  subst f. exists k, t, fig. split; [exact Hrun|]. split; [exact Ht|].
  split; [|exact Hf].
  destruct (le_lt_dec k j) as [?|Hlt]; [assumption|].
  pose proof (Hbefore j (Num 1) Hlt Hj eq_refl) as Habs.
  discriminate Habs.
Qed.

Lemma get_best_threshold_perfect_point_witness :
  ∃ k t fig,
    get_best_threshold metrics.roc_curve [0; 0; 1; 1]
      [1 # 10; 2 # 10; 8 # 10; 9 # 10]%Q false
    = Ok (t, Num 1, fig)
    ∧ [Num (9 # 10); Num (8 # 10); Num (2 # 10); Num (1 # 10)] !! k = Some t
    ∧ (k <= 1)%nat
    ∧ f_score_curve [Num 0; Num 0; Num (1 # 2); Num 1]
        [Num (1 # 2); Num 1; Num 1; Num 1] !! k = Some (Num 1).
Proof.
  apply (get_best_threshold_perfect_point metrics.roc_curve [0; 0; 1; 1]
           [1 # 10; 2 # 10; 8 # 10; 9 # 10]%Q false).
  - vm_compute. reflexivity.
  - repeat split; discriminate.
  - repeat constructor; discriminate.
  - repeat constructor; discriminate.
  - repeat constructor.
  - reflexivity.
  - reflexivity.
Defined.
